(** * Transfer orchestration engine: a shallow embedding of [TransfersService]

    The development follows the TypeScript class [TransfersService]
    (transfers.service.ts).  The registry of tasks is a finite map, the
    JavaScript objects held in it are records that are replaced in the map
    when the source mutates them in place, and the asynchronous part of the
    service (the sub-task scheduler of [processTransferTask]) is an
    event-driven transition system whose events are the callbacks the
    Node.js event loop delivers. *)

From stdpp Require Import gmap strings list pretty.
From Stdlib Require Import ZArith Ascii.

Local Open Scope Z_scope.
Local Open Scope nat_scope.

(** ** Data model (transfers.types, as used by the service) *)

(** [new Date()]: a timestamp supplied by the caller of each operation. *)
Definition Date := nat.

(** [userId: string | number]; [!==] distinguishes the two kinds. *)
Inductive UserId :=
| UserStr (s : string)
| UserNum (n : Z).

Global Instance UserId_eq_dec : EqDecision UserId.
Proof. solve_decision. Defined.

Inductive Tool := rsync | scp.

Global Instance Tool_eq_dec : EqDecision Tool.
Proof. solve_decision. Defined.

Inductive TransferMethod := method_auto | method_rsync | method_scp.

Inductive ItemType := file | directory.

Record SourceItem := mkSourceItem {
  item_name : string;
  item_path : string;
  item_type : ItemType
}.

Record InitiateTransferPayload := mkPayload {
  sourceConnectionId : Z;
  connectionIds : list Z;
  sourceItems : list SourceItem;
  remoteTargetPath : string;
  transferMethod : TransferMethod
}.

Module SubTask.

(** [TransferSubTask['status']] *)
Inductive Status :=
| queued | connecting | transferring | completed | failed | cancelled.

Global Instance Status_eq_dec : EqDecision Status.
Proof. solve_decision. Defined.

Record t := mk {
  subTaskId : string;
  connectionId : Z;
  sourceItemName : string;
  status : Status;
  progress : option Z;
  message : option string;
  transferMethodUsed : option Tool;
  startTime : option Date;
  endTime : option Date
}.

Definition set_status (s : Status) (st : t) : t :=
  mk (subTaskId st) (connectionId st) (sourceItemName st) s (progress st)
     (message st) (transferMethodUsed st) (startTime st) (endTime st).

Definition set_progress (p : Z) (st : t) : t :=
  mk (subTaskId st) (connectionId st) (sourceItemName st) (status st) (Some p)
     (message st) (transferMethodUsed st) (startTime st) (endTime st).

Definition set_message (m : string) (st : t) : t :=
  mk (subTaskId st) (connectionId st) (sourceItemName st) (status st)
     (progress st) (Some m) (transferMethodUsed st) (startTime st) (endTime st).

Definition set_transferMethodUsed (u : Tool) (st : t) : t :=
  mk (subTaskId st) (connectionId st) (sourceItemName st) (status st)
     (progress st) (message st) (Some u) (startTime st) (endTime st).

Definition set_endTime (d : Date) (st : t) : t :=
  mk (subTaskId st) (connectionId st) (sourceItemName st) (status st)
     (progress st) (message st) (transferMethodUsed st) (startTime st) (Some d).

(** [status === 'completed' || status === 'failed'] *)
Definition completed_or_failed (s : Status) : bool :=
  match s with completed | failed => true | _ => false end.

(** [status !== 'completed' && status !== 'failed' && status !== 'cancelled'] *)
Definition unfinished (s : Status) : bool :=
  match s with completed | failed | cancelled => false | _ => true end.

(** The two states the rollup counts as in progress. *)
Definition active (s : Status) : bool :=
  match s with connecting | transferring => true | _ => false end.

End SubTask.

Module Task.

(** [TransferTask['status']] *)
Inductive Status :=
| queued | in_progress | completed | failed | partially_completed
| cancelling | cancelled.

Global Instance Status_eq_dec : EqDecision Status.
Proof. solve_decision. Defined.

Record t := mk {
  taskId : string;
  status : Status;
  userId : UserId;
  createdAt : Date;
  updatedAt : Date;
  subTasks : list SubTask.t;
  overallProgress : option Z;
  payload : InitiateTransferPayload
}.

Definition set_status (s : Status) (k : t) : t :=
  mk (taskId k) s (userId k) (createdAt k) (updatedAt k) (subTasks k)
     (overallProgress k) (payload k).

Definition set_updatedAt (d : Date) (k : t) : t :=
  mk (taskId k) (status k) (userId k) (createdAt k) d (subTasks k)
     (overallProgress k) (payload k).

Definition set_subTasks (l : list SubTask.t) (k : t) : t :=
  mk (taskId k) (status k) (userId k) (createdAt k) (updatedAt k) l
     (overallProgress k) (payload k).

Definition set_overallProgress (p : Z) (k : t) : t :=
  mk (taskId k) (status k) (userId k) (createdAt k) (updatedAt k) (subTasks k)
     (Some p) (payload k).

(** [isCurrentStatusFinal] of [updateOverallTaskStatus] *)
Definition final (s : Status) : bool :=
  match s with completed | failed | partially_completed => true | _ => false end.

(** [isNewStatusTransient] of [updateOverallTaskStatus] *)
Definition transient (s : Status) : bool :=
  match s with queued | in_progress => true | _ => false end.

(** The terminal states of the specification. *)
Definition terminal (s : Status) : bool :=
  match s with
  | completed | failed | partially_completed | cancelled => true
  | _ => false
  end.

End Task.

(** ** The service object

    [transferTasks] and [taskAbortControllers] are the two private maps.
    An [AbortController] is shared between the map and the closures of
    [processTransferTask], and it outlives its removal from the map; so the
    signals live in a store of their own ([signals], indexed by address,
    holding [signal.aborted]) and the map holds addresses. *)

Record Service := mkService {
  transferTasks : gmap string Task.t;
  taskAbortControllers : gmap string nat;
  signals : list bool
}.

Definition set_transferTasks (m : gmap string Task.t) (svc : Service) : Service :=
  mkService m (taskAbortControllers svc) (signals svc).

Definition set_taskAbortControllers (m : gmap string nat) (svc : Service) : Service :=
  mkService (transferTasks svc) m (signals svc).

Definition set_signals (l : list bool) (svc : Service) : Service :=
  mkService (transferTasks svc) (taskAbortControllers svc) l.

(** [signal.aborted] *)
Definition aborted (sig : nat) (svc : Service) : bool :=
  default false (signals svc !! sig).

(** [abortController.abort()], on the store (the listeners are closures of
    [processTransferTask] and are run by the event [EvCancel] below). *)
Definition abort (sig : nat) (svc : Service) : Service :=
  set_signals (<[sig := true]> (signals svc)) svc.

Definition MAX_CONCURRENT_SUB_TASKS : nat := 5.

(** ** Status rollup: [updateOverallTaskStatusBasedOnSubTasks] *)

Record Counts := mkCounts {
  completedCount : nat;
  failedCount : nat;
  inProgressCount : nat;
  queuedCount : nat;
  totalProgress : Z
}.

(** The body of the [forEach]: one [switch] on the status.  A cancelled
    sub-task matches no [case]. *)
Definition count_subTask (c : Counts) (st : SubTask.t) : Counts :=
  match SubTask.status st with
  | SubTask.completed =>
      mkCounts (S (completedCount c)) (failedCount c) (inProgressCount c)
               (queuedCount c) (totalProgress c + 100)
  | SubTask.failed =>
      mkCounts (completedCount c) (S (failedCount c)) (inProgressCount c)
               (queuedCount c) (totalProgress c)
  | SubTask.transferring =>
      mkCounts (completedCount c) (failedCount c) (S (inProgressCount c))
               (queuedCount c)
               (totalProgress c + default 0%Z (SubTask.progress st))
  | SubTask.connecting =>
      mkCounts (completedCount c) (failedCount c) (S (inProgressCount c))
               (queuedCount c)
               (totalProgress c + default 5%Z (SubTask.progress st))
  | SubTask.queued =>
      mkCounts (completedCount c) (failedCount c) (inProgressCount c)
               (S (queuedCount c)) (totalProgress c)
  | SubTask.cancelled => c
  end.

Definition count_subTasks (l : list SubTask.t) : Counts :=
  foldl count_subTask (mkCounts 0 0 0 0 0%Z) l.

(** [Math.round(totalProgress / numSubTasks)]: rounding to the nearest
    integer, halves upwards. *)
Definition Math_round_div (total : Z) (n : nat) : Z :=
  ((2 * total + Z.of_nat n) / (2 * Z.of_nat n))%Z.

(** The [if]/[else if] chain that computes [newOverallStatus]. *)
Definition newOverallStatus (c : Counts) (numSubTasks : nat) : Task.Status :=
  if decide (failedCount c = numSubTasks) then Task.failed
  else if decide (completedCount c = numSubTasks) then Task.completed
  else if decide (0 < failedCount c ∧
                  completedCount c + failedCount c = numSubTasks)
       then Task.partially_completed
  else if decide (0 < inProgressCount c ∨
                  (0 < queuedCount c ∧
                   (0 < failedCount c ∨ 0 < completedCount c)))
       then Task.in_progress
  else if decide (queuedCount c = numSubTasks) then Task.queued
  else
    if decide (0 < completedCount c ∧ 0 < queuedCount c ∧
               failedCount c = 0 ∧ inProgressCount c = 0)
    then Task.partially_completed
    else Task.in_progress.

Definition rollup_task (now : Date) (task : Task.t) : Task.t :=
  let numSubTasks := length (Task.subTasks task) in
  if decide (numSubTasks = 0) then
    Task.set_overallProgress 0 task
  else
    let c := count_subTasks (Task.subTasks task) in
    let task1 :=
      Task.set_overallProgress (Math_round_div (totalProgress c) numSubTasks) task in
    let new := newOverallStatus c numSubTasks in
    let task2 :=
      if decide (Task.status task1 ≠ new) then Task.set_status new task1
      else task1 in
    Task.set_updatedAt now task2.

Definition updateOverallTaskStatusBasedOnSubTasks
    (now : Date) (taskId : string) (svc : Service) : Service :=
  match transferTasks svc !! taskId with
  | None => svc
  | Some task =>
      set_transferTasks (<[taskId := rollup_task now task]> (transferTasks svc)) svc
  end.

(** [finalizeOverallTaskStatus] *)
Definition finalizeOverallTaskStatus
    (now : Date) (taskId : string) (svc : Service) : Service :=
  match transferTasks svc !! taskId with
  | None => svc
  | Some _ => updateOverallTaskStatusBasedOnSubTasks now taskId svc
  end.

(** ** Direct status updates *)

(** [updateOverallTaskStatus]; the [message] argument is only logged. *)
Definition updateOverallTaskStatus
    (now : Date) (taskId : string) (newStatus : Task.Status)
    (svc : Service) : Service :=
  match transferTasks svc !! taskId with
  | None => svc
  | Some task =>
      if Task.final (Task.status task) && Task.transient newStatus then svc
      else
        set_transferTasks
          (<[taskId := Task.set_updatedAt now (Task.set_status newStatus task)]>
             (transferTasks svc)) svc
  end.

(** The assignments [updateSubTaskStatus] makes to the sub-task it found. *)
Definition update_subTask
    (now : Date) (newStatus : SubTask.Status) (progress : option Z)
    (message : option string) (subTask : SubTask.t) : SubTask.t :=
  let s1 := SubTask.set_status newStatus subTask in
  let s2 := match progress with
            | Some p => SubTask.set_progress (Z.min 100 (Z.max 0 p)) s1
            | None => s1
            end in
  let s3 := match message with
            | Some m => SubTask.set_message m s2
            | None => s2
            end in
  if SubTask.completed_or_failed newStatus && bool_decide (SubTask.endTime s3 = None)
  then SubTask.set_endTime now s3
  else s3.

(** [updateSubTaskStatus] *)
Definition updateSubTaskStatus
    (now : Date) (taskId subTaskId : string) (newStatus : SubTask.Status)
    (progress : option Z) (message : option string)
    (svc : Service) : Service :=
  match transferTasks svc !! taskId with
  | None => svc
  | Some task =>
      match list_find (λ st, SubTask.subTaskId st = subTaskId) (Task.subTasks task) with
      | None => svc
      | Some (i, subTask) =>
          if SubTask.completed_or_failed (SubTask.status subTask)
             && negb (SubTask.completed_or_failed newStatus)
          then svc
          else
            let subTask' := update_subTask now newStatus progress message subTask in
            let task' :=
              Task.set_updatedAt now
                (Task.set_subTasks (<[i := subTask']> (Task.subTasks task)) task) in
            updateOverallTaskStatusBasedOnSubTasks now taskId
              (set_transferTasks (<[taskId := task']> (transferTasks svc)) svc)
      end
  end.

(** ** [cancelTransferTask] *)

(** One iteration of [task.subTasks.forEach]: the element is read from the
    live array, after the updates of the earlier iterations. *)
Definition cancel_subTask_at
    (now : Date) (taskId : string) (svc : Service) (i : nat) : Service :=
  match transferTasks svc !! taskId with
  | None => svc
  | Some task =>
      match Task.subTasks task !! i with
      | None => svc
      | Some subTask =>
          if SubTask.unfinished (SubTask.status subTask) then
            updateSubTaskStatus now taskId (SubTask.subTaskId subTask)
              SubTask.cancelled (SubTask.progress subTask)
              (Some "Cancelled due to parent task cancellation.") svc
          else svc
      end
  end.

Definition cancelTransferTask
    (now : Date) (taskId : string) (userId : UserId)
    (svc : Service) : bool * Service :=
  match transferTasks svc !! taskId with
  | None => (false, svc)
  | Some task =>
      if decide (Task.userId task ≠ userId) then (false, svc)
      else
        match taskAbortControllers svc !! taskId with
        | None => (false, svc)
        | Some sig =>
            let svc1 := abort sig svc in
            let svc2 :=
              match Task.status task with
              | Task.completed | Task.failed | Task.cancelled => svc1
              | _ => updateOverallTaskStatus now taskId Task.cancelling svc1
              end in
            (true,
             foldl (cancel_subTask_at now taskId) svc2
                   (seq 0 (length (Task.subTasks task))))
        end
  end.

(** ** [initiateNewTransfer]: expansion of a request into sub-tasks

    [uuid k] is the result of the [k]-th call of [uuidv4()]: call 0 names
    the task, the following calls name the sub-tasks in the order of the two
    nested [for] loops. *)

Definition push_subTask
    (uuid : nat → string) (now : Date) (connectionId : Z)
    (subTasks : list SubTask.t) (item : SourceItem) : list SubTask.t :=
  subTasks ++
    [SubTask.mk (uuid (S (length subTasks))) connectionId (item_name item)
                SubTask.queued None None None (Some now) None].

Definition new_subTasks
    (uuid : nat → string) (now : Date)
    (payload : InitiateTransferPayload) : list SubTask.t :=
  foldl (λ subTasks connectionId,
           foldl (push_subTask uuid now connectionId) subTasks
                 (sourceItems payload))
        [] (connectionIds payload).

Definition newTask
    (uuid : nat → string) (now : Date)
    (payload : InitiateTransferPayload) (userId : UserId) : Task.t :=
  Task.mk (uuid 0) Task.queued userId now now (new_subTasks uuid now payload)
          None payload.

(** The registrations [initiateNewTransfer] makes before it starts the
    background processing: a fresh controller, then the task. *)
Definition register_task
    (uuid : nat → string) (now : Date)
    (payload : InitiateTransferPayload) (userId : UserId)
    (svc : Service) : Service :=
  mkService
    (<[uuid 0 := newTask uuid now payload userId]> (transferTasks svc))
    (<[uuid 0 := length (signals svc)]> (taskAbortControllers svc))
    (signals svc ++ [false]).

(** ** Strings built by the executor *)

Fixpoint escape_quotes (s : string) : string :=
  match s with
  | EmptyString => EmptyString
  | String c s' =>
      if Ascii.eqb c "'"%char then "'\''" +:+ escape_quotes s'
      else String c (escape_quotes s')
  end.

(** [escapeShellArg] *)
Definition escapeShellArg (arg : string) : string :=
  "'" +:+ escape_quotes arg +:+ "'".

Definition digit_value (c : ascii) : option Z :=
  let n := nat_of_ascii c in
  if (48 <=? n) && (n <=? 57) then Some (Z.of_nat (n - 48)) else None.

(** [output.match(/(\d+)%/)] followed by [parseInt(progressMatch[1], 10)]:
    the digits that precede the first percent sign that follows a digit.
    [run] is the value of the digits read since the last other character. *)
Fixpoint progressMatch_from (run : option Z) (s : string) : option Z :=
  match s with
  | EmptyString => None
  | String c s' =>
      match digit_value c with
      | Some d => progressMatch_from (Some (10 * default 0 run + d)%Z) s'
      | None =>
          if Ascii.eqb c "%"%char then
            match run with
            | Some n => Some n
            | None => progressMatch_from None s'
            end
          else progressMatch_from None s'
      end
  end.

Definition progressMatch (output : string) : option Z :=
  progressMatch_from None output.

(** Truthiness of [string | undefined]. *)
Definition truthy (o : option string) : bool :=
  match o with
  | Some (String _ _) => true
  | _ => false
  end.

(** [message || fallback] *)
Definition or_else (message fallback : string) : string :=
  match message with
  | EmptyString => fallback
  | _ => message
  end.

Definition tool_name (u : Tool) : string :=
  match u with rsync => "rsync" | scp => "scp" end.

(** ** The environment of one task's processing *)

Inductive Exn :=
| AbortError (message : string)
| Error (message : string).

Inductive AuthMethod := auth_password | auth_key.

(** What [getConnectionWithDecryptedCredentials] returns for a target. *)
Record TargetInfo := mkTarget {
  t_name : string;
  t_host : string;
  auth_method : AuthMethod;
  decryptedPassword : option string;
  decryptedPrivateKey : option string;
  decryptedPassphrase : option string
}.

Inductive Lookup :=
| Found (tc : TargetInfo)
| NotFound
| LookupThrows (message : string).

(** Where a running [processSingleSubTaskWrapper] is suspended, with the
    local variables it needs when it resumes. *)
Inductive WPhase :=
| WTargetCredentials
| WProbeSshpass (tc : TargetInfo)
| WProbeRsync (tc : TargetInfo) (sshpassPath : option string)
| WProbeScp (tc : TargetInfo) (sshpassPath rsyncPathOnSource : option string)
| WProbeTargetRsync (tc : TargetInfo)
    (sshpassPath rsyncPathOnSource scpPathOnSource : option string)
| WMkdir (tc : TargetInfo) (sshpassPath : option string) (tool : Tool)
| WUpload (tc : TargetInfo) (sshpassPath : option string) (tool : Tool)
    (tempTargetKeyPathOnSource : string)
| WCommand (tool : Tool) (tempTargetKeyPathOnSource : option string)
| WDelete (pending : option Exn)
| WSettled.

(** The wrapper has left [executeRemoteTransferOnSource]'s [try] block. *)
Definition unwinding (ph : WPhase) : bool :=
  match ph with WDelete _ | WSettled => true | _ => false end.

(** Calls made on the source host that the properties below speak about. *)
Inductive RemoteOp :=
| OpUploadKey (i : nat) (remotePath : string)
| OpKeyUploaded (i : nat) (remotePath : string)
| OpDeleteFile (i : nat) (remotePath : string)
| OpExec (i : nat) (tool : Tool) (pty : bool)
| OpSourceEnd.

Global Instance RemoteOp_eq_dec : EqDecision RemoteOp.
Proof. solve_decision. Defined.

Inductive Settled := Pending | Resolved | Rejected.

Global Instance Settled_eq_dec : EqDecision Settled.
Proof. solve_decision. Defined.

Inductive ProcPhase :=
| PSourceCredentials | PSourceConnect | PScheduling | PFinished.

Global Instance ProcPhase_eq_dec : EqDecision ProcPhase.
Proof. solve_decision. Defined.

(** The variables the scheduler's closures share. *)
Record Sched := mkSched {
  currentlyActiveSubTasks : nat;
  currentSubTaskIndex : nat;
  totalSubTasks : nat;
  allTasksCompleted : Settled;
  onAbortOverall : bool
}.

Record Proc := mkProc {
  svc : Service;
  log : list RemoteOp;
  phase : ProcPhase;
  sourceSshClient : bool;
  sched : Sched;
  wrappers : gmap nat WPhase;
  commands : gmap nat (Tool * bool)
}.

Definition with_svc (f : Service → Service) (s : Proc) : Proc :=
  mkProc (f (svc s)) (log s) (phase s) (sourceSshClient s) (sched s)
         (wrappers s) (commands s).

Definition add_log (op : RemoteOp) (s : Proc) : Proc :=
  mkProc (svc s) (log s ++ [op]) (phase s) (sourceSshClient s) (sched s)
         (wrappers s) (commands s).

Definition set_phase (ph : ProcPhase) (s : Proc) : Proc :=
  mkProc (svc s) (log s) ph (sourceSshClient s) (sched s)
         (wrappers s) (commands s).

Definition set_sourceSshClient (b : bool) (s : Proc) : Proc :=
  mkProc (svc s) (log s) (phase s) b (sched s) (wrappers s) (commands s).

Definition with_sched (f : Sched → Sched) (s : Proc) : Proc :=
  mkProc (svc s) (log s) (phase s) (sourceSshClient s) (f (sched s))
         (wrappers s) (commands s).

Definition with_wrappers (f : gmap nat WPhase → gmap nat WPhase) (s : Proc) : Proc :=
  mkProc (svc s) (log s) (phase s) (sourceSshClient s) (sched s)
         (f (wrappers s)) (commands s).

Definition with_commands
    (f : gmap nat (Tool * bool) → gmap nat (Tool * bool)) (s : Proc) : Proc :=
  mkProc (svc s) (log s) (phase s) (sourceSshClient s) (sched s)
         (wrappers s) (f (commands s)).

Definition set_wrapper (i : nat) (ph : WPhase) : Proc → Proc :=
  with_wrappers (insert i ph).

(** ** [processTransferTask] as a transition system

    One task is processed by one call of [processTransferTask taskId signal];
    the section fixes the two arguments.  Every function below is the
    synchronous code the source runs between two suspension points. *)

Section Processing.

Variable taskId : string.
Variable signal : nat.

Definition is_aborted (s : Proc) : bool := aborted signal (svc s).

Definition the_task (s : Proc) : option Task.t :=
  transferTasks (svc s) !! taskId.

Definition subTask_at (s : Proc) (i : nat) : option SubTask.t :=
  the_task s ≫= λ task, Task.subTasks task !! i.

(** [this.updateSubTaskStatus(taskId, subTask.subTaskId, ...)] called by
    the code that runs the sub-task at position [i]. *)
Definition update
    (now : Date) (i : nat) (newStatus : SubTask.Status)
    (progress : option Z) (message : option string) (s : Proc) : Proc :=
  match subTask_at s i with
  | Some subTask =>
      with_svc (updateSubTaskStatus now taskId (SubTask.subTaskId subTask)
                  newStatus progress message) s
  | None => s
  end.

(** [subTasks.find(st => st.subTaskId === subTask.subTaskId)], as the
    code running the sub-task at position [i] evaluates it. *)
Definition subTaskInstance (s : Proc) (i : nat) : option SubTask.t :=
  subTask_at s i ≫= λ subTask,
  the_task s ≫= λ task,
  snd <$> list_find (λ st, SubTask.subTaskId st = SubTask.subTaskId subTask)
                    (Task.subTasks task).

Definition item_of (s : Proc) (i : nat) : string :=
  default EmptyString (SubTask.sourceItemName <$> subTask_at s i).

Definition resolveAllTasksCompleted : Proc → Proc :=
  with_sched (λ c,
    match allTasksCompleted c with
    | Pending =>
        mkSched (currentlyActiveSubTasks c) (currentSubTaskIndex c)
                (totalSubTasks c) Resolved (onAbortOverall c)
    | _ => c
    end).

Definition rejectAllTasksCompleted : Proc → Proc :=
  with_sched (λ c,
    match allTasksCompleted c with
    | Pending =>
        mkSched (currentlyActiveSubTasks c) (currentSubTaskIndex c)
                (totalSubTasks c) Rejected (onAbortOverall c)
    | _ => c
    end).

(** [signal.removeEventListener('abort', onAbortOverall)] *)
Definition removeOnAbortOverall : Proc → Proc :=
  with_sched (λ c,
    mkSched (currentlyActiveSubTasks c) (currentSubTaskIndex c)
            (totalSubTasks c) (allTasksCompleted c) false).

(** The [catch] of [processSingleSubTaskWrapper]. *)
Definition wrapper_catch (now : Date) (i : nat) (e : Exn) (s : Proc) : Proc :=
  let s1 :=
    match e with
    | AbortError _ =>
        update now i SubTask.cancelled None (Some "Sub-task cancelled by user.") s
    | Error m =>
        match subTaskInstance s i with
        | Some st =>
            if SubTask.unfinished (SubTask.status st) then
              update now i SubTask.failed None
                (Some (or_else m
                   ("Unknown error in sub-task "
                      +:+ SubTask.subTaskId st +:+ " wrapper."))) s
            else s
        | None => s
        end
    end in
  set_wrapper i WSettled s1.

(** The [finally] of [executeRemoteTransferOnSource]: the deletion of the
    temporary key is requested and awaited; [pending] is what the function
    completes with afterwards. *)
Definition exec_finally
    (now : Date) (i : nat) (tempTargetKeyPathOnSource : option string)
    (pending : option Exn) (s : Proc) : Proc :=
  match tempTargetKeyPathOnSource with
  | Some p => set_wrapper i (WDelete pending) (add_log (OpDeleteFile i p) s)
  | None =>
      match pending with
      | Some e => wrapper_catch now i e s
      | None => set_wrapper i WSettled s
      end
  end.

(** An exception thrown inside the [try] of
    [executeRemoteTransferOnSource]: its [catch], then its [finally]. *)
Definition exec_throw
    (now : Date) (i : nat) (e : Exn)
    (tempTargetKeyPathOnSource : option string) (s : Proc) : Proc :=
  let s1 :=
    match e with
    | AbortError m =>
        match subTaskInstance s i with
        | Some st =>
            if decide (SubTask.status st ≠ SubTask.cancelled)
            then update now i SubTask.cancelled None (Some m) s
            else s
        | None => s
        end
    | Error m =>
        update now i SubTask.failed None
          (Some (or_else m
             ("Remote transfer execution failed for " +:+ item_of s i +:+ "."))) s
    end in
  exec_finally now i tempTargetKeyPathOnSource (Some e) s1.

Definition cancelled_by_user : Exn := AbortError "Transfer cancelled by user.".

(** The synchronous start of [processSingleSubTaskWrapper], up to its
    first [await]. *)
Definition start_wrapper (now : Date) (i : nat) (s : Proc) : Proc :=
  if is_aborted s then
    set_wrapper i WSettled
      (update now i SubTask.cancelled None (Some "Cancelled before start.") s)
  else
    match subTask_at s i, the_task s with
    | Some subTask, Some task =>
        match list_find (λ it, item_name it = SubTask.sourceItemName subTask)
                        (sourceItems (Task.payload task)) with
        | None =>
            set_wrapper i WSettled
              (update now i SubTask.failed None
                 (Some ("Source item '" +:+ SubTask.sourceItemName subTask
                          +:+ "' not found in payload.")) s)
        | Some (_, currentSourceItem) =>
            set_wrapper i WTargetCredentials
              (update now i SubTask.connecting None
                 (Some ("Preparing transfer for " +:+ item_name currentSourceItem
                          +:+ " to target ID "
                          +:+ pretty (SubTask.connectionId subTask))) s)
        end
    | _, _ => s
    end.

Definition launch_sched (c : Sched) : Sched :=
  mkSched (S (currentlyActiveSubTasks c)) (S (currentSubTaskIndex c))
          (totalSubTasks c) (allTasksCompleted c) (onAbortOverall c).

Definition skip_sched (c : Sched) : Sched :=
  mkSched (currentlyActiveSubTasks c) (S (currentSubTaskIndex c))
          (totalSubTasks c) (allTasksCompleted c) (onAbortOverall c).

Definition finished_sched (c : Sched) : Sched :=
  mkSched (pred (currentlyActiveSubTasks c)) (currentSubTaskIndex c)
          (totalSubTasks c) (allTasksCompleted c) (onAbortOverall c).

(** The [while] loop of [launchNextSubTaskIfPossible]; every iteration
    advances [currentSubTaskIndex], so [totalSubTasks - currentSubTaskIndex]
    iterations are enough ([launch_loop_fuel] below). *)
Fixpoint launch_loop (now : Date) (fuel : nat) (s : Proc) : Proc :=
  match fuel with
  | 0 => s
  | S fuel' =>
      let c := sched s in
      if bool_decide (currentlyActiveSubTasks c < MAX_CONCURRENT_SUB_TASKS ∧
                      currentSubTaskIndex c < totalSubTasks c) then
        match subTask_at s (currentSubTaskIndex c) with
        | None => s
        | Some subTaskToProcess =>
            if decide (SubTask.status subTaskToProcess = SubTask.cancelled) then
              let s1 := with_sched skip_sched s in
              let s2 :=
                if bool_decide
                     (currentSubTaskIndex (sched s1) = totalSubTasks (sched s1) ∧
                      currentlyActiveSubTasks (sched s1) = 0)
                then resolveAllTasksCompleted (removeOnAbortOverall s1)
                else s1 in
              launch_loop now fuel' s2
            else
              launch_loop now fuel'
                (start_wrapper now (currentSubTaskIndex c)
                   (with_sched launch_sched s))
        end
      else s
  end.

Definition launchNextSubTaskIfPossible (now : Date) (s : Proc) : Proc :=
  if is_aborted s then
    if decide (currentlyActiveSubTasks (sched s) = 0)
    then resolveAllTasksCompleted s else s
  else
    let c := sched s in
    let s1 := launch_loop now (totalSubTasks c - currentSubTaskIndex c) s in
    if bool_decide
         (currentSubTaskIndex (sched s1) = totalSubTasks (sched s1) ∧
          currentlyActiveSubTasks (sched s1) = 0 ∧ is_aborted s1 = false)
    then resolveAllTasksCompleted (removeOnAbortOverall s1)
    else s1.

(** The callback given to [.finally] for the wrapper of sub-task [i]. *)
Definition wrapper_finally (now : Date) (i : nat) (s : Proc) : Proc :=
  let s1 := with_sched finished_sched (with_wrappers (delete i) s) in
  let c := sched s1 in
  if is_aborted s1 && bool_decide (currentlyActiveSubTasks c = 0) then
    resolveAllTasksCompleted (removeOnAbortOverall s1)
  else if bool_decide (currentSubTaskIndex c < totalSubTasks c)
          && negb (is_aborted s1) then
    launchNextSubTaskIfPossible now s1
  else if bool_decide (currentlyActiveSubTasks c = 0) then
    resolveAllTasksCompleted (removeOnAbortOverall s1)
  else s1.

(** The [forEach] run when the scheduler finds the signal aborted before
    its first launch. *)
Definition cancel_before_execution (now : Date) (s : Proc) (i : nat) : Proc :=
  match subTask_at s i with
  | Some st =>
      if negb (SubTask.completed_or_failed (SubTask.status st)) then
        update now i SubTask.cancelled None
          (Some "Task cancelled before sub-task execution.") s
      else s
  | None => s
  end.

(** The executor of the promise [processTransferTask] awaits around the
    sub-task executions. *)
Definition start_scheduler (now : Date) (s : Proc) : Proc :=
  match the_task s with
  | None => s
  | Some task =>
      let total := length (Task.subTasks task) in
      let s1 := with_sched (λ _, mkSched 0 0 total Pending true)
                  (set_phase PScheduling s) in
      if decide (total = 0) then
        resolveAllTasksCompleted (removeOnAbortOverall s1)
      else if is_aborted s1 then
        rejectAllTasksCompleted
          (removeOnAbortOverall
             (foldl (cancel_before_execution now) s1 (seq 0 total)))
      else launchNextSubTaskIfPossible now s1
  end.

(** The [catch] and the [finally] of [processTransferTask]. *)
Definition finish_processing (now : Date) (e : option Exn) (s : Proc) : Proc :=
  let s1 :=
    match e with
    | Some (AbortError _) =>
        with_svc (updateOverallTaskStatus now taskId Task.cancelled) s
    | Some (Error _) =>
        with_svc (updateOverallTaskStatus now taskId Task.failed) s
    | None => s
    end in
  let s2 := if sourceSshClient s1 then add_log OpSourceEnd s1 else s1 in
  let s3 := with_svc (finalizeOverallTaskStatus now taskId) s2 in
  let s4 := with_svc (λ v, set_taskAbortControllers
                             (delete taskId (taskAbortControllers v)) v) s3 in
  set_phase PFinished s4.

(** *** [executeRemoteTransferOnSource], between its suspension points

    A check [if (signal.aborted) throw ...] that directly follows another
    one, with no suspension point in between, reads the same flag and is
    not repeated. *)

Definition transferMethodPreference (s : Proc) : TransferMethod :=
  match the_task s with
  | Some task => transferMethod (Task.payload task)
  | None => method_auto
  end.

Definition remoteTargetPathOnTarget (s : Proc) : string :=
  match the_task s with
  | Some task => remoteTargetPath (Task.payload task)
  | None => EmptyString
  end.

(** [subTaskToUpdate.transferMethodUsed = commandTypeForLogic] *)
Definition set_method_used (i : nat) (tool : Tool) (s : Proc) : Proc :=
  match subTask_at s i, the_task s with
  | Some subTask, Some task =>
      match list_find (λ st, SubTask.subTaskId st = SubTask.subTaskId subTask)
                      (Task.subTasks task) with
      | Some (j, subTaskToUpdate) =>
          with_svc (λ v,
            set_transferTasks
              (<[taskId :=
                   Task.set_subTasks
                     (<[j := SubTask.set_transferMethodUsed tool subTaskToUpdate]>
                        (Task.subTasks task)) task]> (transferTasks v)) v) s
      | None => s
      end
  | _, _ => s
  end.

(** Entry of [executeRemoteTransferOnSource], up to the first probe. *)
Definition enter_execute (now : Date) (i : nat) (tc : TargetInfo) (s : Proc) : Proc :=
  set_wrapper i (WProbeSshpass tc)
    (update now i SubTask.transferring (Some 0%Z)
       (Some ("Initializing remote transfer for " +:+ item_of s i)) s).

(** From the choice of the tool to the connection that creates the target
    directory. *)
Definition after_tool
    (now : Date) (i : nat) (tc : TargetInfo) (sshpassPath : option string)
    (tool : Tool) (s : Proc) : Proc :=
  let s1 := update now i SubTask.transferring (Some 5%Z)
              (Some ("Using " +:+ tool_name tool +:+ ".")) s in
  let s2 := set_method_used i tool s1 in
  let s3 := update now i SubTask.transferring (Some 6%Z)
              (Some ("Ensuring target directory "
                       +:+ escapeShellArg (remoteTargetPathOnTarget s2)
                       +:+ " exists on " +:+ t_host tc +:+ ".")) s2 in
  set_wrapper i (WMkdir tc sshpassPath tool) s3.

(** [rsyncPathOnSource] is known to be absent or unusable: the [scp] leg
    of the automatic choice. *)
Definition choose_scp
    (now : Date) (i : nat) (tc : TargetInfo)
    (sshpassPath scpPathOnSource : option string) (s : Proc) : Proc :=
  match scpPathOnSource with
  | Some _ => after_tool now i tc sshpassPath scp s
  | None =>
      exec_throw now i
        (Error ("Neither Rsync nor SCP are available on source for "
                  +:+ item_of s i +:+ " (auto mode).")) None s
  end.

(** After the three probes of the source host. *)
Definition select_tool
    (now : Date) (i : nat) (tc : TargetInfo)
    (sshpassPath rsyncPathOnSource scpPathOnSource : option string)
    (s : Proc) : Proc :=
  match transferMethodPreference s with
  | method_auto =>
      match rsyncPathOnSource with
      | Some _ =>
          set_wrapper i
            (WProbeTargetRsync tc sshpassPath rsyncPathOnSource scpPathOnSource) s
      | None => choose_scp now i tc sshpassPath scpPathOnSource s
      end
  | method_rsync =>
      match rsyncPathOnSource with
      | Some _ =>
          set_wrapper i
            (WProbeTargetRsync tc sshpassPath rsyncPathOnSource scpPathOnSource) s
      | None =>
          exec_throw now i
            (Error ("Rsync preferred but not available on source for "
                      +:+ item_of s i +:+ ".")) None s
      end
  | method_scp =>
      match scpPathOnSource with
      | Some _ => after_tool now i tc sshpassPath scp s
      | None =>
          exec_throw now i
            (Error ("SCP preferred but not available on source for "
                      +:+ item_of s i +:+ ".")) None s
      end
  end.

(** After [checkCommandOnTargetServer(..., 'rsync')]. *)
Definition after_target_probe
    (now : Date) (i : nat) (tc : TargetInfo)
    (sshpassPath scpPathOnSource rsyncPathOnTarget : option string)
    (s : Proc) : Proc :=
  match transferMethodPreference s with
  | method_rsync =>
      match rsyncPathOnTarget with
      | Some _ => after_tool now i tc sshpassPath rsync s
      | None =>
          exec_throw now i
            (Error ("Rsync preferred, but not available on target for "
                      +:+ item_of s i +:+ ".")) None s
      end
  | _ =>
      match rsyncPathOnTarget with
      | Some _ => after_tool now i tc sshpassPath rsync s
      | None => choose_scp now i tc sshpassPath scpPathOnSource s
      end
  end.

(** [sourceSshClient.exec(commandToExecute, execOptions, ...)] is issued
    and the wrapper waits for the command. *)
Definition run_command
    (now : Date) (i : nat) (tool : Tool)
    (tempTargetKeyPathOnSource : option string) (pty : bool) (s : Proc) : Proc :=
  let s1 := update now i SubTask.transferring (Some 10%Z)
              (Some ("Executing: " +:+ tool_name tool)) s in
  set_wrapper i (WCommand tool tempTargetKeyPathOnSource)
    (with_commands (insert i (tool, false)) (add_log (OpExec i tool pty) s1)).

Definition TEMP_KEY_PREFIX : string := "nexus_target_key_".

(** The credential brokering that follows a successful [mkdir -p]. *)
Definition broker_credentials
    (now : Date) (i : nat) (tc : TargetInfo) (sshpassPath : option string)
    (tool : Tool) (randomSuffix : string) (s : Proc) : Proc :=
  match auth_method tc with
  | auth_key =>
      if truthy (decryptedPrivateKey tc) then
        let p := "/tmp/" +:+ TEMP_KEY_PREFIX +:+ randomSuffix in
        set_wrapper i (WUpload tc sshpassPath tool p) (add_log (OpUploadKey i p) s)
      else
        exec_throw now i
          (Error ("Target connection " +:+ t_name tc
                    +:+ " is key-based but no private key found.")) None s
  | auth_password =>
      if truthy (decryptedPassword tc) then
        match sshpassPath with
        | Some _ => run_command now i tool None true s
        | None =>
            exec_throw now i
              (Error ("Target uses password auth, but sshpass is not available on source for "
                        +:+ item_of s i +:+ ".")) None s
        end
      else run_command now i tool None false s
  end.

(** After [uploadKeyToSourceViaSftp] resolved. *)
Definition after_upload
    (now : Date) (i : nat) (tc : TargetInfo) (sshpassPath : option string)
    (tool : Tool) (p : string) (s : Proc) : Proc :=
  let s1 := add_log (OpKeyUploaded i p) s in
  if is_aborted s1 then exec_throw now i cancelled_by_user (Some p) s1
  else if truthy (decryptedPassphrase tc) then
    match sshpassPath with
    | Some _ => run_command now i tool (Some p) true s1
    | None =>
        exec_throw now i
          (Error ("Target key has passphrase, but sshpass is not available on source for "
                    +:+ item_of s1 i +:+ ".")) (Some p) s1
    end
  else run_command now i tool (Some p) false s1.

(** *** Events

    One event is one callback of the event loop together with the promise
    continuations it makes runnable.  [i] is the position of a sub-task in
    [task.subTasks]. *)

Inductive Event :=
| EvCancel (userId : UserId)
    (* a call of cancelTransferTask(taskId, userId) *)
| EvSourceCredentials (r : Lookup)
    (* getConnectionWithDecryptedCredentials(sourceConnectionId) settled *)
| EvSourceConnected (err : option string)
    (* 'ready' or 'error' of the source connection *)
| EvSourceAbortObserved
    (* the connection promise was rejected by its abort listener *)
| EvSchedulerSettled
    (* processTransferTask resumes after the scheduler's promise *)
| EvTargetCredentials (i : nat) (r : Lookup)
| EvProbe (i : nat) (foundPath : option string)
    (* checkCommandOnSource / checkCommandOnTargetServer resolved *)
| EvMkdir (i : nat) (err : option string) (randomSuffix : string)
    (* the mkdir promise settled without cancellation; randomSuffix is
       what crypto.randomBytes(6).toString('hex') returns afterwards *)
| EvAbortObserved (i : nat)
    (* the mkdir or command promise was rejected by its abort listener *)
| EvUpload (i : nat) (err : option string)
| EvExecCallback (i : nat) (err : option string)
| EvData (i : nat) (output : string)
| EvClose (i : nat) (code : option Z) (stderr : string)
| EvStreamError (i : nat) (message : string)
| EvTimeout (i : nat)
| EvDelete (i : nat) (err : option string)
| EvWrapperFinally (i : nat).

(** [cancelTransferTask], with the listeners [abort()] runs when the
    signal was not aborted before: [onAbortOverall] rejects the scheduler's
    promise, the listener of the source connection ends the client. *)
Definition cancel_event (now : Date) (userId : UserId) (s : Proc) : Proc :=
  let s1 := with_svc (λ v, (cancelTransferTask now taskId userId v).2) s in
  if negb (is_aborted s) && is_aborted s1 then
    let s2 := if onAbortOverall (sched s1)
              then rejectAllTasksCompleted (removeOnAbortOverall s1)
              else s1 in
    if decide (phase s2 = PSourceConnect) then add_log OpSourceEnd s2 else s2
  else s1.

Definition code_text (code : option Z) : string :=
  match code with Some c => pretty c | None => "null" end.

Definition step (now : Date) (ev : Event) (s : Proc) : option Proc :=
  match ev with
  | EvCancel userId => Some (cancel_event now userId s)
  | EvSourceCredentials r =>
      if decide (phase s = PSourceCredentials) then
        if is_aborted s then Some (finish_processing now (Some cancelled_by_user) s)
        else
          match r with
          | Found _ => Some (set_phase PSourceConnect (set_sourceSshClient true s))
          | NotFound =>
              Some (finish_processing now
                      (Some (Error "Source connection not found or inaccessible.")) s)
          | LookupThrows m => Some (finish_processing now (Some (Error m)) s)
          end
      else None
  | EvSourceConnected err =>
      if decide (phase s = PSourceConnect) then
        if is_aborted s then None
        else
          match err with
          | Some m => Some (finish_processing now (Some (Error m)) s)
          | None => Some (start_scheduler now s)
          end
      else None
  | EvSourceAbortObserved =>
      if decide (phase s = PSourceConnect) then
        if is_aborted s then Some (finish_processing now (Some cancelled_by_user) s)
        else None
      else None
  | EvSchedulerSettled =>
      if decide (phase s = PScheduling) then
        match allTasksCompleted (sched s) with
        | Pending => None
        | Resolved => Some (finish_processing now None s)
        | Rejected => Some (finish_processing now (Some cancelled_by_user) s)
        end
      else None
  | EvTargetCredentials i r =>
      match wrappers s !! i with
      | Some WTargetCredentials =>
          if is_aborted s then Some (wrapper_catch now i cancelled_by_user s)
          else
            match r with
            | Found tc => Some (enter_execute now i tc s)
            | NotFound =>
                Some (set_wrapper i WSettled
                        (update now i SubTask.failed None
                           (Some ("Target connection with ID "
                                    +:+ default EmptyString
                                          (pretty ∘ SubTask.connectionId <$> subTask_at s i)
                                    +:+ " not found.")) s))
            | LookupThrows m => Some (wrapper_catch now i (Error m) s)
            end
      | _ => None
      end
  | EvProbe i foundPath =>
      match wrappers s !! i with
      | Some (WProbeSshpass tc) =>
          if is_aborted s then Some (exec_throw now i cancelled_by_user None s)
          else Some (set_wrapper i (WProbeRsync tc foundPath) s)
      | Some (WProbeRsync tc sshpassPath) =>
          if is_aborted s then Some (exec_throw now i cancelled_by_user None s)
          else Some (set_wrapper i (WProbeScp tc sshpassPath foundPath) s)
      | Some (WProbeScp tc sshpassPath rsyncPathOnSource) =>
          if is_aborted s then Some (exec_throw now i cancelled_by_user None s)
          else Some (select_tool now i tc sshpassPath rsyncPathOnSource foundPath s)
      | Some (WProbeTargetRsync tc sshpassPath _ scpPathOnSource) =>
          if is_aborted s then Some (exec_throw now i cancelled_by_user None s)
          else Some (after_target_probe now i tc sshpassPath scpPathOnSource foundPath s)
      | _ => None
      end
  | EvMkdir i err randomSuffix =>
      match wrappers s !! i with
      | Some (WMkdir tc sshpassPath tool) =>
          if is_aborted s then None
          else
            match err with
            | Some m =>
                Some (exec_throw now i
                        (Error ("Failed to create target directory "
                                  +:+ remoteTargetPathOnTarget s +:+ ": " +:+ m)) None
                        (update now i SubTask.failed None
                           (Some ("Failed to create target directory: " +:+ m)) s))
            | None =>
                Some (broker_credentials now i tc sshpassPath tool randomSuffix
                        (update now i SubTask.transferring (Some 8%Z)
                           (Some "Target directory ensured. Preparing transfer command.") s))
            end
      | _ => None
      end
  | EvAbortObserved i =>
      if is_aborted s then
        match wrappers s !! i with
        | Some (WMkdir _ _ _) =>
            let m := "Mkdir operation cancelled by user." in
            Some (exec_throw now i (AbortError m) None
                    (update now i SubTask.cancelled None
                       (Some ("Directory creation cancelled: " +:+ m)) s))
        | Some (WCommand _ tempTargetKeyPathOnSource) =>
            Some (exec_throw now i (AbortError "Command cancelled by user.")
                    tempTargetKeyPathOnSource s)
        | _ => None
        end
      else None
  | EvUpload i err =>
      match wrappers s !! i with
      | Some (WUpload tc sshpassPath tool p) =>
          match err with
          | Some m => Some (exec_throw now i (Error m) (Some p) s)
          | None => Some (after_upload now i tc sshpassPath tool p s)
          end
      | _ => None
      end
  | EvExecCallback i err =>
      match commands s !! i with
      | Some (tool, false) =>
          if is_aborted s then Some (with_commands (delete i) s)
          else
            match err with
            | Some m =>
                let s1 := with_commands (delete i) s in
                match wrappers s !! i with
                | Some (WCommand _ tempTargetKeyPathOnSource) =>
                    Some (exec_throw now i
                            (Error ("Failed to execute command: " +:+ m))
                            tempTargetKeyPathOnSource s1)
                | _ => Some s1
                end
            | None => Some (with_commands (insert i (tool, true)) s)
            end
      | _ => None
      end
  | EvData i output =>
      match commands s !! i with
      | Some (tool, true) =>
          if is_aborted s then Some s
          else
            match tool with
            | rsync =>
                match progressMatch output with
                | Some p => Some (update now i SubTask.transferring (Some p) None s)
                | None => Some s
                end
            | scp =>
                Some (update now i SubTask.transferring (Some 50%Z)
                        (Some "SCP in progress...") s)
            end
      | _ => None
      end
  | EvClose i code stderr =>
      match commands s !! i with
      | Some (tool, true) =>
          let s1 := with_commands (delete i) s in
          if is_aborted s then Some s1
          else if decide (code = Some 0%Z) then
            let s2 := update now i SubTask.completed (Some 100%Z)
                        (Some (tool_name tool +:+ " successful.")) s1 in
            match wrappers s !! i with
            | Some (WCommand _ tempTargetKeyPathOnSource) =>
                Some (exec_finally now i tempTargetKeyPathOnSource None s2)
            | _ => Some s2
            end
          else
            match wrappers s !! i with
            | Some (WCommand _ tempTargetKeyPathOnSource) =>
                Some (exec_throw now i
                        (Error (tool_name tool +:+ " failed. Code: "
                                  +:+ code_text code +:+ ". Stderr: " +:+ stderr))
                        tempTargetKeyPathOnSource s1)
            | _ => Some s1
            end
      | _ => None
      end
  | EvStreamError i m =>
      match commands s !! i with
      | Some (_, true) =>
          if is_aborted s then Some s
          else
            match wrappers s !! i with
            | Some (WCommand _ tempTargetKeyPathOnSource) =>
                Some (exec_throw now i (Error m) tempTargetKeyPathOnSource s)
            | _ => Some s
            end
      | _ => None
      end
  | EvTimeout i =>
      match wrappers s !! i with
      | Some (WCommand tool tempTargetKeyPathOnSource) =>
          if is_aborted s then None
          else
            Some (exec_throw now i
                    (Error (tool_name tool +:+ " command timed out for "
                              +:+ item_of s i +:+ "."))
                    tempTargetKeyPathOnSource s)
      | _ => None
      end
  | EvDelete i _ =>
      match wrappers s !! i with
      | Some (WDelete (Some e)) => Some (wrapper_catch now i e s)
      | Some (WDelete None) => Some (set_wrapper i WSettled s)
      | _ => None
      end
  | EvWrapperFinally i =>
      match wrappers s !! i with
      | Some WSettled => Some (wrapper_finally now i s)
      | _ => None
      end
  end.

(** A run: the events of a trace, each with the time at which it occurs. *)
Fixpoint run (es : list (Date * Event)) (s : Proc) : option Proc :=
  match es with
  | [] => Some s
  | (now, ev) :: es' =>
      match step now ev s with
      | Some s' => run es' s'
      | None => None
      end
  end.

Definition initial_proc (v : Service) : Proc :=
  mkProc v [] PSourceCredentials false (mkSched 0 0 0 Pending false) ∅ ∅.

(** The start of [processTransferTask], up to its first [await]. *)
Definition start_processing (now : Date) (v : Service) : Proc :=
  match transferTasks v !! taskId with
  | None => set_phase PFinished (initial_proc v)
  | Some _ =>
      if aborted signal v then
        set_phase PFinished
          (initial_proc
             (set_taskAbortControllers
                (delete taskId (taskAbortControllers v))
                (updateOverallTaskStatus now taskId Task.cancelled v)))
      else initial_proc (updateOverallTaskStatus now taskId Task.in_progress v)
  end.

End Processing.

(** [initiateNewTransfer]: the registrations, the synchronous start of the
    background processing, and the returned copy of the task. *)
Definition initiateNewTransfer
    (uuid : nat → string) (now : Date)
    (payload : InitiateTransferPayload) (userId : UserId)
    (v : Service) : Task.t * Proc :=
  let s := start_processing (uuid 0) (length (signals v)) now
             (register_task uuid now payload userId v) in
  (default (newTask uuid now payload userId) (transferTasks (svc s) !! uuid 0), s).

(** * Properties *)

(** ** What the service operations do to the sub-tasks of a task *)

Definition subTasks_of (v : Service) (taskId : string) : list SubTask.t :=
  default [] (Task.subTasks <$> transferTasks v !! taskId).

Definition statuses (v : Service) (taskId : string) : list SubTask.Status :=
  SubTask.status <$> subTasks_of v taskId.

Definition status_of (v : Service) (taskId : string) : option Task.Status :=
  Task.status <$> transferTasks v !! taskId.

(** The guard at the head of [updateSubTaskStatus]. *)
Definition blocked (old new : SubTask.Status) : bool :=
  SubTask.completed_or_failed old && negb (SubTask.completed_or_failed new).

Lemma rollup_task_subTasks now task :
  Task.subTasks (rollup_task now task) = Task.subTasks task.
Proof.
  unfold rollup_task. repeat case_decide; reflexivity.
Qed.

Lemma rollup_task_userId now task :
  Task.userId (rollup_task now task) = Task.userId task.
Proof.
  unfold rollup_task. repeat case_decide; reflexivity.
Qed.

Lemma rollup_subTasks_of now tid v tid' :
  subTasks_of (updateOverallTaskStatusBasedOnSubTasks now tid v) tid'
  = subTasks_of v tid'.
Proof.
  unfold updateOverallTaskStatusBasedOnSubTasks, subTasks_of.
  destruct (transferTasks v !! tid) as [task|] eqn:E; [|done]. simpl.
  destruct (decide (tid = tid')) as [->|Hne].
  - by rewrite lookup_insert_eq, E; simpl; rewrite rollup_task_subTasks.
  - by rewrite lookup_insert_ne.
Qed.

Lemma finalize_subTasks_of now tid v tid' :
  subTasks_of (finalizeOverallTaskStatus now tid v) tid' = subTasks_of v tid'.
Proof.
  unfold finalizeOverallTaskStatus.
  destruct (transferTasks v !! tid); [apply rollup_subTasks_of | done].
Qed.

Lemma direct_subTasks_of now tid new v tid' :
  subTasks_of (updateOverallTaskStatus now tid new v) tid' = subTasks_of v tid'.
Proof.
  unfold updateOverallTaskStatus, subTasks_of.
  destruct (transferTasks v !! tid) as [task|] eqn:E; [|done].
  destruct (Task.final _ && _); [done|]. simpl.
  destruct (decide (tid = tid')) as [->|Hne].
  - by rewrite lookup_insert_eq, E.
  - by rewrite lookup_insert_ne.
Qed.

Lemma update_subTask_status now new p m st :
  SubTask.status (update_subTask now new p m st) = new.
Proof.
  unfold update_subTask. destruct p, m; simpl; case_match; reflexivity.
Qed.

Lemma update_subTask_id now new p m st :
  SubTask.subTaskId (update_subTask now new p m st) = SubTask.subTaskId st.
Proof.
  unfold update_subTask. destruct p, m; simpl; case_match; reflexivity.
Qed.

Lemma update_subTask_target now new p m st :
  SubTask.connectionId (update_subTask now new p m st) = SubTask.connectionId st
  ∧ SubTask.sourceItemName (update_subTask now new p m st) = SubTask.sourceItemName st.
Proof.
  unfold update_subTask. destruct p, m; simpl; case_match; auto.
Qed.

(** The end timestamp after the assignments of [updateSubTaskStatus]. *)
Lemma update_subTask_endTime now new p m st :
  SubTask.endTime (update_subTask now new p m st) =
    if SubTask.completed_or_failed new
    then match SubTask.endTime st with Some d => Some d | None => Some now end
    else SubTask.endTime st.
Proof.
  unfold update_subTask.
  destruct p, m, (SubTask.completed_or_failed new), st as [? ? ? ? ? ? ? ? [d|]];
    reflexivity.
Qed.

(** [updateSubTaskStatus] on the list of sub-tasks: the first sub-task with
    the given id is rewritten unless the guard refuses; nothing else moves. *)
Lemma updateSubTaskStatus_subTasks now tid sid new p m v tid' :
  subTasks_of (updateSubTaskStatus now tid sid new p m v) tid' =
    if decide (tid' = tid) then
      match list_find (λ st, SubTask.subTaskId st = sid) (subTasks_of v tid) with
      | Some (i, st) =>
          if blocked (SubTask.status st) new then subTasks_of v tid
          else <[i := update_subTask now new p m st]> (subTasks_of v tid)
      | None => subTasks_of v tid
      end
    else subTasks_of v tid'.
Proof.
  unfold updateSubTaskStatus.
  destruct (transferTasks v !! tid) as [task|] eqn:E.
  - assert (Hs : subTasks_of v tid = Task.subTasks task)
      by (unfold subTasks_of; by rewrite E).
    rewrite Hs.
    destruct (list_find _ (Task.subTasks task)) as [[i st]|] eqn:F.
    + unfold blocked. destruct (_ && _) eqn:G.
      * case_decide; subst; done.
      * rewrite rollup_subTasks_of. unfold subTasks_of at 1. simpl.
        case_decide as Hd.
        -- subst tid'. by rewrite lookup_insert_eq.
        -- rewrite lookup_insert_ne by done. reflexivity.
    + case_decide; subst; done.
  - assert (Hs : subTasks_of v tid = [])
      by (unfold subTasks_of; by rewrite E).
    rewrite Hs. simpl. case_decide; subst; done.
Qed.

Lemma rollup_signals now tid v :
  signals (updateOverallTaskStatusBasedOnSubTasks now tid v) = signals v
  ∧ taskAbortControllers (updateOverallTaskStatusBasedOnSubTasks now tid v)
    = taskAbortControllers v.
Proof.
  unfold updateOverallTaskStatusBasedOnSubTasks.
  destruct (transferTasks v !! tid); done.
Qed.

Lemma direct_signals now tid new v :
  signals (updateOverallTaskStatus now tid new v) = signals v
  ∧ taskAbortControllers (updateOverallTaskStatus now tid new v)
    = taskAbortControllers v.
Proof.
  unfold updateOverallTaskStatus.
  destruct (transferTasks v !! tid); [destruct (_ && _)|]; done.
Qed.

Lemma updateSubTaskStatus_signals now tid sid new p m v :
  signals (updateSubTaskStatus now tid sid new p m v) = signals v
  ∧ taskAbortControllers (updateSubTaskStatus now tid sid new p m v)
    = taskAbortControllers v.
Proof.
  unfold updateSubTaskStatus.
  destruct (transferTasks v !! tid); [|done].
  destruct (list_find _ _) as [[i st]|]; [|done].
  destruct (_ && _); [done|].
  match goal with |- context [updateOverallTaskStatusBasedOnSubTasks _ _ ?w] =>
    destruct (rollup_signals now tid w) as [-> ->] end.
  done.
Qed.

(** ** Sequences of status updates *)

Record UpdateCall := mkCall {
  call_now : Date;
  call_taskId : string;
  call_subTaskId : string;
  call_status : SubTask.Status;
  call_progress : option Z;
  call_message : option string
}.

Definition apply_call (v : Service) (c : UpdateCall) : Service :=
  updateSubTaskStatus (call_now c) (call_taskId c) (call_subTaskId c)
    (call_status c) (call_progress c) (call_message c) v.

Definition apply_calls (cs : list UpdateCall) (v : Service) : Service :=
  foldl apply_call v cs.

(** A property of single sub-tasks that every accepted update establishes
    or keeps holds at each position after [updateSubTaskStatus]. *)
Lemma updateSubTaskStatus_pointwise (P : SubTask.t → Prop) now tid sid new p m v tid' :
  (∀ st, P st → blocked (SubTask.status st) new = false →
         P (update_subTask now new p m st)) →
  Forall P (subTasks_of v tid') →
  Forall P (subTasks_of (updateSubTaskStatus now tid sid new p m v) tid').
Proof.
  intros Hstep Hall. rewrite updateSubTaskStatus_subTasks.
  case_decide as Hd; [subst tid'|done].
  destruct (list_find _ _) as [[i st]|] eqn:F; [|done].
  destruct (blocked _ _) eqn:B; [done|].
  apply list_find_Some in F as (Hi & _ & _).
  apply Forall_insert; [done|].
  apply Hstep; [|done].
  eapply Forall_lookup_1; eauto.
Qed.

(** The same, for one position. *)
Lemma updateSubTaskStatus_at (P : SubTask.t → Prop) now tid sid new p m v tid' i st :
  (∀ x, P x → blocked (SubTask.status x) new = false →
        P (update_subTask now new p m x)) →
  subTasks_of v tid' !! i = Some st → P st →
  ∃ st', subTasks_of (updateSubTaskStatus now tid sid new p m v) tid' !! i = Some st'
         ∧ P st'.
Proof.
  intros Hstep Hi HP. rewrite updateSubTaskStatus_subTasks.
  case_decide as Hd; [subst tid'|by eauto].
  destruct (list_find _ _) as [[j stj]|] eqn:F; [|by eauto].
  destruct (blocked _ _) eqn:B; [by eauto|].
  apply list_find_Some in F as (Hj & _ & _).
  destruct (decide (i = j)) as [->|Hne].
  - rewrite list_lookup_insert_eq by (by eapply lookup_lt_Some).
    eexists; split; [done|]. apply Hstep; congruence.
  - rewrite list_lookup_insert_ne by done. eauto.
Qed.

Definition sticky (st : SubTask.t) : Prop :=
  SubTask.completed_or_failed (SubTask.status st) = true.

Lemma sticky_update now new p m st :
  sticky st → blocked (SubTask.status st) new = false →
  sticky (update_subTask now new p m st).
Proof.
  unfold sticky, blocked. intros -> B. rewrite update_subTask_status.
  simpl in B. by destruct (SubTask.completed_or_failed new).
Qed.

(** The end timestamp is present only on completed or failed sub-tasks. *)
Definition endTime_ok (st : SubTask.t) : Prop :=
  SubTask.endTime st = None ∨ sticky st.

Lemma endTime_ok_update now new p m st :
  endTime_ok st → blocked (SubTask.status st) new = false →
  endTime_ok (update_subTask now new p m st).
Proof.
  unfold endTime_ok, sticky, blocked.
  rewrite update_subTask_endTime, update_subTask_status.
  destruct (SubTask.completed_or_failed new) eqn:N; [by right|].
  intros [H|H] B; [by left|]. rewrite H in B. done.
Qed.

(** C1, as amended: a sub-task that is completed or failed stays completed
    or failed under every sequence of calls of [updateSubTaskStatus]; it is
    never moved to queued, connecting, transferring or cancelled.  (The
    guard of [updateSubTaskStatus] does not cover a cancelled sub-task.) *)
Theorem completed_or_failed_is_sticky cs v taskId i st :
  subTasks_of v taskId !! i = Some st →
  SubTask.completed_or_failed (SubTask.status st) = true →
  ∃ st', subTasks_of (apply_calls cs v) taskId !! i = Some st'
         ∧ SubTask.completed_or_failed (SubTask.status st') = true.
Proof.
  revert v st. induction cs as [|c cs IH]; intros v st Hi Hst; simpl.
  - eauto.
  - destruct (updateSubTaskStatus_at sticky (call_now c) (call_taskId c)
                (call_subTaskId c) (call_status c) (call_progress c)
                (call_message c) v taskId i st) as (st' & Hi' & Hst'); auto.
    + intros. by apply sticky_update.
    + eapply IH; eauto.
Qed.

Definition demo_payload : InitiateTransferPayload :=
  mkPayload 1 [2%Z] [mkSourceItem "a.txt" "/srv/a.txt" file] "/backup" method_auto.

Definition cancelled_service : Service :=
  mkService
    {[ "t" := Task.mk "t" Task.in_progress (UserNum 1) 0 0
                [SubTask.mk "s" 2 "a.txt" SubTask.cancelled None None None (Some 0) None]
                None demo_payload ]}
    ∅ [true].

Lemma completed_or_failed_is_sticky_witness :
  ∃ st', subTasks_of
           (apply_calls [mkCall 1 "t" "s" SubTask.transferring (Some 40%Z) None]
              (apply_calls [mkCall 1 "t" "s" SubTask.failed None None] cancelled_service))
           "t" !! 0 = Some st'
         ∧ SubTask.completed_or_failed (SubTask.status st') = true.
Proof.
  eapply (completed_or_failed_is_sticky _ _ "t" 0); [reflexivity|reflexivity].
Defined.

(** C1 as stated fails: a cancelled sub-task is overwritten with
    [transferring] by a later call. *)
Lemma cancelled_is_overwritten :
  statuses cancelled_service "t" = [SubTask.cancelled]
  ∧ statuses (updateSubTaskStatus 1 "t" "s" SubTask.transferring (Some 40%Z) None
                cancelled_service) "t"
    = [SubTask.transferring].
Proof. split; reflexivity. Qed.

Lemma apply_calls_pointwise (P : SubTask.t → Prop) cs v taskId :
  (∀ now new p m st, P st → blocked (SubTask.status st) new = false →
                     P (update_subTask now new p m st)) →
  Forall P (subTasks_of v taskId) →
  Forall P (subTasks_of (apply_calls cs v) taskId).
Proof.
  intros Hstep. revert v. induction cs as [|c cs IH]; intros v Hall; simpl; [done|].
  apply IH. apply updateSubTaskStatus_pointwise; auto.
Qed.

(** C10: a call of [updateSubTaskStatus] changes the end timestamp of a
    sub-task only when the new status is completed or failed and the
    timestamp was absent; a call with [cancelled] leaves it as it is; and
    when the sub-tasks start without end timestamp (as [initiateNewTransfer]
    creates them), a sub-task that is cancelled after any sequence of calls
    has none. *)
Theorem endTime_rule :
  (∀ now taskId subTaskId new p m v tid i st st',
      subTasks_of v tid !! i = Some st →
      subTasks_of (updateSubTaskStatus now taskId subTaskId new p m v) tid !! i
        = Some st' →
      SubTask.endTime st' ≠ SubTask.endTime st →
      (new = SubTask.completed ∨ new = SubTask.failed)
      ∧ SubTask.endTime st = None ∧ SubTask.endTime st' = Some now)
  ∧ (∀ now taskId subTaskId p m v tid i st st',
      subTasks_of v tid !! i = Some st →
      subTasks_of (updateSubTaskStatus now taskId subTaskId SubTask.cancelled p m v)
        tid !! i = Some st' →
      SubTask.endTime st' = SubTask.endTime st)
  ∧ (∀ cs v tid i st,
      Forall (λ st, SubTask.endTime st = None) (subTasks_of v tid) →
      subTasks_of (apply_calls cs v) tid !! i = Some st →
      SubTask.status st = SubTask.cancelled →
      SubTask.endTime st = None).
Proof.
  assert (Hone : ∀ now taskId subTaskId new p m v tid i st st',
      subTasks_of v tid !! i = Some st →
      subTasks_of (updateSubTaskStatus now taskId subTaskId new p m v) tid !! i
        = Some st' →
      st' = st ∨ st' = update_subTask now new p m st).
  { intros now taskId subTaskId new p m v tid i st st' Hi.
    rewrite updateSubTaskStatus_subTasks.
    case_decide as Hd; [subst tid|intros; left; congruence].
    destruct (list_find _ _) as [[j stj]|] eqn:F; [|intros; left; congruence].
    destruct (blocked _ _); [intros; left; congruence|].
    apply list_find_Some in F as (Hj & _ & _).
    destruct (decide (i = j)) as [->|Hne].
    - rewrite list_lookup_insert_eq by (by eapply lookup_lt_Some).
      intros [= <-]. right. congruence.
    - rewrite list_lookup_insert_ne by done. intros; left; congruence. }
  split; [|split].
  - intros now taskId subTaskId new p m v tid i st st' Hi Hi' Hne.
    destruct (Hone _ _ _ _ _ _ _ _ _ _ _ Hi Hi') as [->| ->]; [done|].
    rewrite update_subTask_endTime in Hne |- *.
    destruct new, (SubTask.endTime st); simpl in *; try done; auto.
  - intros now taskId subTaskId p m v tid i st st' Hi Hi'.
    destruct (Hone _ _ _ _ _ _ _ _ _ _ _ Hi Hi') as [->| ->]; [done|].
    by rewrite update_subTask_endTime.
  - intros cs v tid i st Hall Hi Hst.
    assert (Hok : Forall endTime_ok (subTasks_of (apply_calls cs v) tid)).
    { apply apply_calls_pointwise.
      - intros. by apply endTime_ok_update.
      - eapply Forall_impl; [exact Hall|]. intros x Hx. by left. }
    destruct (Forall_lookup_1 _ _ _ _ Hok Hi) as [H|H]; [done|].
    unfold sticky in H. rewrite Hst in H. done.
Qed.

(** ** The rollup as a function of the multiset of sub-task statuses *)

Definition count_status (x : SubTask.Status) (l : list SubTask.t) : nat :=
  length (filter (λ st, SubTask.status st = x) l).

Lemma count_status_cons x st l :
  count_status x (st :: l) =
    (if decide (SubTask.status st = x) then 1 else 0) + count_status x l.
Proof.
  unfold count_status. rewrite filter_cons. case_decide; reflexivity.
Qed.

Lemma count_subTasks_from c l :
  let r := foldl count_subTask c l in
  completedCount r = completedCount c + count_status SubTask.completed l
  ∧ failedCount r = failedCount c + count_status SubTask.failed l
  ∧ inProgressCount r = inProgressCount c + count_status SubTask.connecting l
                        + count_status SubTask.transferring l
  ∧ queuedCount r = queuedCount c + count_status SubTask.queued l.
Proof.
  revert c. induction l as [|st l IH]; intros c; simpl.
  - unfold count_status; simpl. lia.
  - specialize (IH (count_subTask c st)). simpl in IH.
    rewrite !count_status_cons.
    destruct IH as (-> & -> & -> & ->).
    unfold count_subTask.
    destruct (SubTask.status st); simpl; repeat case_decide; try done; lia.
Qed.

Lemma count_subTasks_counts l :
  completedCount (count_subTasks l) = count_status SubTask.completed l
  ∧ failedCount (count_subTasks l) = count_status SubTask.failed l
  ∧ inProgressCount (count_subTasks l)
    = count_status SubTask.connecting l + count_status SubTask.transferring l
  ∧ queuedCount (count_subTasks l) = count_status SubTask.queued l.
Proof.
  unfold count_subTasks.
  pose proof (count_subTasks_from (mkCounts 0 0 0 0 0%Z) l) as H. simpl in H.
  exact H.
Qed.

(** Every sub-task is in exactly one of the six states. *)
Lemma count_status_total l :
  length l =
    count_status SubTask.queued l + count_status SubTask.connecting l
    + count_status SubTask.transferring l + count_status SubTask.completed l
    + count_status SubTask.failed l + count_status SubTask.cancelled l.
Proof.
  induction l as [|st l IH]; [reflexivity|].
  rewrite !count_status_cons. simpl length. rewrite IH.
  destruct (SubTask.status st); repeat case_decide; try done; lia.
Qed.

(** The rollup in the words of the specification; [otherwise] is the status
    of the last, "otherwise" case. *)
Definition rollup_in_words (otherwise : Task.Status) (l : list SubTask.t) : Task.Status :=
  let n := length l in
  let completed := count_status SubTask.completed l in
  let failed := count_status SubTask.failed l in
  let active := count_status SubTask.connecting l
                + count_status SubTask.transferring l in
  let queued := count_status SubTask.queued l in
  if decide (failed = n) then Task.failed
  else if decide (completed = n) then Task.completed
  else if decide (0 < failed ∧ completed + failed = n) then Task.partially_completed
  else if decide (0 < active ∨ (0 < queued ∧ (0 < failed ∨ 0 < completed)))
       then Task.in_progress
  else if decide (queued = n) then Task.queued
  else otherwise.

Lemma rollup_task_status now task :
  Task.subTasks task ≠ [] →
  Task.status (rollup_task now task) =
    newOverallStatus (count_subTasks (Task.subTasks task))
                     (length (Task.subTasks task)).
Proof.
  intros Hne. unfold rollup_task.
  case_decide as Hn.
  - destruct (Task.subTasks task); [done|discriminate].
  - simpl. case_decide as Hd; simpl; [reflexivity|exact Hd].
Qed.

(** C3, as amended: for a non-empty list of sub-tasks the recomputed status
    is the rollup of the specification with [in-progress] in the last case:
    failed when all failed, completed when all completed,
    partially-completed when some failed and all are completed or failed,
    in-progress when one is connecting or transferring or when queued ones
    coexist with failed or completed ones (a mix of completed and queued is
    such a case), queued when all are queued, and in-progress otherwise; the
    last case is met only when a sub-task is cancelled. *)
Theorem rollup_correct now task :
  Task.subTasks task ≠ [] →
  Task.status (rollup_task now task)
    = rollup_in_words Task.in_progress (Task.subTasks task)
  ∧ (0 < count_status SubTask.completed (Task.subTasks task) →
     0 < count_status SubTask.queued (Task.subTasks task) →
     count_status SubTask.failed (Task.subTasks task) = 0 →
     Task.status (rollup_task now task) = Task.in_progress)
  ∧ (Task.status (rollup_task now task)
       ≠ rollup_in_words Task.queued (Task.subTasks task) →
     0 < count_status SubTask.cancelled (Task.subTasks task)).
Proof.
  intros Hne. rewrite rollup_task_status by done.
  pose proof (count_subTasks_counts (Task.subTasks task)) as (Hc & Hf & Ha & Hq).
  pose proof (count_status_total (Task.subTasks task)) as Ht.
  unfold newOverallStatus, rollup_in_words.
  rewrite Hc, Hf, Ha, Hq.
  assert (0 < length (Task.subTasks task))
    by (destruct (Task.subTasks task); [done|simpl; lia]).
  split; [|split].
  - repeat case_decide; try reflexivity; lia.
  - intros. repeat case_decide; try reflexivity; lia.
  - repeat case_decide; intros; try done; lia.
Qed.

Lemma rollup_correct_witness :
  Task.status
    (rollup_task 1
       (Task.mk "t" Task.queued (UserNum 1) 0 0
          [SubTask.mk "s1" 2 "a.txt" SubTask.completed None None None (Some 0) None;
           SubTask.mk "s2" 2 "b.txt" SubTask.queued None None None (Some 0) None]
          None demo_payload))
  = Task.in_progress.
Proof.
  eapply eq_trans.
  - eapply (proj1 (rollup_correct 1 _ _)).
  - reflexivity.
  Unshelve. discriminate.
Defined.

(** C3 as stated fails in its last case: with every sub-task cancelled (or
    with completed and cancelled ones) the recomputed status is in-progress,
    where the claim has partially-completed. *)
Lemma otherwise_case_is_in_progress :
  let cancelled_only :=
    Task.mk "t" Task.cancelled (UserNum 1) 0 0
      [SubTask.mk "s1" 2 "a.txt" SubTask.cancelled None None None (Some 0) None]
      None demo_payload in
  let completed_and_cancelled :=
    Task.mk "t" Task.cancelled (UserNum 1) 0 0
      [SubTask.mk "s1" 2 "a.txt" SubTask.completed None None None (Some 0) None;
       SubTask.mk "s2" 2 "b.txt" SubTask.cancelled None None None (Some 0) None]
      None demo_payload in
  rollup_in_words Task.partially_completed (Task.subTasks cancelled_only)
    = Task.partially_completed
  ∧ Task.status (rollup_task 1 cancelled_only) = Task.in_progress
  ∧ rollup_in_words Task.partially_completed (Task.subTasks completed_and_cancelled)
    = Task.partially_completed
  ∧ Task.status (rollup_task 1 completed_and_cancelled) = Task.in_progress.
Proof. repeat split; reflexivity. Qed.

(** ** [cancelTransferTask] *)

(** With distinct ids, [find] by the id of the sub-task at position [i]
    returns that sub-task. *)
Lemma list_find_by_id (l : list SubTask.t) i st :
  NoDup (SubTask.subTaskId <$> l) → l !! i = Some st →
  list_find (λ x, SubTask.subTaskId x = SubTask.subTaskId st) l = Some (i, st).
Proof.
  intros Hnd Hi. apply list_find_Some. split; [done|]. split; [done|].
  intros j y Hj Hlt Heq.
  assert (j = i); [|lia].
  eapply NoDup_lookup; [exact Hnd| |].
  - rewrite list_lookup_fmap, Hj. reflexivity.
  - rewrite list_lookup_fmap, Hi. simpl. by rewrite Heq.
Qed.

(** What the [forEach] of [cancelTransferTask] does to one sub-task. *)
Definition cancel_one (now : Date) (st : SubTask.t) : SubTask.t :=
  if SubTask.unfinished (SubTask.status st) then
    update_subTask now SubTask.cancelled (SubTask.progress st)
      (Some "Cancelled due to parent task cancellation.") st
  else st.

Lemma cancel_one_id now st :
  SubTask.subTaskId (cancel_one now st) = SubTask.subTaskId st.
Proof.
  unfold cancel_one. destruct (SubTask.unfinished _); [|done].
  apply update_subTask_id.
Qed.

Lemma cancel_one_status now st :
  SubTask.status (cancel_one now st) =
    if SubTask.unfinished (SubTask.status st) then SubTask.cancelled
    else SubTask.status st.
Proof.
  unfold cancel_one. destruct (SubTask.unfinished _); [|done].
  apply update_subTask_status.
Qed.

Lemma cancel_subTask_at_unfold now tid v i :
  cancel_subTask_at now tid v i =
    match subTasks_of v tid !! i with
    | Some subTask =>
        if SubTask.unfinished (SubTask.status subTask) then
          updateSubTaskStatus now tid (SubTask.subTaskId subTask)
            SubTask.cancelled (SubTask.progress subTask)
            (Some "Cancelled due to parent task cancellation.") v
        else v
    | None => v
    end.
Proof.
  unfold cancel_subTask_at, subTasks_of.
  destruct (transferTasks v !! tid); reflexivity.
Qed.

Lemma cancel_loop_subTasks now tid v k :
  NoDup (SubTask.subTaskId <$> subTasks_of v tid) →
  k ≤ length (subTasks_of v tid) →
  subTasks_of (foldl (cancel_subTask_at now tid) v (seq 0 k)) tid
  = (cancel_one now <$> take k (subTasks_of v tid)) ++ drop k (subTasks_of v tid).
Proof.
  intros Hnd. induction k as [|k IH]; intros Hk.
  - simpl. by rewrite drop_0.
  - rewrite seq_S, foldl_app. simpl.
    set (l := subTasks_of v tid) in *.
    set (vk := foldl (cancel_subTask_at now tid) v (seq 0 k)) in *.
    specialize (IH ltac:(lia)).
    destruct (lookup_lt_is_Some_2 l k ltac:(lia)) as [st Hst].
    assert (Hlen : length (cancel_one now <$> take k l) = k)
      by (rewrite length_fmap, length_take; lia).
    assert (Hk' : subTasks_of vk tid !! k = Some st).
    { rewrite IH, lookup_app_r by lia. rewrite Hlen, Nat.sub_diag.
      rewrite lookup_drop, Nat.add_0_r. done. }
    assert (Hgoal : (cancel_one now <$> take (S k) l) ++ drop (S k) l
                    = <[k := cancel_one now st]> (subTasks_of vk tid)).
    { rewrite IH. rewrite insert_app_r_alt by lia.
      rewrite Hlen, Nat.sub_diag.
      rewrite (take_S_r _ _ _ Hst), fmap_app, <- app_assoc. simpl.
      rewrite (drop_S _ _ _ Hst). reflexivity. }
    rewrite Hgoal, cancel_subTask_at_unfold, Hk'.
    unfold cancel_one.
    destruct (SubTask.unfinished (SubTask.status st)) eqn:U.
    + rewrite updateSubTaskStatus_subTasks, decide_True by done.
      rewrite (list_find_by_id _ k st); [| |done].
      * unfold blocked. destruct (SubTask.status st); try done.
      * rewrite IH, fmap_app, <- list_fmap_compose.
        erewrite (list_fmap_ext (SubTask.subTaskId ∘ cancel_one now));
          [|intros; apply cancel_one_id].
        rewrite <- fmap_app, take_drop. done.
    + by rewrite list_insert_id.
Qed.

Lemma cancel_loop_signals now tid v l :
  signals (foldl (cancel_subTask_at now tid) v l) = signals v
  ∧ taskAbortControllers (foldl (cancel_subTask_at now tid) v l)
    = taskAbortControllers v.
Proof.
  revert v. induction l as [|i l IH]; intros v; simpl; [done|].
  destruct (IH (cancel_subTask_at now tid v i)) as [-> ->].
  rewrite cancel_subTask_at_unfold.
  destruct (subTasks_of v tid !! i) as [st|]; [|done].
  destruct (SubTask.unfinished _); [|done].
  apply updateSubTaskStatus_signals.
Qed.

Lemma cancel_loop_idle now tid v l :
  Forall (λ st, SubTask.unfinished (SubTask.status st) = false) (subTasks_of v tid) →
  foldl (cancel_subTask_at now tid) v l = v.
Proof.
  intros Hall. induction l as [|i l IH]; simpl; [done|].
  rewrite cancel_subTask_at_unfold.
  destruct (subTasks_of v tid !! i) as [st|] eqn:E; [|done].
  rewrite (Forall_lookup_1 _ _ _ _ Hall E). done.
Qed.

(** The state of the service between [abort()] and the [forEach]. *)
Definition cancel_prefix (now : Date) (taskId : string) (sig : nat)
    (task : Task.t) (v : Service) : Service :=
  match Task.status task with
  | Task.completed | Task.failed | Task.cancelled => abort sig v
  | _ => updateOverallTaskStatus now taskId Task.cancelling (abort sig v)
  end.

Lemma cancel_prefix_subTasks now tid sig task v tid' :
  subTasks_of (cancel_prefix now tid sig task v) tid' = subTasks_of v tid'.
Proof.
  unfold cancel_prefix.
  destruct (Task.status task); try reflexivity; by rewrite direct_subTasks_of.
Qed.

Lemma cancel_prefix_signals now tid sig task v :
  signals (cancel_prefix now tid sig task v) = <[sig := true]> (signals v)
  ∧ taskAbortControllers (cancel_prefix now tid sig task v)
    = taskAbortControllers v.
Proof.
  unfold cancel_prefix.
  destruct (Task.status task); try done;
    destruct (direct_signals now tid Task.cancelling (abort sig v)) as [-> ->];
    done.
Qed.

Lemma cancelTransferTask_unfold now tid uid v :
  cancelTransferTask now tid uid v =
    match transferTasks v !! tid with
    | None => (false, v)
    | Some task =>
        if decide (Task.userId task ≠ uid) then (false, v)
        else
          match taskAbortControllers v !! tid with
          | None => (false, v)
          | Some sig =>
              (true,
               foldl (cancel_subTask_at now tid) (cancel_prefix now tid sig task v)
                     (seq 0 (length (Task.subTasks task))))
          end
    end.
Proof. reflexivity. Qed.

(** C6, as amended: [cancelTransferTask] returns false exactly when the
    task is unknown, is not owned by the caller, or has no registered
    [AbortController] (which [processTransferTask] removes when it ends),
    and then changes nothing.  Otherwise it returns true, the task's signal
    is aborted, every sub-task that is not completed, failed or cancelled
    becomes cancelled and the others keep their status; when no sub-task
    was left to cancel, a task that is queued, in progress or cancelling is
    left in [cancelling] and a completed, failed or cancelled one keeps its
    status. *)
Theorem cancel_contract now taskId userId v :
  NoDup (SubTask.subTaskId <$> subTasks_of v taskId) →
  let r := cancelTransferTask now taskId userId v in
  (r.1 = false ↔
     transferTasks v !! taskId = None
     ∨ (∃ task, transferTasks v !! taskId = Some task ∧ Task.userId task ≠ userId)
     ∨ taskAbortControllers v !! taskId = None)
  ∧ (r.1 = false → r.2 = v)
  ∧ (r.1 = true →
     ∃ sig,
       taskAbortControllers v !! taskId = Some sig
       ∧ signals r.2 = <[sig := true]> (signals v)
       ∧ statuses r.2 taskId
         = (λ x, if SubTask.unfinished x then SubTask.cancelled else x)
             <$> statuses v taskId
       ∧ (Forall (λ x, SubTask.unfinished x = false) (statuses v taskId) →
          ∀ x, status_of v taskId = Some x →
               (x ∈ [Task.queued; Task.in_progress; Task.cancelling] →
                status_of r.2 taskId = Some Task.cancelling)
               ∧ (x ∈ [Task.completed; Task.failed; Task.cancelled] →
                  status_of r.2 taskId = Some x))).
Proof.
  intros Hnd r. subst r. rewrite cancelTransferTask_unfold.
  destruct (transferTasks v !! taskId) as [task|] eqn:E; simpl.
  2: { split; [naive_solver|]. split; [done|discriminate]. }
  destruct (decide (Task.userId task ≠ userId)) as [Hu|Hu]; simpl.
  { split; [|split; [done|discriminate]].
    split; [|done]. intros _. right; left. eauto. }
  destruct (taskAbortControllers v !! taskId) as [sig|] eqn:C; simpl.
  2: { split; [naive_solver|]. split; [done|discriminate]. }
  assert (Hs : subTasks_of v taskId = Task.subTasks task)
    by (unfold subTasks_of; by rewrite E).
  split; [|split; [discriminate|]].
  { split; [discriminate|]. intros [?|[(t' & Ht' & Hne)|?]]; try done.
    simplify_eq. contradiction. }
  intros _. exists sig. split; [done|].
  set (v2 := cancel_prefix now taskId sig task v).
  destruct (cancel_loop_signals now taskId v2 (seq 0 (length (Task.subTasks task))))
    as [Hsig _].
  split; [rewrite Hsig; apply cancel_prefix_signals|].
  split.
  - unfold statuses. rewrite <- Hs.
    rewrite <- (cancel_prefix_subTasks now taskId sig task v taskId) at 1.
    fold v2. rewrite cancel_loop_subTasks.
    + rewrite firstn_all, drop_all, app_nil_r.
      unfold v2. rewrite cancel_prefix_subTasks.
      rewrite <- !list_fmap_compose. apply list_fmap_ext.
      intros ? st _. simpl. apply cancel_one_status.
    + unfold v2. by rewrite cancel_prefix_subTasks.
    + done.
  - intros Hall x Hx.
    rewrite cancel_loop_idle.
    2: { unfold v2. rewrite cancel_prefix_subTasks.
         unfold statuses in Hall. by apply Forall_fmap in Hall. }
    unfold status_of in Hx. rewrite E in Hx. simpl in Hx. injection Hx as <-.
    unfold v2, cancel_prefix, status_of, updateOverallTaskStatus. simpl.
    rewrite E.
    split; intros Hin; apply list_elem_of_In in Hin; simpl in Hin;
      destruct (Task.status task) eqn:St;
      try (exfalso; intuition discriminate);
      simpl; rewrite ?E; simpl; rewrite ?lookup_insert_eq; simpl; congruence.
Qed.

(** ** How a sub-task list changes over time

    Every operation of the service rewrites the list of sub-tasks of a
    task only by accepted status updates of single elements and by
    recording the transfer method. *)

Inductive rewrite1 : list SubTask.t → list SubTask.t → Prop :=
| rw_update l i st now new p m :
    l !! i = Some st → blocked (SubTask.status st) new = false →
    rewrite1 l (<[i := update_subTask now new p m st]> l)
| rw_method l i st u :
    l !! i = Some st →
    rewrite1 l (<[i := SubTask.set_transferMethodUsed u st]> l).

Definition evolves : list SubTask.t → list SubTask.t → Prop := rtc rewrite1.

(** What is fixed at creation: the ids and the (target, item) pairs. *)
Definition identity (st : SubTask.t) : string * Z * string :=
  (SubTask.subTaskId st, SubTask.connectionId st, SubTask.sourceItemName st).

Lemma rewrite1_identity l l' :
  rewrite1 l l' → identity <$> l' = identity <$> l.
Proof.
  destruct 1 as [l i st now new p m Hi _|l i st u Hi];
    rewrite list_fmap_insert; apply list_insert_id;
    rewrite list_lookup_fmap, Hi; simpl; f_equal; unfold identity; simpl;
    try reflexivity.
  rewrite update_subTask_id.
  by destruct (update_subTask_target now new p m st) as [-> ->].
Qed.

Lemma evolves_identity l l' :
  evolves l l' → identity <$> l' = identity <$> l.
Proof.
  induction 1 as [|l1 l2 l3 H _ IH]; [done|].
  rewrite IH. by apply rewrite1_identity.
Qed.

Lemma evolves_length l l' : evolves l l' → length l' = length l.
Proof.
  intros H. apply evolves_identity in H.
  by rewrite <- (length_fmap identity l'), H, length_fmap.
Qed.

Lemma evolves_ids l l' :
  evolves l l' → SubTask.subTaskId <$> l' = SubTask.subTaskId <$> l.
Proof.
  intros H. apply evolves_identity in H.
  assert (E : ∀ k : list SubTask.t,
            SubTask.subTaskId <$> k = (λ x, x.1.1) <$> (identity <$> k)).
  { intros k. rewrite <- list_fmap_compose. reflexivity. }
  by rewrite !E, H.
Qed.

Lemma evolves_endTime_ok l l' :
  evolves l l' → Forall endTime_ok l → Forall endTime_ok l'.
Proof.
  induction 1 as [|l1 l2 l3 H _ IH]; [done|]. intros Hall. apply IH.
  destruct H as [l i st now new p m Hi Hb|l i st u Hi];
    (apply Forall_insert; [done|]);
    pose proof (Forall_lookup_1 _ _ _ _ Hall Hi) as Hst.
  - by apply endTime_ok_update.
  - exact Hst.
Qed.

Lemma evolves_step l l1 l2 : evolves l l1 → rewrite1 l1 l2 → evolves l l2.
Proof. intros. eapply rtc_r; eauto. Qed.

Lemma updateSubTaskStatus_evolves l now tid sid new p m v tid' :
  evolves l (subTasks_of v tid') →
  evolves l (subTasks_of (updateSubTaskStatus now tid sid new p m v) tid').
Proof.
  intros H. rewrite updateSubTaskStatus_subTasks.
  case_decide as Hd; [subst tid'|done].
  destruct (list_find _ _) as [[i st]|] eqn:F; [|done].
  destruct (blocked _ _) eqn:B; [done|].
  apply list_find_Some in F as (Hi & _ & _).
  eapply evolves_step; [exact H|]. by constructor.
Qed.

Lemma cancel_loop_evolves l now tid v is_ tid' :
  evolves l (subTasks_of v tid') →
  evolves l (subTasks_of (foldl (cancel_subTask_at now tid) v is_) tid').
Proof.
  revert v. induction is_ as [|i is_ IH]; intros v H; simpl; [done|].
  apply IH. rewrite cancel_subTask_at_unfold.
  destruct (subTasks_of v tid !! i) as [st|]; [|done].
  destruct (SubTask.unfinished _); [|done].
  by apply updateSubTaskStatus_evolves.
Qed.

Lemma cancelTransferTask_evolves l now tid uid v tid' :
  evolves l (subTasks_of v tid') →
  evolves l (subTasks_of (cancelTransferTask now tid uid v).2 tid').
Proof.
  intros H. rewrite cancelTransferTask_unfold.
  destruct (transferTasks v !! tid) as [task|]; [|done].
  case_decide; [done|].
  destruct (taskAbortControllers v !! tid) as [sig|]; [|done]. simpl.
  apply cancel_loop_evolves. by rewrite cancel_prefix_subTasks.
Qed.

(** ** Facts about the transition system *)

(** The operations through which the transition system touches the
    service. *)
Inductive svc_op : Service → Service → Prop :=
| op_subTask now tid sid new p m v :
    svc_op v (updateSubTaskStatus now tid sid new p m v)
| op_task now tid new v :
    svc_op v (updateOverallTaskStatus now tid new v)
| op_finalize now tid v :
    svc_op v (finalizeOverallTaskStatus now tid v)
| op_abort sig v :
    svc_op v (abort sig v)
| op_method tid task j st u v :
    transferTasks v !! tid = Some task →
    Task.subTasks task !! j = Some st →
    svc_op v
      (set_transferTasks
         (<[tid := Task.set_subTasks
                     (<[j := SubTask.set_transferMethodUsed u st]>
                        (Task.subTasks task)) task]> (transferTasks v)) v)
| op_forget tid v :
    svc_op v (set_taskAbortControllers (delete tid (taskAbortControllers v)) v).

Definition reach : Service → Service → Prop := rtc svc_op.

Lemma reach_step v0 v1 v2 : reach v0 v1 → svc_op v1 v2 → reach v0 v2.
Proof. intros. eapply rtc_r; eauto. Qed.

Lemma reach_cancel_loop v0 now tid v is_ :
  reach v0 v → reach v0 (foldl (cancel_subTask_at now tid) v is_).
Proof.
  revert v. induction is_ as [|i is_ IH]; intros v H; simpl; [done|].
  apply IH. rewrite cancel_subTask_at_unfold.
  destruct (subTasks_of v tid !! i) as [st|]; [|done].
  destruct (SubTask.unfinished _); [|done].
  eapply reach_step; [exact H|constructor].
Qed.

Lemma reach_cancel v0 now tid uid v :
  reach v0 v → reach v0 (cancelTransferTask now tid uid v).2.
Proof.
  intros H. rewrite cancelTransferTask_unfold.
  destruct (transferTasks v !! tid) as [task|]; [|done].
  case_decide; [done|].
  destruct (taskAbortControllers v !! tid) as [sig|]; [|done]. simpl.
  apply reach_cancel_loop. unfold cancel_prefix.
  assert (reach v0 (abort sig v)) by (eapply reach_step; [exact H|constructor]).
  destruct (Task.status task); try done;
    (eapply reach_step; [eassumption|constructor]).
Qed.

(** The operations rewrite each sub-task list by accepted updates, never
    remove a task, and never reset a signal. *)
Lemma svc_op_evolves v v' tid :
  svc_op v v' → evolves (subTasks_of v tid) (subTasks_of v' tid).
Proof.
  destruct 1 as [now t sid new p m v|now t new v|now t v|sig v
                |t task j st u v Ht Hj|t v].
  - by apply updateSubTaskStatus_evolves.
  - by rewrite direct_subTasks_of.
  - by rewrite finalize_subTasks_of.
  - done.
  - unfold subTasks_of at 2. simpl.
    destruct (decide (t = tid)) as [->|Hne].
    + rewrite lookup_insert_eq. simpl.
      assert (Hs : subTasks_of v tid = Task.subTasks task)
        by (unfold subTasks_of; by rewrite Ht).
      rewrite Hs. apply rtc_once. by constructor.
    + rewrite lookup_insert_ne by done. done.
  - done.
Qed.

Lemma reach_evolves v v' tid :
  reach v v' → evolves (subTasks_of v tid) (subTasks_of v' tid).
Proof.
  induction 1 as [|v1 v2 v3 H _ IH]; [done|].
  etrans; [|exact IH]. by apply svc_op_evolves.
Qed.

(** What an operation keeps of the task itself. *)
Definition task_frame (task : Task.t) : string * UserId * InitiateTransferPayload :=
  (Task.taskId task, Task.userId task, Task.payload task).

Lemma rollup_task_frame now task : task_frame (rollup_task now task) = task_frame task.
Proof. unfold rollup_task. repeat case_decide; reflexivity. Qed.

Lemma svc_op_task_frame v v' tid :
  svc_op v v' →
  task_frame <$> transferTasks v' !! tid = task_frame <$> transferTasks v !! tid.
Proof.
  destruct 1 as [now t sid new p m v|now t new v|now t v|sig v
                |t task j st u v Ht Hj|t v]; try done.
  - unfold updateSubTaskStatus.
    destruct (transferTasks v !! t) as [task|] eqn:E; [|done].
    destruct (list_find _ _) as [[i st]|]; [|done].
    destruct (_ && _); [done|].
    unfold updateOverallTaskStatusBasedOnSubTasks. simpl.
    rewrite lookup_insert_eq. simpl.
    destruct (decide (t = tid)) as [->|Hne].
    + rewrite !lookup_insert_eq, E. simpl. by rewrite rollup_task_frame.
    + by rewrite !lookup_insert_ne.
  - unfold updateOverallTaskStatus.
    destruct (transferTasks v !! t) as [task|] eqn:E; [|done].
    destruct (_ && _); [done|]. simpl.
    destruct (decide (t = tid)) as [->|Hne].
    + by rewrite lookup_insert_eq, E.
    + by rewrite lookup_insert_ne.
  - unfold finalizeOverallTaskStatus, updateOverallTaskStatusBasedOnSubTasks.
    destruct (transferTasks v !! t) as [task|] eqn:E; [|done]. simpl.
    destruct (decide (t = tid)) as [->|Hne].
    + rewrite lookup_insert_eq, E. simpl. by rewrite rollup_task_frame.
    + by rewrite lookup_insert_ne.
  - simpl. destruct (decide (t = tid)) as [->|Hne].
    + by rewrite lookup_insert_eq, Ht.
    + by rewrite lookup_insert_ne.
Qed.

Lemma reach_task_frame v v' tid :
  reach v v' →
  task_frame <$> transferTasks v' !! tid = task_frame <$> transferTasks v !! tid.
Proof.
  induction 1 as [|v1 v2 v3 H _ IH]; [done|].
  rewrite IH. by apply svc_op_task_frame.
Qed.

Lemma svc_op_signals v v' sig :
  svc_op v v' →
  length (signals v') = length (signals v)
  ∧ (aborted sig v = true → aborted sig v' = true).
Proof.
  destruct 1 as [now t sid new p m v|now t new v|now t v|sig' v
                |t task j st u v Ht Hj|t v]; try done.
  - by destruct (updateSubTaskStatus_signals now t sid new p m v) as [? _];
      unfold aborted; rewrite H.
  - by destruct (direct_signals now t new v) as [? _]; unfold aborted; rewrite H.
  - unfold finalizeOverallTaskStatus.
    destruct (transferTasks v !! t); [|done].
    by destruct (rollup_signals now t v) as [? _]; unfold aborted; rewrite H.
  - unfold abort, aborted. simpl. rewrite length_insert. split; [done|].
    destruct (decide (sig' = sig)) as [->|Hne].
    + destruct (signals v !! sig) eqn:E; [|done].
      rewrite list_lookup_insert_eq by (by eapply lookup_lt_Some). done.
    + by rewrite list_lookup_insert_ne.
Qed.

Lemma reach_signals v v' sig :
  reach v v' →
  length (signals v') = length (signals v)
  ∧ (aborted sig v = true → aborted sig v' = true).
Proof.
  induction 1 as [|v1 v2 v3 H _ IH]; [done|].
  destruct (svc_op_signals _ _ sig H) as [? ?]. destruct IH as [? ?].
  split; [congruence|auto].
Qed.

Ltac frame_simpl :=
  cbn [svc log phase sourceSshClient sched wrappers commands
       with_svc add_log set_phase set_sourceSshClient with_sched
       with_wrappers with_commands set_wrapper
       resolveAllTasksCompleted rejectAllTasksCompleted removeOnAbortOverall] in *.

Section ProcessingFacts.

Variable taskId : string.
Variable signal : nat.

Abbreviation subs s := (subTasks_of (svc s) taskId).

Lemma subTask_at_subs s i : subTask_at taskId s i = subs s !! i.
Proof.
  unfold subTask_at, the_task, subTasks_of.
  destruct (transferTasks (svc s) !! taskId); reflexivity.
Qed.

Lemma rch_update v0 now i new p m s :
  reach v0 (svc s) → reach v0 (svc (update taskId now i new p m s)).
Proof.
  intros H. unfold update. destruct (subTask_at taskId s i); [|done].
  frame_simpl. eapply reach_step; [exact H|constructor].
Qed.

Lemma rch_method v0 i u s :
  reach v0 (svc s) → reach v0 (svc (set_method_used taskId i u s)).
Proof.
  intros H. unfold set_method_used.
  destruct (subTask_at taskId s i) as [st|]; [|done].
  destruct (the_task taskId s) as [task|] eqn:E; [|done].
  destruct (list_find _ _) as [[j stj]|] eqn:F; [|done].
  apply list_find_Some in F as (Hj & _ & _).
  frame_simpl. eapply reach_step; [exact H|]. by constructor.
Qed.

Ltac rch_head :=
  lazymatch goal with
  | |- reach _ (svc (update _ _ _ _ _ _ _)) => apply rch_update
  | |- reach _ (svc (set_method_used _ _ _ _)) => apply rch_method
  | |- reach _ (updateOverallTaskStatus _ _ _ _) =>
      eapply reach_step; [|apply op_task]
  | |- reach _ (finalizeOverallTaskStatus _ _ _) =>
      eapply reach_step; [|apply op_finalize]
  | |- reach _ (set_taskAbortControllers (delete _ _) _) =>
      eapply reach_step; [|apply op_forget]
  | |- reach _ (cancelTransferTask _ _ _ _).2 => apply reach_cancel
  end.

Ltac rch := repeat first [ assumption | rch_head | progress frame_simpl ].

Lemma rch_wrapper_catch v0 now i e s :
  reach v0 (svc s) → reach v0 (svc (wrapper_catch taskId now i e s)).
Proof. intros H. unfold wrapper_catch. repeat case_match; rch. Qed.

Lemma rch_exec_finally v0 now i tp pending s :
  reach v0 (svc s) → reach v0 (svc (exec_finally taskId now i tp pending s)).
Proof.
  intros H. unfold exec_finally. repeat case_match; rch.
  by apply rch_wrapper_catch.
Qed.

Lemma rch_exec_throw v0 now i e tp s :
  reach v0 (svc s) → reach v0 (svc (exec_throw taskId now i e tp s)).
Proof.
  intros H. unfold exec_throw. apply rch_exec_finally.
  repeat case_match; rch.
Qed.

Lemma rch_start_wrapper v0 now i s :
  reach v0 (svc s) → reach v0 (svc (start_wrapper taskId signal now i s)).
Proof. intros H. unfold start_wrapper. repeat case_match; rch. Qed.

Lemma rch_launch_loop v0 now fuel s :
  reach v0 (svc s) → reach v0 (svc (launch_loop taskId signal now fuel s)).
Proof.
  revert s. induction fuel as [|fuel IH]; intros s H; simpl; [done|].
  repeat case_match; try done; apply IH; rch.
  by apply rch_start_wrapper.
Qed.

Lemma rch_launchNext v0 now s :
  reach v0 (svc s) →
  reach v0 (svc (launchNextSubTaskIfPossible taskId signal now s)).
Proof.
  intros H. unfold launchNextSubTaskIfPossible.
  repeat case_match; rch; by apply rch_launch_loop.
Qed.

Lemma rch_wrapper_finally v0 now i s :
  reach v0 (svc s) → reach v0 (svc (wrapper_finally taskId signal now i s)).
Proof.
  intros H. unfold wrapper_finally.
  repeat case_match; rch. by apply rch_launchNext.
Qed.

Lemma rch_cancel_before v0 now is_ s :
  reach v0 (svc s) →
  reach v0 (svc (foldl (cancel_before_execution taskId now) s is_)).
Proof.
  revert s. induction is_ as [|i is_ IH]; intros s H; simpl; [done|].
  apply IH. unfold cancel_before_execution. repeat case_match; rch.
Qed.

Lemma rch_start_scheduler v0 now s :
  reach v0 (svc s) → reach v0 (svc (start_scheduler taskId signal now s)).
Proof.
  intros H. unfold start_scheduler.
  repeat case_match; rch.
  - by apply rch_cancel_before.
  - by apply rch_launchNext.
Qed.

Lemma rch_finish_processing v0 now e s :
  reach v0 (svc s) → reach v0 (svc (finish_processing taskId now e s)).
Proof.
  intros H. unfold finish_processing. cbv zeta. frame_simpl.
  eapply reach_step; [|apply op_forget].
  eapply reach_step; [|apply op_finalize].
  destruct (sourceSshClient _); repeat case_match; rch.
Qed.

Lemma rch_cancel_event v0 now uid s :
  reach v0 (svc s) → reach v0 (svc (cancel_event taskId signal now uid s)).
Proof.
  intros H. unfold cancel_event.
  repeat case_match; rch.
Qed.

Lemma rch_run_command v0 now i tool tp pty s :
  reach v0 (svc s) → reach v0 (svc (run_command taskId now i tool tp pty s)).
Proof. intros H. unfold run_command. rch. Qed.

Lemma rch_after_tool v0 now i tc sp tool s :
  reach v0 (svc s) → reach v0 (svc (after_tool taskId now i tc sp tool s)).
Proof. intros H. unfold after_tool. rch. Qed.

Lemma rch_choose_scp v0 now i tc sp sc s :
  reach v0 (svc s) → reach v0 (svc (choose_scp taskId now i tc sp sc s)).
Proof.
  intros H. unfold choose_scp.
  case_match; [by apply rch_after_tool|by apply rch_exec_throw].
Qed.

Ltac rch_call :=
  lazymatch goal with
  | |- reach _ (svc (cancel_event _ _ _ _ _)) => apply rch_cancel_event
  | |- reach _ (svc (finish_processing _ _ _ _)) => apply rch_finish_processing
  | |- reach _ (svc (start_scheduler _ _ _ _)) => apply rch_start_scheduler
  | |- reach _ (svc (wrapper_catch _ _ _ _ _)) => apply rch_wrapper_catch
  | |- reach _ (svc (exec_throw _ _ _ _ _ _)) => apply rch_exec_throw
  | |- reach _ (svc (exec_finally _ _ _ _ _ _)) => apply rch_exec_finally
  | |- reach _ (svc (wrapper_finally _ _ _ _ _)) => apply rch_wrapper_finally
  | |- reach _ (svc (run_command _ _ _ _ _ _ _)) => apply rch_run_command
  | |- reach _ (svc (after_tool _ _ _ _ _ _ _)) => apply rch_after_tool
  | |- reach _ (svc (choose_scp _ _ _ _ _ _ _)) => apply rch_choose_scp
  end.

Ltac rch' := repeat first [ assumption | rch_call | rch_head | progress frame_simpl ].

Lemma rch_select_tool v0 now i tc sp rs sc s :
  reach v0 (svc s) → reach v0 (svc (select_tool taskId now i tc sp rs sc s)).
Proof. intros H. unfold select_tool. repeat case_match; rch'. Qed.

Lemma rch_after_target_probe v0 now i tc sp sc rt s :
  reach v0 (svc s) →
  reach v0 (svc (after_target_probe taskId now i tc sp sc rt s)).
Proof. intros H. unfold after_target_probe. repeat case_match; rch'. Qed.

Lemma rch_broker_credentials v0 now i tc sp tool rand s :
  reach v0 (svc s) →
  reach v0 (svc (broker_credentials taskId now i tc sp tool rand s)).
Proof. intros H. unfold broker_credentials. repeat case_match; rch'. Qed.

Lemma rch_after_upload v0 now i tc sp tool p s :
  reach v0 (svc s) →
  reach v0 (svc (after_upload taskId signal now i tc sp tool p s)).
Proof. intros H. unfold after_upload. repeat case_match; rch'. Qed.

Lemma rch_enter_execute v0 now i tc s :
  reach v0 (svc s) → reach v0 (svc (enter_execute taskId now i tc s)).
Proof. intros H. unfold enter_execute. rch. Qed.

Ltac rch_call2 :=
  lazymatch goal with
  | |- reach _ (svc (select_tool _ _ _ _ _ _ _ _)) => apply rch_select_tool
  | |- reach _ (svc (after_target_probe _ _ _ _ _ _ _ _)) =>
      apply rch_after_target_probe
  | |- reach _ (svc (broker_credentials _ _ _ _ _ _ _ _)) =>
      apply rch_broker_credentials
  | |- reach _ (svc (after_upload _ _ _ _ _ _ _ _ _)) => apply rch_after_upload
  | |- reach _ (svc (enter_execute _ _ _ _ _)) => apply rch_enter_execute
  end.

(** Every event acts on the service through the operations above. *)
Lemma step_reach v0 now ev s s' :
  step taskId signal now ev s = Some s' →
  reach v0 (svc s) → reach v0 (svc s').
Proof.
  intros Hstep H. unfold step in Hstep.
  repeat case_match; simplify_eq;
    repeat first [ assumption | rch_call2 | rch_call | rch_head
                 | progress frame_simpl ].
Qed.

Lemma run_reach v0 es s s' :
  run taskId signal es s = Some s' →
  reach v0 (svc s) → reach v0 (svc s').
Proof.
  revert s. induction es as [|[now ev] es IH]; intros s Hrun H; simpl in Hrun.
  - by simplify_eq.
  - destruct (step taskId signal now ev s) as [s1|] eqn:E; [|done].
    eapply IH; [exact Hrun|]. by eapply step_reach.
Qed.

End ProcessingFacts.

(** ** Expansion of a request *)

(** The (target, item) pair a sub-task stands for. *)
Definition target_and_item (st : SubTask.t) : Z * string :=
  (SubTask.connectionId st, SubTask.sourceItemName st).

(** The cross product of the request, in the order of the nested loops. *)
Definition pairs_of (payload : InitiateTransferPayload) : list (Z * string) :=
  c ← connectionIds payload; (λ it, (c, item_name it)) <$> sourceItems payload.

Lemma length_pairs_of payload :
  length (pairs_of payload)
  = length (connectionIds payload) * length (sourceItems payload).
Proof.
  unfold pairs_of. induction (connectionIds payload) as [|c cs IH]; [done|].
  rewrite bind_cons, length_app, length_fmap, IH. simpl. lia.
Qed.

Lemma inner_loop_spec uuid now c items acc :
  let r := foldl (push_subTask uuid now c) acc items in
  target_and_item <$> r
    = (target_and_item <$> acc) ++ ((λ it, (c, item_name it)) <$> items)
  ∧ SubTask.subTaskId <$> r
    = (SubTask.subTaskId <$> acc)
        ++ (uuid <$> seq (S (length acc)) (length items))
  ∧ (Forall (λ st, SubTask.status st = SubTask.queued ∧ SubTask.endTime st = None)
            acc →
     Forall (λ st, SubTask.status st = SubTask.queued ∧ SubTask.endTime st = None)
            r).
Proof.
  revert acc. induction items as [|it items IH]; intros acc r; subst r.
  - simpl. rewrite !app_nil_r. auto.
  - change (foldl (push_subTask uuid now c) acc (it :: items))
      with (foldl (push_subTask uuid now c) (push_subTask uuid now c acc it) items).
    destruct (IH (push_subTask uuid now c acc it)) as (H1 & H2 & H3).
    assert (Ht : target_and_item <$> push_subTask uuid now c acc it
                 = (target_and_item <$> acc) ++ [(c, item_name it)])
      by (unfold push_subTask; by rewrite fmap_app).
    assert (Hi : SubTask.subTaskId <$> push_subTask uuid now c acc it
                 = (SubTask.subTaskId <$> acc) ++ [uuid (S (length acc))])
      by (unfold push_subTask; by rewrite fmap_app).
    assert (Hl : length (push_subTask uuid now c acc it) = S (length acc))
      by (unfold push_subTask; rewrite length_app; simpl; lia).
    rewrite H1, H2, Ht, Hi, Hl, <- !app_assoc.
    split; [done|]. split; [done|].
    intros Hacc. apply H3. unfold push_subTask.
    apply Forall_app. split; [done|]. by repeat constructor.
Qed.

Lemma outer_loop_spec uuid now items cs acc :
  let r := foldl (λ subTasks c, foldl (push_subTask uuid now c) subTasks items)
                 acc cs in
  target_and_item <$> r
    = (target_and_item <$> acc) ++ (c ← cs; (λ it, (c, item_name it)) <$> items)
  ∧ SubTask.subTaskId <$> r
    = (SubTask.subTaskId <$> acc)
        ++ (uuid <$> seq (S (length acc)) (length cs * length items))
  ∧ (Forall (λ st, SubTask.status st = SubTask.queued ∧ SubTask.endTime st = None)
            acc →
     Forall (λ st, SubTask.status st = SubTask.queued ∧ SubTask.endTime st = None)
            r).
Proof.
  revert acc. induction cs as [|c cs IH]; intros acc r; subst r.
  - simpl. rewrite !app_nil_r. auto.
  - set (f := λ subTasks c, foldl (push_subTask uuid now c) subTasks items).
    change (foldl f acc (c :: cs)) with (foldl f (f acc c) cs).
    destruct (IH (f acc c)) as (H1 & H2 & H3). fold f in H1, H2, H3.
    destruct (inner_loop_spec uuid now c items acc) as (I1 & I2 & I3).
    fold (f acc c) in I1, I2, I3.
    assert (Hlen : length (f acc c) = length acc + length items).
    { rewrite <- (length_fmap SubTask.subTaskId), I2, length_app, !length_fmap.
      by rewrite length_seq. }
    rewrite H1, H2, I1, I2, Hlen, <- !app_assoc, bind_cons.
    split; [done|]. split.
    + f_equal. rewrite <- fmap_app. f_equal.
      change (S (length acc + length items)) with (S (length acc) + length items).
      rewrite <- seq_app. reflexivity.
    + auto.
Qed.

Lemma new_subTasks_spec uuid now payload :
  target_and_item <$> new_subTasks uuid now payload = pairs_of payload
  ∧ SubTask.subTaskId <$> new_subTasks uuid now payload
    = uuid <$> seq 1 (length (connectionIds payload) * length (sourceItems payload))
  ∧ Forall (λ st, SubTask.status st = SubTask.queued ∧ SubTask.endTime st = None)
           (new_subTasks uuid now payload).
Proof.
  destruct (outer_loop_spec uuid now (sourceItems payload)
              (connectionIds payload) []) as (H1 & H2 & H3).
  simpl in *. unfold new_subTasks, pairs_of. auto.
Qed.

(** The state in which [initiateNewTransfer] leaves the service. *)
Lemma initiate_state uuid now payload userId v :
  let s := (initiateNewTransfer uuid now payload userId v).2 in
  subTasks_of (svc s) (uuid 0) = new_subTasks uuid now payload
  ∧ task_frame <$> transferTasks (svc s) !! uuid 0
    = Some (uuid 0, userId, payload)
  ∧ status_of (svc s) (uuid 0) = Some Task.in_progress
  ∧ taskAbortControllers (svc s) !! uuid 0 = Some (length (signals v))
  ∧ signals (svc s) = signals v ++ [false]
  ∧ phase s = PSourceCredentials ∧ wrappers s = ∅ ∧ commands s = ∅
  ∧ log s = [].
Proof.
  intros s. subst s. unfold initiateNewTransfer. cbn [snd].
  set (v1 := register_task uuid now payload userId v).
  assert (Ht : transferTasks v1 !! uuid 0 = Some (newTask uuid now payload userId))
    by (unfold v1, register_task; simpl; by rewrite lookup_insert_eq).
  assert (Ha : aborted (length (signals v)) v1 = false).
  { unfold v1, register_task, aborted. simpl.
    by rewrite lookup_app_r, Nat.sub_diag. }
  unfold start_processing. rewrite Ht, Ha.
  unfold updateOverallTaskStatus, subTasks_of, status_of. rewrite Ht.
  simpl. rewrite !lookup_insert_eq. simpl.
  repeat split; reflexivity.
Qed.

(** C9: a request with [t] target connection ids and [i] source items
    yields a task with [t * i] sub-tasks, one per (target, item) pair in the
    order of the request, both in the copy [initiateNewTransfer] returns and
    in the registry; and after every run of the task's processing (with any
    cancellations) the registry still holds the task with the same pairs at
    the same positions. *)
Theorem cardinality uuid now payload userId v es s :
  run (uuid 0) (length (signals v)) es
      (initiateNewTransfer uuid now payload userId v).2 = Some s →
  length (Task.subTasks (initiateNewTransfer uuid now payload userId v).1)
    = length (connectionIds payload) * length (sourceItems payload)
  ∧ ∃ task,
      transferTasks (svc s) !! uuid 0 = Some task
      ∧ length (Task.subTasks task)
        = length (connectionIds payload) * length (sourceItems payload)
      ∧ target_and_item <$> Task.subTasks task = pairs_of payload.
Proof.
  intros Hrun.
  destruct (initiate_state uuid now payload userId v)
    as (Hsubs & Hframe & _).
  destruct (new_subTasks_spec uuid now payload) as (Hpairs & _ & _).
  set (s0 := (initiateNewTransfer uuid now payload userId v).2) in *.
  assert (Hlen0 : length (new_subTasks uuid now payload)
                  = length (connectionIds payload) * length (sourceItems payload)).
  { by rewrite <- length_pairs_of, <- Hpairs, length_fmap. }
  split.
  - change (initiateNewTransfer uuid now payload userId v).1
      with (default (newTask uuid now payload userId)
              (transferTasks (svc s0) !! uuid 0)).
    unfold subTasks_of in Hsubs.
    destruct (transferTasks (svc s0) !! uuid 0) as [task0|]; [|done].
    change (Task.subTasks task0 = new_subTasks uuid now payload) in Hsubs.
    change (length (Task.subTasks task0)
            = length (connectionIds payload) * length (sourceItems payload)).
    by rewrite Hsubs.
  - pose proof (run_reach _ _ (svc s0) _ _ _ Hrun (rtc_refl _ _)) as Hreach.
    pose proof (reach_task_frame _ _ (uuid 0) Hreach) as Hf.
    rewrite Hframe in Hf.
    destruct (transferTasks (svc s) !! uuid 0) as [task|] eqn:E; [|done].
    exists task. split; [done|].
    pose proof (evolves_identity _ _ (reach_evolves _ _ (uuid 0) Hreach)) as Hid.
    rewrite Hsubs in Hid. unfold subTasks_of in Hid. rewrite E in Hid.
    simpl in Hid.
    assert (Ht : target_and_item <$> Task.subTasks task
                 = target_and_item <$> new_subTasks uuid now payload).
    { assert (Hc : ∀ k : list SubTask.t,
                target_and_item <$> k = (λ x, (x.1.2, x.2)) <$> (identity <$> k)).
      { intros k. rewrite <- list_fmap_compose. reflexivity. }
      by rewrite !Hc, Hid. }
    split; [|by rewrite Ht].
    by rewrite <- (length_fmap target_and_item), Ht, length_fmap.
Qed.

(** ** Concrete runs *)

Definition demo_uuid (k : nat) : string := "task-" +:+ pretty k.

Definition empty_service : Service := mkService ∅ ∅ [].

Definition demo_target : TargetInfo :=
  mkTarget "backup" "10.0.0.2" auth_key None (Some "PRIVATE KEY") None.

(** One target and seven items: seven sub-tasks. *)
Definition seven_items : InitiateTransferPayload :=
  mkPayload 1 [2%Z]
    ((λ n, mkSourceItem ("f" +:+ pretty n) ("/srv/f" +:+ pretty n) file) <$> seq 0 7)
    "/backup" method_auto.

Definition demo_start (payload : InitiateTransferPayload) : Proc :=
  (initiateNewTransfer demo_uuid 0 payload (UserNum 1) empty_service).2.

Definition demo_run (es : list (Date * Event)) (payload : InitiateTransferPayload)
    : option Proc :=
  run "task-0" 0 es (demo_start payload).

(** A successful transfer of one item with the mirroring tool, with key
    brokering, whose cleanup fails. *)
Definition successful_transfer : list (Date * Event) :=
  [(1, EvSourceCredentials (Found demo_target)); (2, EvSourceConnected None);
   (3, EvTargetCredentials 0 (Found demo_target));
   (4, EvProbe 0 None); (4, EvProbe 0 (Some "/usr/bin/rsync"));
   (4, EvProbe 0 (Some "/usr/bin/scp")); (5, EvProbe 0 (Some "/usr/bin/rsync"));
   (6, EvMkdir 0 None "a1b2c3d4e5f6"); (7, EvUpload 0 None);
   (8, EvExecCallback 0 None); (9, EvData 0 "  1,234  42%  1.2MB/s");
   (10, EvClose 0 (Some 0%Z) EmptyString); (11, EvDelete 0 (Some "No such file"));
   (12, EvWrapperFinally 0); (13, EvSchedulerSettled)].

Lemma cardinality_witness :
  ∃ s, demo_run successful_transfer demo_payload = Some s
       ∧ ∃ task,
           transferTasks (svc s) !! "task-0" = Some task
           ∧ length (Task.subTasks task) = 1 * 1
           ∧ target_and_item <$> Task.subTasks task = pairs_of demo_payload.
Proof.
  destruct (demo_run successful_transfer demo_payload) as [s|] eqn:E;
    [|vm_compute in E; discriminate].
  exists s. split; [reflexivity|].
  exact (proj2 (cardinality demo_uuid 0 demo_payload (UserNum 1) empty_service
                  successful_transfer s E)).
Defined.

(** What the read model shows of a state. *)
Definition observe (s : Proc)
    : ProcPhase * option Task.Status * list SubTask.Status :=
  (phase s, status_of (svc s) "task-0", statuses (svc s) "task-0").

(** C2 at a failing input: the only sub-task is in flight when the user
    cancels.  [cancelTransferTask] marks it cancelled, the scheduler's
    promise is rejected, the [catch] sets the task to [cancelled], and the
    [finally] recomputes the rollup, which leaves the finished task
    in-progress. *)
Lemma cancelled_task_ends_in_progress :
  observe <$> demo_run [(1, EvSourceCredentials (Found demo_target));
                        (2, EvSourceConnected None);
                        (3, EvCancel (UserNum 1));
                        (4, EvSchedulerSettled)] demo_payload
  = Some (PFinished, Some Task.in_progress, [SubTask.cancelled]).
Proof. vm_compute. reflexivity. Qed.

(** A request without sub-tasks is left in-progress, too. *)
Lemma empty_task_ends_in_progress :
  observe <$> demo_run [(1, EvSourceCredentials (Found demo_target));
                        (2, EvSourceConnected None);
                        (3, EvSchedulerSettled)]
                       (mkPayload 1 [] [] "/backup" method_auto)
  = Some (PFinished, Some Task.in_progress, []).
Proof. vm_compute. reflexivity. Qed.

(** C4 at a failing input: the connection to the source host is refused.
    The [catch] of [processTransferTask] sets the task to [failed] through
    [updateOverallTaskStatus]; [finalizeOverallTaskStatus], which runs next,
    recomputes the rollup without the guard and moves the task back to
    [queued]. *)
Lemma failed_task_moves_back_to_queued :
  let before :=
    demo_run [(1, EvSourceCredentials (Found demo_target))] demo_payload in
  let failed :=
    (λ s, updateOverallTaskStatus 2 "task-0" Task.failed (svc s)) <$> before in
  (λ v, status_of v "task-0") <$> failed = Some (Some Task.failed)
  ∧ (λ v, status_of (finalizeOverallTaskStatus 2 "task-0" v) "task-0") <$> failed
    = Some (Some Task.queued)
  ∧ observe <$> demo_run [(1, EvSourceCredentials (Found demo_target));
                          (2, EvSourceConnected (Some "ECONNREFUSED"))]
                         demo_payload
    = Some (PFinished, Some Task.queued, [SubTask.queued]).
Proof. vm_compute. auto. Qed.

(** C5 at a failing input: seven sub-tasks, five in flight and two queued
    when the user cancels.  The abort listener rejects the scheduler's
    promise at once, with five wrappers still running, and
    [cancelTransferTask] marks all seven sub-tasks cancelled; when
    [processTransferTask] resumes it ends the source connection and
    finalizes the task, the five wrappers still in flight. *)
Lemma promise_settles_before_drain :
  let launched := [(1, EvSourceCredentials (Found demo_target));
                   (2, EvSourceConnected None)] in
  let view (s : Proc) :=
    (allTasksCompleted (sched s), currentlyActiveSubTasks (sched s),
     size (wrappers s), phase s, log s, statuses (svc s) "task-0") in
  view <$> demo_run launched seven_items
  = Some (Pending, 5, 5, PScheduling, [],
          [SubTask.connecting; SubTask.connecting; SubTask.connecting;
           SubTask.connecting; SubTask.connecting;
           SubTask.queued; SubTask.queued])
  ∧ view <$> demo_run (launched ++ [(3, EvCancel (UserNum 1))]) seven_items
    = Some (Rejected, 5, 5, PScheduling, [],
            [SubTask.cancelled; SubTask.cancelled; SubTask.cancelled;
             SubTask.cancelled; SubTask.cancelled;
             SubTask.cancelled; SubTask.cancelled])
  ∧ view <$> demo_run (launched ++ [(3, EvCancel (UserNum 1));
                                     (3, EvSchedulerSettled)]) seven_items
    = Some (Rejected, 5, 5, PFinished, [OpSourceEnd],
            [SubTask.cancelled; SubTask.cancelled; SubTask.cancelled;
             SubTask.cancelled; SubTask.cancelled;
             SubTask.cancelled; SubTask.cancelled]).
Proof. vm_compute. auto. Qed.

(** C6 as stated fails: after the processing of a task has ended its
    [AbortController] is gone, and [cancelTransferTask] returns false for
    the owner of a known task. *)
Lemma cancel_after_finish_returns_false :
  (λ s, (Task.userId <$> transferTasks (svc s) !! "task-0",
         taskAbortControllers (svc s) !! "task-0",
         (cancelTransferTask 14 "task-0" (UserNum 1) (svc s)).1))
    <$> demo_run successful_transfer demo_payload
  = Some (Some (UserNum 1), None, false).
Proof. vm_compute. reflexivity. Qed.

(** Five sub-tasks in flight and two queued. *)
Definition five_in_flight : Proc :=
  default (demo_start seven_items)
    (demo_run [(1, EvSourceCredentials (Found demo_target));
               (2, EvSourceConnected None)] seven_items).

Lemma cancel_contract_witness :
  ∃ sig,
    taskAbortControllers (svc five_in_flight) !! "task-0" = Some sig
    ∧ signals (cancelTransferTask 3 "task-0" (UserNum 1) (svc five_in_flight)).2
      = <[sig := true]> (signals (svc five_in_flight))
    ∧ statuses (cancelTransferTask 3 "task-0" (UserNum 1) (svc five_in_flight)).2
               "task-0"
      = (λ x, if SubTask.unfinished x then SubTask.cancelled else x)
          <$> statuses (svc five_in_flight) "task-0"
    ∧ (Forall (λ x, SubTask.unfinished x = false)
              (statuses (svc five_in_flight) "task-0") →
       ∀ x, status_of (svc five_in_flight) "task-0" = Some x →
            (x ∈ [Task.queued; Task.in_progress; Task.cancelling] →
             status_of (cancelTransferTask 3 "task-0" (UserNum 1)
                          (svc five_in_flight)).2 "task-0"
             = Some Task.cancelling)
            ∧ (x ∈ [Task.completed; Task.failed; Task.cancelled] →
               status_of (cancelTransferTask 3 "task-0" (UserNum 1)
                            (svc five_in_flight)).2 "task-0" = Some x)).
Proof.
  assert (Hnd : NoDup (SubTask.subTaskId <$> subTasks_of (svc five_in_flight) "task-0")).
  { apply (bool_decide_unpack _). vm_compute. exact I. }
  apply (proj2 (proj2 (cancel_contract 3 "task-0" (UserNum 1)
                         (svc five_in_flight) Hnd))).
  vm_compute. reflexivity.
Defined.

Lemma endTime_rule_witness :
  SubTask.endTime
    <$> subTasks_of
          (apply_calls [mkCall 5 "task-0" "task-1" SubTask.cancelled None None]
             (svc (demo_start demo_payload))) "task-0" !! 0
  = Some None.
Proof.
  destruct (subTasks_of _ "task-0" !! 0) as [st|] eqn:E;
    [|vm_compute in E; discriminate].
  simpl. f_equal.
  eapply (proj2 (proj2 endTime_rule)
            [mkCall 5 "task-0" "task-1" SubTask.cancelled None None]
            (svc (demo_start demo_payload)) "task-0" 0 st).
  - vm_compute. repeat constructor.
  - exact E.
  - vm_compute in E. by injection E as <-.
Defined.

(** ** The scheduler's bookkeeping and the statuses of the sub-tasks *)

Section ConcurrencyBound.

Variable taskId : string.
Variable signal : nat.

Abbreviation subs s := (subTasks_of (svc s) taskId).
Abbreviation sts s := (statuses (svc s) taskId).
Abbreviation ids s := (SubTask.subTaskId <$> subTasks_of (svc s) taskId).

Lemma sts_lookup s i :
  sts s !! i = SubTask.status <$> subTask_at taskId s i.
Proof. unfold statuses. by rewrite list_lookup_fmap, subTask_at_subs. Qed.

Lemma subTaskInstance_at s i :
  NoDup (ids s) → subTaskInstance taskId s i = subTask_at taskId s i.
Proof.
  intros Hnd. unfold subTaskInstance.
  destruct (subTask_at taskId s i) as [st|] eqn:E; [|done]. simpl.
  rewrite subTask_at_subs in E.
  unfold the_task. unfold subTasks_of in *.
  destruct (transferTasks (svc s) !! taskId) as [task|]; [|done]. simpl in *.
  by rewrite (list_find_by_id _ i st).
Qed.

(** With distinct ids, the update requested by the code that runs the
    sub-task at position [i] lands at position [i]. *)
Lemma update_sts now i new p m s :
  NoDup (ids s) →
  sts (update taskId now i new p m s) =
    match sts s !! i with
    | Some old => if blocked old new then sts s else <[i := new]> (sts s)
    | None => sts s
    end.
Proof.
  intros Hnd. rewrite sts_lookup. unfold update.
  destruct (subTask_at taskId s i) as [st|] eqn:E; [|done]. simpl.
  rewrite subTask_at_subs in E. frame_simpl.
  unfold statuses. rewrite updateSubTaskStatus_subTasks, decide_True by done.
  rewrite (list_find_by_id _ i st) by done.
  destruct (blocked _ _); [done|].
  by rewrite list_fmap_insert, update_subTask_status.
Qed.

Lemma update_frame now i new p m s :
  signals (svc (update taskId now i new p m s)) = signals (svc s)
  ∧ ids (update taskId now i new p m s) = ids s
  ∧ wrappers (update taskId now i new p m s) = wrappers s
  ∧ commands (update taskId now i new p m s) = commands s
  ∧ sched (update taskId now i new p m s) = sched s
  ∧ phase (update taskId now i new p m s) = phase s
  ∧ log (update taskId now i new p m s) = log s.
Proof.
  split; [|split].
  - unfold update. destruct (subTask_at taskId s i); [|done]. frame_simpl.
    apply updateSubTaskStatus_signals.
  - apply evolves_ids, reach_evolves, rch_update. apply rtc_refl.
  - unfold update. by destruct (subTask_at taskId s i).
Qed.

Lemma method_frame i u s :
  signals (svc (set_method_used taskId i u s)) = signals (svc s)
  ∧ ids (set_method_used taskId i u s) = ids s
  ∧ sts (set_method_used taskId i u s) = sts s
  ∧ wrappers (set_method_used taskId i u s) = wrappers s
  ∧ commands (set_method_used taskId i u s) = commands s
  ∧ sched (set_method_used taskId i u s) = sched s
  ∧ phase (set_method_used taskId i u s) = phase s
  ∧ log (set_method_used taskId i u s) = log s.
Proof.
  split; [|split; [|split]].
  - unfold set_method_used. by repeat case_match.
  - apply evolves_ids, reach_evolves, rch_method. apply rtc_refl.
  - unfold set_method_used.
    destruct (subTask_at taskId s i) as [st|]; [|done].
    destruct (the_task taskId s) as [task|] eqn:E; [|done].
    destruct (list_find _ _) as [[j stj]|] eqn:F; [|done].
    apply list_find_Some in F as (Hj & _ & _).
    frame_simpl. unfold statuses, subTasks_of. simpl.
    unfold the_task in E. rewrite lookup_insert_eq, E. simpl.
    rewrite list_fmap_insert. apply list_insert_id.
    by rewrite list_lookup_fmap, Hj.
  - unfold set_method_used. by repeat case_match.
Qed.

(** The sub-task at position [i] is not counted as in progress. *)
Definition N (i : nat) (s : Proc) : Prop :=
  ∀ x, sts s !! i = Some x → SubTask.active x = false.

(** It is completed or failed, which no later update undoes. *)
Definition sticky_at (i : nat) (s : Proc) : Prop :=
  ∀ x, sts s !! i = Some x → SubTask.completed_or_failed x = true.

(** No callback of a command of sub-task [i] can make it active again. *)
Definition K (i : nat) (s : Proc) : Prop :=
  commands s !! i = None ∨ is_aborted signal s = true ∨ sticky_at i s.

Definition is_command (ph : WPhase) : bool :=
  match ph with WCommand _ _ => true | _ => false end.

(** A sub-task counted as in progress has a wrapper inside the [try]. *)
Definition live_at (i : nat) (s : Proc) : Prop :=
  ∀ x, sts s !! i = Some x → SubTask.active x = true →
       ∃ ph, wrappers s !! i = Some ph ∧ unwinding ph = false.

Definition cmd_at (i : nat) (s : Proc) : Prop :=
  K i s ∨ ∃ ph, wrappers s !! i = Some ph ∧ is_command ph = true.

(** What an event of sub-task [i] leaves alone. *)
Record Frame (i : nat) (s0 s : Proc) : Prop := mkFrame {
  fr_phase : phase s = phase s0;
  fr_sched : sched s = sched s0;
  fr_signals : signals (svc s) = signals (svc s0);
  fr_ids : ids s = ids s0;
  fr_sts : ∀ j, j ≠ i → sts s !! j = sts s0 !! j;
  fr_wrappers : ∀ j, j ≠ i → wrappers s !! j = wrappers s0 !! j;
  fr_commands : ∀ j, j ≠ i → commands s !! j = commands s0 !! j
}.

(** The code of an event of sub-task [i] has run from [s0] to [s]; [n] and
    [k] record whether [N i s] and [K i s] are known. *)
Record Track (i : nat) (s0 s : Proc) (n k : bool) : Prop := mkTrack {
  tr_nodup : NoDup (ids s0);
  tr_frame : Frame i s0 s;
  tr_N : n = true → N i s;
  tr_K : k = true → K i s
}.

Lemma frame_refl i s : Frame i s s.
Proof. by constructor. Qed.

Lemma is_aborted_signals s s' :
  signals (svc s') = signals (svc s) → is_aborted signal s' = is_aborted signal s.
Proof. unfold is_aborted, aborted. by intros ->. Qed.

Lemma track_update i s0 s n k now new p m :
  Track i s0 s n k →
  Track i s0 (update taskId now i new p m s)
        (negb (SubTask.active new)) (k || SubTask.completed_or_failed new).
Proof.
  intros [Hnd [H1 H2 H3 H4 H5 H6 H7] HN HK].
  assert (Hnd' : NoDup (ids s)) by (by rewrite H4).
  destruct (update_frame now i new p m s) as (F1 & F2 & F3 & F4 & F5 & F6 & _).
  pose proof (update_sts now i new p m s Hnd') as Hs.
  assert (Hi : ∀ x, sts (update taskId now i new p m s) !! i = Some x →
               (sts s !! i = Some x
                ∧ ∃ old, sts s !! i = Some old ∧ blocked old new = true)
               ∨ (x = new ∧ ∃ old, sts s !! i = Some old ∧ blocked old new = false)).
  { intros x. rewrite Hs. destruct (sts s !! i) as [old|] eqn:E; [|by rewrite E].
    destruct (blocked old new) eqn:B.
    - rewrite E. intros [= <-]. left. eauto.
    - rewrite list_lookup_insert_eq by (by eapply lookup_lt_Some).
      intros [= <-]. right. eauto. }
  constructor; [done| | |].
  - constructor; try congruence.
    + intros j Hj. rewrite <- H5 by done. rewrite Hs.
      destruct (sts s !! i); [|done]. destruct (blocked _ _); [done|].
      by rewrite list_lookup_insert_ne.
    + intros j Hj. rewrite F3. auto.
    + intros j Hj. rewrite F4. auto.
  - intros Hn x Hx. destruct (Hi x Hx) as [(Hx' & old & Ho & B)|(-> & _)].
    + rewrite Hx' in Ho. injection Ho as <-. unfold blocked in B.
      by destruct x.
    + by destruct new.
  - intros Hk. unfold K. rewrite F4, (is_aborted_signals _ _ F1).
    destruct (SubTask.completed_or_failed new) eqn:C.
    + right; right. intros x Hx.
      destruct (Hi x Hx) as [(_ & old & _ & B)|(-> & _)]; [|done].
      unfold blocked in B. rewrite C in B. by destruct (SubTask.completed_or_failed old).
    + rewrite orb_false_r in Hk. destruct (HK Hk) as [?|[?|Hst]]; auto.
      right; right. intros x Hx.
      destruct (Hi x Hx) as [(Hx' & _)|(-> & old & Ho & B)]; [by apply Hst|].
      apply Hst in Ho. unfold blocked in B. rewrite Ho, C in B. done.
Qed.

Lemma track_same i s0 s s' n k :
  Track i s0 s n k →
  svc s' = svc s → phase s' = phase s → sched s' = sched s →
  (∀ j, j ≠ i → wrappers s' !! j = wrappers s !! j) →
  commands s' = commands s →
  Track i s0 s' n k.
Proof.
  intros [Hnd [H1 H2 H3 H4 H5 H6 H7] HN HK] Ev Ep Es Ew Ec.
  constructor; [done| | |].
  - constructor; rewrite ?Ev, ?Ep, ?Es, ?Ec; try done.
    intros j Hj. rewrite Ew by done. auto.
  - intros Hn. unfold N. rewrite Ev. by apply HN.
  - intros Hk. unfold K, sticky_at, is_aborted. rewrite Ev, Ec. by apply HK.
Qed.

Lemma track_set_wrapper i s0 s n k ph :
  Track i s0 s n k → Track i s0 (set_wrapper i ph s) n k.
Proof.
  intros H. eapply track_same; [exact H|done..| |done].
  intros j Hj. frame_simpl. by rewrite lookup_insert_ne.
Qed.

Lemma track_add_log i s0 s n k op :
  Track i s0 s n k → Track i s0 (add_log op s) n k.
Proof. intros H. by eapply track_same. Qed.

Lemma track_method i s0 s n k u :
  Track i s0 s n k → Track i s0 (set_method_used taskId i u s) n k.
Proof.
  intros [Hnd [H1 H2 H3 H4 H5 H6 H7] HN HK].
  destruct (method_frame i u s) as (F1 & F2 & F3 & F4 & F5 & F6 & F7 & _).
  constructor; [done| | |].
  - constructor; try congruence.
    + intros j Hj. rewrite F3. auto.
    + intros j Hj. rewrite F4. auto.
    + intros j Hj. rewrite F5. auto.
  - intros Hn. unfold N. rewrite F3. by apply HN.
  - intros Hk. unfold K, sticky_at. rewrite F5, F3, (is_aborted_signals _ _ F1).
    by apply HK.
Qed.

Lemma track_commands i s0 s n k f :
  (∀ m j, j ≠ i → f m !! j = m !! j) →
  Track i s0 s n k →
  Track i s0 (with_commands f s) n
        (k && bool_decide (commands s !! i = None → f (commands s) !! i = None)
         || bool_decide (f (commands s) !! i = None)).
Proof.
  intros Hf [Hnd [H1 H2 H3 H4 H5 H6 H7] HN HK].
  constructor; [done| | |].
  - constructor; try done. intros j Hj. frame_simpl. rewrite Hf by done. auto.
  - done.
  - intros Hk. unfold K, sticky_at, is_aborted. frame_simpl.
    apply orb_true_iff in Hk as [Hk|Hk].
    + apply andb_true_iff in Hk as [Hk Hd]. apply bool_decide_eq_true in Hd.
      destruct (HK Hk) as [?|[?|?]]; auto.
    + apply bool_decide_eq_true in Hk. auto.
Qed.

Lemma track_delete_command i s0 s n k :
  Track i s0 s n k → Track i s0 (with_commands (delete i) s) n true.
Proof.
  intros H.
  pose proof (track_commands i s0 s n k (delete i)
                (λ m j Hj, lookup_delete_ne m i j (not_eq_sym Hj)) H) as H'.
  rewrite lookup_delete_eq in H'.
  rewrite (bool_decide_eq_true_2 (None = None)) in H' by done.
  by rewrite orb_true_r in H'.
Qed.

Lemma track_insert_command i s0 s n k c :
  Track i s0 s n k → Track i s0 (with_commands (insert i c) s) n false.
Proof.
  intros [Hnd [H1 H2 H3 H4 H5 H6 H7] HN HK].
  constructor; [done| |done|done].
  constructor; try done. intros j Hj. frame_simpl.
  rewrite lookup_insert_ne by done. auto.
Qed.

Lemma track_weaken i s0 s n k n' k' :
  Track i s0 s n k → (n' = true → n = true) → (k' = true → k = true) →
  Track i s0 s n' k'.
Proof. intros [? ? ? ?] ? ?. constructor; auto. Qed.

Lemma track_aborted i s0 s n k :
  Track i s0 s n k → is_aborted signal s = true → Track i s0 s n true.
Proof. intros [? ? ? ?] ?. constructor; auto. intros _. right; left. done. Qed.

Lemma track_N i s0 s n k : Track i s0 s n k → N i s → Track i s0 s true k.
Proof. intros [? ? ? ?] ?. constructor; auto. Qed.

(** The state in which an event of sub-task [i] ends. *)
Record Final (i : nat) (s0 s' : Proc) : Prop := mkFinal {
  fin_nodup : NoDup (ids s0);
  fin_frame : Frame i s0 s';
  fin_wrapper :
    ∃ ph, wrappers s' !! i = Some ph
          ∧ (unwinding ph = true → N i s')
          ∧ (is_command ph = false → K i s')
}.

Lemma final_set i s0 s n k ph :
  Track i s0 s n k →
  (unwinding ph = true → n = true) → (is_command ph = false → k = true) →
  Final i s0 (set_wrapper i ph s).
Proof.
  intros H Hn Hk. apply (track_set_wrapper _ _ _ _ _ ph) in H.
  destruct H as [Hnd Hf HN HK]. constructor; [done..|].
  exists ph. frame_simpl. rewrite lookup_insert_eq. auto.
Qed.

Lemma frame_aborted i s0 s :
  Frame i s0 s → is_aborted signal s = is_aborted signal s0.
Proof. intros [? ? ? ? ? ? ?]. by apply is_aborted_signals. Qed.

Ltac track_step :=
  lazymatch goal with
  | |- Track _ _ (update _ _ _ _ _ _ _) _ _ => eapply track_update
  | |- Track _ _ (set_wrapper _ _ _) _ _ => eapply track_set_wrapper
  | |- Track _ _ (add_log _ _) _ _ => eapply track_add_log
  | |- Track _ _ (set_method_used _ _ _ _) _ _ => eapply track_method
  | |- Track _ _ (with_commands (delete _) _) _ _ => eapply track_delete_command
  | |- Track _ _ (with_commands (insert _ _) _) _ _ => eapply track_insert_command
  end.

Ltac flag :=
  intros; simpl in *; rewrite ?orb_true_r, ?orb_false_r in *;
  first [ done
        | by repeat match goal with b : bool |- _ => destruct b end ].

Ltac track := repeat track_step; eassumption.

Ltac track_to := eapply track_weaken; [track | flag | flag].

Ltac final_here := eapply final_set; [track | flag | flag].

Lemma N_of_status i s st :
  subTask_at taskId s i = Some st → SubTask.active (SubTask.status st) = false →
  N i s.
Proof. intros E Hst x. rewrite sts_lookup, E. by intros [= <-]. Qed.

Lemma N_of_none i s : subTask_at taskId s i = None → N i s.
Proof. intros E x. by rewrite sts_lookup, E. Qed.

Lemma wrapper_catch_final i s0 s n now e :
  Track i s0 s n true → Final i s0 (wrapper_catch taskId now i e s).
Proof.
  intros H. unfold wrapper_catch.
  destruct e as [m|m]; [final_here|].
  rewrite subTaskInstance_at
    by (destruct H as [? [? ? ? Hi ? ? ?] ? ?]; by rewrite Hi).
  destruct (subTask_at taskId s i) as [st|] eqn:E.
  - destruct (SubTask.unfinished (SubTask.status st)) eqn:U; [final_here|].
    assert (HN : N i s)
      by (eapply N_of_status; [done|]; by destruct (SubTask.status st)).
    pose proof (track_N _ _ _ _ _ H HN). final_here.
  - pose proof (track_N _ _ _ _ _ H (N_of_none _ _ E)). final_here.
Qed.

Lemma exec_finally_final i s0 s now tp pending :
  Track i s0 s true true → Final i s0 (exec_finally taskId now i tp pending s).
Proof.
  intros H. unfold exec_finally.
  destruct tp as [p|]; [final_here|].
  destruct pending as [e|]; [by eapply wrapper_catch_final|final_here].
Qed.

Definition is_error (e : Exn) : bool :=
  match e with Error _ => true | AbortError _ => false end.

Lemma exec_throw_final i s0 s n k now e tp :
  Track i s0 s n k →
  k = true ∨ is_aborted signal s0 = true ∨ is_error e = true →
  Final i s0 (exec_throw taskId now i e tp s).
Proof.
  intros H Hk. unfold exec_throw. apply exec_finally_final.
  destruct e as [m|m]; [|track_to].
  assert (Hk' : Track i s0 s n true).
  { destruct Hk as [->|[Ha|?]]; [done| |done].
    eapply track_aborted; [done|].
    destruct H as [_ Hf _ _]. by rewrite (frame_aborted _ _ _ Hf). }
  rewrite subTaskInstance_at
    by (destruct H as [? [? ? ? Hi ? ? ?] ? ?]; by rewrite Hi).
  destruct (subTask_at taskId s i) as [st|] eqn:E.
  - case_decide as Hc; [track_to|].
    eapply track_N; [done|]. eapply N_of_status; [done|]. by rewrite Hc.
  - eapply track_N; [done|]. by apply N_of_none.
Qed.

Lemma run_command_final i s0 s n k now tool tp pty :
  Track i s0 s n k → Final i s0 (run_command taskId now i tool tp pty s).
Proof. intros H. unfold run_command. final_here. Qed.

Lemma after_tool_final i s0 s n now tc sp tool :
  Track i s0 s n true → Final i s0 (after_tool taskId now i tc sp tool s).
Proof. intros H. unfold after_tool. cbv zeta. final_here. Qed.

Lemma choose_scp_final i s0 s n now tc sp sc :
  Track i s0 s n true → Final i s0 (choose_scp taskId now i tc sp sc s).
Proof.
  intros H. unfold choose_scp. destruct sc.
  - by eapply after_tool_final.
  - eapply exec_throw_final; eauto.
Qed.

Lemma select_tool_final i s0 s n now tc sp rs sc :
  Track i s0 s n true → Final i s0 (select_tool taskId now i tc sp rs sc s).
Proof.
  intros H. unfold select_tool.
  repeat case_match;
    first [ final_here
          | by eapply choose_scp_final
          | by eapply after_tool_final
          | eapply exec_throw_final; eauto ].
Qed.

Lemma after_target_probe_final i s0 s n now tc sp sc rt :
  Track i s0 s n true →
  Final i s0 (after_target_probe taskId now i tc sp sc rt s).
Proof.
  intros H. unfold after_target_probe.
  repeat case_match;
    first [ by eapply choose_scp_final
          | by eapply after_tool_final
          | eapply exec_throw_final; eauto ].
Qed.

Lemma broker_credentials_final i s0 s n now tc sp tool rand :
  Track i s0 s n true →
  Final i s0 (broker_credentials taskId now i tc sp tool rand s).
Proof.
  intros H. unfold broker_credentials.
  repeat case_match;
    first [ final_here
          | by eapply run_command_final
          | eapply exec_throw_final; eauto ].
Qed.

Lemma after_upload_final i s0 s n now tc sp tool p :
  Track i s0 s n true →
  Final i s0 (after_upload taskId signal now i tc sp tool p s).
Proof.
  intros H. unfold after_upload. cbv zeta.
  pose proof (track_add_log _ _ _ _ _ (OpKeyUploaded i p) H) as H1.
  repeat case_match;
    first [ by eapply run_command_final
          | eapply exec_throw_final; eauto ].
Qed.

Lemma enter_execute_final i s0 s n now tc :
  Track i s0 s n true → Final i s0 (enter_execute taskId now i tc s).
Proof. intros H. unfold enter_execute. final_here. Qed.

(** *** The invariant *)

Record Inv (s : Proc) : Prop := mkInv {
  inv_nodup : NoDup (ids s);
  inv_active : currentlyActiveSubTasks (sched s) = size (wrappers s);
  inv_bound : currentlyActiveSubTasks (sched s) ≤ MAX_CONCURRENT_SUB_TASKS;
  inv_fresh : ∀ j, is_Some (wrappers s !! j) → j < currentSubTaskIndex (sched s);
  inv_live : ∀ j, live_at j s;
  inv_cmd : ∀ j, cmd_at j s;
  inv_idle :
    phase s = PSourceCredentials ∨ phase s = PSourceConnect → wrappers s = ∅
}.

Record LocalOK (i : nat) (s0 s' : Proc) : Prop := mkLocalOK {
  lo_frame : Frame i s0 s';
  lo_dom : is_Some (wrappers s' !! i) ↔ is_Some (wrappers s0 !! i);
  lo_live : live_at i s';
  lo_cmd : cmd_at i s'
}.

Lemma same_domain_size (m m' : gmap nat WPhase) :
  (∀ j, is_Some (m' !! j) ↔ is_Some (m !! j)) → size m' = size m.
Proof.
  intros H. rewrite <- !size_dom. f_equal. apply set_eq. intros j.
  by rewrite !elem_of_dom.
Qed.

Lemma K_frame i j s0 s :
  Frame i s0 s → j ≠ i → K j s0 → K j s.
Proof.
  intros Hf Hj. pose proof (frame_aborted _ _ _ Hf) as Ha.
  destruct Hf as [? ? ? ? Hs Hw Hc].
  unfold K, sticky_at. rewrite Ha, Hc, Hs by done. done.
Qed.

Lemma inv_local i s0 s' : Inv s0 → LocalOK i s0 s' → Inv s'.
Proof.
  intros [I1 I2 I3 I4 I5 I6 I7] [Hf Hd Hl Hc].
  pose proof Hf as [F1 F2 F3 F4 F5 F6 F7].
  assert (Hdom : ∀ j, is_Some (wrappers s' !! j) ↔ is_Some (wrappers s0 !! j)).
  { intros j. destruct (decide (j = i)) as [->|Hj]; [done|]. by rewrite F6. }
  constructor.
  - by rewrite F4.
  - rewrite F2, I2. symmetry. by apply same_domain_size.
  - by rewrite F2.
  - intros j Hj. rewrite F2. apply I4. by apply Hdom.
  - intros j. destruct (decide (j = i)) as [->|Hj]; [done|].
    unfold live_at. rewrite F5, F6 by done. apply I5.
  - intros j. destruct (decide (j = i)) as [->|Hj]; [done|].
    destruct (I6 j) as [HK|HW].
    + left. by eapply K_frame.
    + right. by rewrite F6.
  - rewrite F1. intros Hp. specialize (I7 Hp). apply map_eq. intros j.
    rewrite lookup_empty. apply eq_None_not_Some. rewrite Hdom, I7.
    rewrite lookup_empty. by intros [? ?].
Qed.

Lemma final_local i s0 s' :
  is_Some (wrappers s0 !! i) → Final i s0 s' → LocalOK i s0 s'.
Proof.
  intros Hi [Hnd Hf (ph & Hph & HN & HK)]. constructor; [done| | |].
  - rewrite Hph. split; eauto.
  - intros x Hx Ha. exists ph. split; [done|].
    destruct (unwinding ph) eqn:U; [|done].
    rewrite (HN eq_refl x Hx) in Ha. done.
  - destruct (is_command ph) eqn:C; [right; eauto|left; auto].
Qed.

Lemma track_init s i : Inv s → Track i s s false false.
Proof. intros [? ? ? ? ? ? ?]. constructor; [done|apply frame_refl|done..]. Qed.

(** What the invariant gives for the wrapper the event belongs to. *)
Lemma track_wrapper s i ph :
  Inv s → wrappers s !! i = Some ph →
  Track i s s (unwinding ph) (negb (is_command ph)).
Proof.
  intros HI Hph. pose proof HI as [? ? ? ? Hl Hc ?].
  constructor; [done|apply frame_refl| |].
  - intros U x Hx. destruct (SubTask.active x) eqn:A; [|done].
    destruct (Hl i x Hx A) as (ph' & Hph' & U').
    rewrite Hph in Hph'. injection Hph' as <-. congruence.
  - intros C. destruct (Hc i) as [?|(ph' & Hph' & C')]; [done|].
    rewrite Hph in Hph'. injection Hph' as <-.
    rewrite C' in C. done.
Qed.

Lemma track_absent s i :
  Inv s → wrappers s !! i = None → Track i s s true true.
Proof.
  intros HI Hph. pose proof HI as [? ? ? ? Hl Hc ?].
  constructor; [done|apply frame_refl| |].
  - intros _ x Hx. destruct (SubTask.active x) eqn:A; [|done].
    destruct (Hl i x Hx A) as (ph' & Hph' & _). congruence.
  - intros _. destruct (Hc i) as [?|(ph' & Hph' & _)]; [done|congruence].
Qed.

(** An event that changes neither statuses nor wrappers. *)
Lemma inv_transfer s s' :
  Inv s →
  ids s' = ids s → sts s' = sts s →
  (is_aborted signal s = true → is_aborted signal s' = true) →
  wrappers s' = wrappers s → commands s' = commands s →
  currentlyActiveSubTasks (sched s') = currentlyActiveSubTasks (sched s) →
  currentSubTaskIndex (sched s) ≤ currentSubTaskIndex (sched s') →
  (phase s' = PSourceCredentials ∨ phase s' = PSourceConnect →
   phase s = PSourceCredentials ∨ phase s = PSourceConnect) →
  Inv s'.
Proof.
  intros [I1 I2 I3 I4 I5 I6 I7] Hi Hs Ha Hw Hc Hn Hx Hp.
  constructor.
  - by rewrite Hi.
  - by rewrite Hn, Hw.
  - by rewrite Hn.
  - intros j Hj. rewrite Hw in Hj. specialize (I4 j Hj). lia.
  - intros j. unfold live_at. rewrite Hs, Hw. apply I5.
  - intros j. unfold cmd_at, K, sticky_at. rewrite Hs, Hw, Hc.
    destruct (I6 j) as [[?|[?|?]]|?]; auto.
  - intros H. rewrite Hw. auto.
Qed.

Definition not_idle (s : Proc) : Prop :=
  phase s ≠ PSourceCredentials ∧ phase s ≠ PSourceConnect.

Ltac sched_only :=
  eapply inv_transfer; [eassumption|..]; frame_simpl;
  try done; try (by destruct (allTasksCompleted _));
  try (intros [?|?]; auto; congruence).

Lemma inv_resolve s : Inv s → Inv (resolveAllTasksCompleted s).
Proof. intros H. sched_only. Qed.

Lemma inv_reject s : Inv s → Inv (rejectAllTasksCompleted s).
Proof. intros H. sched_only. Qed.

Lemma inv_removeListener s : Inv s → Inv (removeOnAbortOverall s).
Proof. intros H. sched_only. Qed.

Lemma inv_add_log op s : Inv s → Inv (add_log op s).
Proof. intros H. sched_only. Qed.

Lemma start_wrapper_final i s n now st :
  Track i s s n true → subTask_at taskId s i = Some st →
  Final i s (start_wrapper taskId signal now i s).
Proof.
  intros H E. unfold start_wrapper.
  destruct (is_aborted signal s); [final_here|].
  rewrite E.
  destruct (the_task taskId s) as [task|] eqn:T.
  - destruct (list_find _ _) as [[? ?]|]; final_here.
  - unfold subTask_at in E. rewrite T in E. done.
Qed.

Lemma inv_launch s i s2 :
  Inv s → i = currentSubTaskIndex (sched s) →
  currentlyActiveSubTasks (sched s) < MAX_CONCURRENT_SUB_TASKS →
  not_idle s →
  Final i (with_sched launch_sched s) s2 →
  Inv s2.
Proof.
  intros HI -> Hlt [Hn1 Hn2] [Hnd Hf (ph & Hph & HN & HK)].
  pose proof HI as [I1 I2 I3 I4 I5 I6 I7].
  pose proof Hf as [F1 F2 F3 F4 F5 F6 F7]. frame_simpl.
  set (i := currentSubTaskIndex (sched s)) in *.
  assert (Hnone : wrappers s !! i = None).
  { apply eq_None_not_Some. intros Hs. specialize (I4 i Hs). unfold i in I4. lia. }
  assert (Hw : wrappers s2 = <[i := ph]> (wrappers s)).
  { apply map_eq. intros j. destruct (decide (j = i)) as [->|Hj].
    - by rewrite lookup_insert_eq.
    - rewrite lookup_insert_ne by done. auto. }
  constructor.
  - by rewrite F4.
  - rewrite F2, Hw, map_size_insert_None by done. simpl. by rewrite I2.
  - rewrite F2. simpl. lia.
  - intros j Hj. rewrite F2. simpl. rewrite Hw in Hj.
    destruct (decide (j = i)) as [->|Hne]; [unfold i; lia|].
    rewrite lookup_insert_ne in Hj by done. specialize (I4 j Hj). lia.
  - intros j. destruct (decide (j = i)) as [->|Hj].
    + intros x Hx Ha. exists ph. split; [done|].
      destruct (unwinding ph) eqn:U; [|done].
      rewrite (HN eq_refl x Hx) in Ha. done.
    + unfold live_at. rewrite F5, F6 by done. apply I5.
  - intros j. destruct (decide (j = i)) as [->|Hj].
    + destruct (is_command ph) eqn:C; [right; eauto|left; auto].
    + destruct (I6 j) as [HK'|HW].
      * left. eapply (K_frame i j (with_sched launch_sched s)); [done..|].
        exact HK'.
      * right. by rewrite F6.
  - rewrite F1. frame_simpl. intros [?|?]; congruence.
Qed.

Lemma inv_launch_loop now fuel s :
  Inv s → not_idle s →
  Inv (launch_loop taskId signal now fuel s)
  ∧ phase (launch_loop taskId signal now fuel s) = phase s.
Proof.
  revert s. induction fuel as [|fuel IH]; intros s HI Hn; simpl; [done|].
  case_bool_decide as Hc; [|done]. destruct Hc as [Hlt Hix].
  destruct (subTask_at taskId s (currentSubTaskIndex (sched s))) as [st|] eqn:E;
    [|done].
  case_decide as Hcan.
  - set (s1 := with_sched skip_sched s).
    assert (H1 : Inv s1) by (unfold s1; sched_only; simpl; lia).
    assert (Hp : phase s1 = phase s) by done.
    case_bool_decide.
    + destruct (IH (resolveAllTasksCompleted (removeOnAbortOverall s1))) as [? ->];
        [by apply inv_resolve, inv_removeListener|done|done].
    + destruct (IH s1) as [? ->]; done.
  - set (s1 := with_sched launch_sched s).
    set (s2 := start_wrapper taskId signal now (currentSubTaskIndex (sched s)) s1).
    assert (Hfin : Final (currentSubTaskIndex (sched s)) s1 s2).
    { eapply (start_wrapper_final _ _ true); [|exact E].
      assert (Hnone : wrappers s !! currentSubTaskIndex (sched s) = None).
      { apply eq_None_not_Some. intros Hs.
        pose proof (inv_fresh _ HI _ Hs). lia. }
      pose proof (track_absent s _ HI Hnone) as [T1 _ T3 T4].
      constructor; [done|apply frame_refl|done..]. }
    assert (Hp : phase s2 = phase s) by (by destruct Hfin as [_ [? ? ? ? ? ? ?] _]).
    assert (H2 : Inv s2) by (by eapply (inv_launch s)).
    destruct (IH s2) as [? ->]; [done|by unfold not_idle; rewrite Hp|done].
Qed.

Lemma inv_launchNext now s :
  Inv s → not_idle s → Inv (launchNextSubTaskIfPossible taskId signal now s).
Proof.
  intros HI Hn. unfold launchNextSubTaskIfPossible.
  destruct (is_aborted signal s).
  - case_decide; [by apply inv_resolve|done].
  - cbv zeta.
    destruct (inv_launch_loop now
                (totalSubTasks (sched s) - currentSubTaskIndex (sched s)) s HI Hn)
      as [H1 _].
    case_bool_decide; [by apply inv_resolve, inv_removeListener|done].
Qed.

Lemma inv_wrapper_finally now i s :
  Inv s → wrappers s !! i = Some WSettled →
  Inv (wrapper_finally taskId signal now i s).
Proof.
  intros HI Hi. pose proof HI as [I1 I2 I3 I4 I5 I6 I7].
  unfold wrapper_finally.
  set (s1 := with_sched finished_sched (with_wrappers (delete i) s)).
  assert (Hn : not_idle s1).
  { split; intros Hp; (rewrite I7 in Hi; [by rewrite lookup_empty in Hi|]);
      unfold s1 in Hp; frame_simpl; auto. }
  assert (H1 : Inv s1).
  { pose proof (track_wrapper s i WSettled HI Hi) as [_ _ HN HK]. simpl in *.
    constructor; unfold s1; frame_simpl.
    - done.
    - simpl. rewrite I2, map_size_delete, Hi. done.
    - simpl. lia.
    - intros j Hj. simpl. destruct (decide (j = i)) as [->|Hne].
      + rewrite lookup_delete_eq in Hj. by destruct Hj.
      + rewrite lookup_delete_ne in Hj by done. auto.
    - intros j x Hx Ha. destruct (decide (j = i)) as [->|Hne].
      + rewrite (HN eq_refl x Hx) in Ha. done.
      + frame_simpl. rewrite lookup_delete_ne by done. exact (I5 j x Hx Ha).
    - intros j. destruct (decide (j = i)) as [->|Hne].
      + left. by apply HK.
      + destruct (I6 j) as [?|?]; [by left|right].
        frame_simpl. by rewrite lookup_delete_ne.
    - intros Hp. destruct Hn as [? ?]. by destruct Hp. }
  cbv zeta.
  repeat case_match;
    first [ by apply inv_resolve, inv_removeListener
          | by apply inv_launchNext
          | done ].
Qed.

Lemma subTasks_of_set_controllers m v tid :
  subTasks_of (set_taskAbortControllers m v) tid = subTasks_of v tid.
Proof. reflexivity. Qed.

Lemma finalize_signals now v :
  signals (finalizeOverallTaskStatus now taskId v) = signals v.
Proof.
  unfold finalizeOverallTaskStatus.
  destruct (transferTasks v !! taskId); [|done]. apply rollup_signals.
Qed.

Lemma finish_processing_frame now e s :
  subs (finish_processing taskId now e s) = subs s
  ∧ signals (svc (finish_processing taskId now e s)) = signals (svc s)
  ∧ wrappers (finish_processing taskId now e s) = wrappers s
  ∧ commands (finish_processing taskId now e s) = commands s
  ∧ sched (finish_processing taskId now e s) = sched s
  ∧ phase (finish_processing taskId now e s) = PFinished.
Proof.
  unfold finish_processing. cbv zeta. frame_simpl.
  rewrite subTasks_of_set_controllers, finalize_subTasks_of.
  change (signals (set_taskAbortControllers ?m ?v)) with (signals v).
  rewrite finalize_signals.
  destruct e as [[m|m]|]; frame_simpl;
    destruct (sourceSshClient s); frame_simpl;
    rewrite ?direct_subTasks_of;
    repeat split; try reflexivity; apply direct_signals.
Qed.

Lemma inv_finish_processing now e s :
  Inv s → Inv (finish_processing taskId now e s).
Proof.
  intros HI.
  destruct (finish_processing_frame now e s) as (F1 & F2 & F3 & F4 & F5 & F6).
  eapply inv_transfer; [exact HI|..].
  - by rewrite F1.
  - unfold statuses. by rewrite F1.
  - by rewrite (is_aborted_signals _ _ F2).
  - done.
  - done.
  - by rewrite F5.
  - by rewrite F5.
  - rewrite F6. intros [?|?]; congruence.
Qed.

Definition finish_status (x : SubTask.Status) : SubTask.Status :=
  if SubTask.unfinished x then SubTask.cancelled else x.

Lemma cancel_statuses now uid v :
  NoDup (SubTask.subTaskId <$> subTasks_of v taskId) →
  statuses (cancelTransferTask now taskId uid v).2 taskId
  = if (cancelTransferTask now taskId uid v).1
    then finish_status <$> statuses v taskId
    else statuses v taskId.
Proof.
  intros Hnd. rewrite cancelTransferTask_unfold.
  destruct (transferTasks v !! taskId) as [task|] eqn:E; [|done].
  case_decide; [done|].
  destruct (taskAbortControllers v !! taskId) as [sig|]; [|done]. simpl.
  assert (Hs : subTasks_of v taskId = Task.subTasks task)
    by (unfold subTasks_of; by rewrite E).
  unfold statuses. rewrite <- Hs.
  rewrite <- (cancel_prefix_subTasks now taskId sig task v taskId) at 1.
  rewrite cancel_loop_subTasks.
  - rewrite firstn_all, drop_all, app_nil_r, cancel_prefix_subTasks.
    rewrite <- !list_fmap_compose. apply list_fmap_ext.
    intros ? st _. simpl. apply cancel_one_status.
  - by rewrite cancel_prefix_subTasks.
  - done.
Qed.

Lemma inv_cancel now uid s :
  Inv s → Inv (with_svc (λ v, (cancelTransferTask now taskId uid v).2) s).
Proof.
  intros HI. pose proof HI as [I1 I2 I3 I4 I5 I6 I7].
  set (s1 := with_svc (λ v, (cancelTransferTask now taskId uid v).2) s).
  assert (Hreach : reach (svc s) (svc s1))
    by (unfold s1; frame_simpl; apply reach_cancel, rtc_refl).
  assert (Hids : ids s1 = ids s) by (by apply evolves_ids, reach_evolves).
  assert (Hab : is_aborted signal s = true → is_aborted signal s1 = true)
    by (by apply reach_signals).
  assert (Hst : sts s1 = sts s ∨ sts s1 = finish_status <$> sts s).
  { unfold s1. frame_simpl. rewrite cancel_statuses by done.
    destruct (cancelTransferTask _ _ _ _).1; auto. }
  constructor; try done.
  - by rewrite Hids.
  - intros j x Hx Ha. destruct Hst as [Hst|Hst]; rewrite Hst in Hx.
    + exact (I5 j x Hx Ha).
    + rewrite list_lookup_fmap in Hx.
      destruct (sts s !! j) as [y|]; [|done]. injection Hx as <-.
      unfold finish_status in Ha. by destruct y.
  - intros j.
    destruct (I6 j) as [[Hn|[Ha|Hk]]|Hw];
      [left; left; exact Hn|left; right; left; auto| |right; exact Hw].
    left. right; right. intros x Hx.
    destruct Hst as [Hst|Hst]; rewrite Hst in Hx; [by apply Hk|].
    rewrite list_lookup_fmap in Hx.
    destruct (sts s !! j) as [y|] eqn:E; [|done]. injection Hx as <-.
    specialize (Hk y E). unfold finish_status. by destruct y.
Qed.

Lemma inv_cancel_event now uid s :
  Inv s → Inv (cancel_event taskId signal now uid s).
Proof.
  intros HI. unfold cancel_event. cbv zeta.
  pose proof (inv_cancel now uid s HI) as H1.
  destruct (negb _ && _); [|done].
  destruct (onAbortOverall _).
  - case_decide; [apply inv_add_log|];
      by apply inv_reject, inv_removeListener.
  - case_decide; [by apply inv_add_log|done].
Qed.

Lemma inv_start_scheduler now s :
  Inv s → phase s = PSourceConnect → is_aborted signal s = false →
  Inv (start_scheduler taskId signal now s).
Proof.
  intros HI Hp Ha. pose proof HI as [I1 I2 I3 I4 I5 I6 I7].
  unfold start_scheduler.
  destruct (the_task taskId s) as [task|]; [|done]. cbv zeta.
  set (s1 := with_sched _ (set_phase PScheduling s)).
  assert (Hw : wrappers s = ∅) by auto.
  assert (H1 : Inv s1).
  { constructor; unfold s1; frame_simpl; try done.
    - simpl. by rewrite Hw, map_size_empty.
    - simpl. unfold MAX_CONCURRENT_SUB_TASKS. lia.
    - intros j Hj. rewrite Hw, lookup_empty in Hj. by destruct Hj. }
  assert (Hn : not_idle s1) by (split; unfold s1; frame_simpl; congruence).
  case_decide; [by apply inv_resolve, inv_removeListener|].
  change (is_aborted signal s1) with (is_aborted signal s). rewrite Ha.
  by apply inv_launchNext.
Qed.

(** A progress report of a command whose promise is still awaited, or is
    settled already. *)
Lemma inv_progress now i p m s :
  Inv s → is_Some (commands s !! i) → is_aborted signal s = false →
  Inv (update taskId now i SubTask.transferring p m s).
Proof.
  intros HI [c Hc] Ha. pose proof HI as [I1 I2 I3 I4 I5 I6 I7].
  destruct (I6 i) as [[?|[?|Hk]]|(ph & Hph & Hcmd)]; try congruence.
  - destruct (update_frame now i SubTask.transferring p m s)
      as (F1 & F2 & F3 & F4 & F5 & F6 & _).
    eapply inv_transfer; [exact HI|..].
    + done.
    + rewrite update_sts by done.
      destruct (sts s !! i) as [old|] eqn:E; [|done].
      unfold blocked. rewrite (Hk old E). done.
    + by rewrite (is_aborted_signals _ _ F1).
    + done.
    + done.
    + by rewrite F5.
    + by rewrite F5.
    + by rewrite F6.
  - eapply (inv_local i s); [done|].
    pose proof (track_update i s s false false now SubTask.transferring p m
                  (track_init s i HI)) as [_ Hf _ _].
    destruct (update_frame now i SubTask.transferring p m s)
      as (F1 & F2 & F3 & F4 & F5 & F6 & _).
    constructor; [done|by rewrite F3| |].
    + intros x Hx Hact. exists ph. rewrite F3. split; [done|]. by destruct ph.
    + right. exists ph. by rewrite F3.
Qed.

(** An event of sub-task [i] that leaves its wrapper alone. *)
Lemma local_untouched i s0 s n k :
  Inv s0 → Track i s0 s n k →
  wrappers s !! i = wrappers s0 !! i →
  n = true ∨ sts s !! i = sts s0 !! i →
  k = true ∨ (∃ ph, wrappers s0 !! i = Some ph ∧ is_command ph = true) →
  Inv s.
Proof.
  intros HI [Hnd Hf HN HK] Hw Hn Hk. pose proof HI as [I1 I2 I3 I4 I5 I6 I7].
  eapply (inv_local i s0); [done|]. constructor; [done|by rewrite Hw| |].
  - intros x Hx Ha. destruct Hn as [Hn|Hn].
    + rewrite (HN Hn x Hx) in Ha. done.
    + rewrite Hw. rewrite Hn in Hx. exact (I5 i x Hx Ha).
  - destruct Hk as [Hk|Hk]; [left; auto|right; by rewrite Hw].
Qed.

Lemma track_insert_existing i s0 s n c0 c :
  commands s !! i = Some c0 →
  Track i s0 s n true → Track i s0 (with_commands (insert i c) s) n true.
Proof.
  intros Hc H.
  pose proof (track_commands i s0 s n true (insert i c)
                (λ m j Hj, lookup_insert_ne m i j c (not_eq_sym Hj)) H) as H'.
  rewrite Hc in H'.
  rewrite (bool_decide_eq_true_2 (Some c0 = None → _)) in H' by done.
  exact H'.
Qed.

Lemma update_wrapper_at now i new p m s :
  wrappers (update taskId now i new p m s) !! i = wrappers s !! i.
Proof. by destruct (update_frame now i new p m s) as (_ & _ & -> & _). Qed.

Ltac fin :=
  lazymatch goal with
  | |- Final _ _ (wrapper_catch _ _ _ _ _) =>
      eapply (wrapper_catch_final _ _ _ false); track_to
  | |- Final _ _ (exec_throw _ _ _ _ _ _) =>
      first [ eapply (exec_throw_final _ _ _ false true); [track_to|by left]
            | eapply (exec_throw_final _ _ _ false false);
              [track_to
              |first [right; left; assumption|right; right; reflexivity]] ]
  | |- Final _ _ (exec_finally _ _ _ _ _ _) => eapply exec_finally_final; track_to
  | |- Final _ _ (enter_execute _ _ _ _ _) =>
      eapply (enter_execute_final _ _ _ false); track_to
  | |- Final _ _ (select_tool _ _ _ _ _ _ _ _) =>
      eapply (select_tool_final _ _ _ false); track_to
  | |- Final _ _ (after_target_probe _ _ _ _ _ _ _ _) =>
      eapply (after_target_probe_final _ _ _ false); track_to
  | |- Final _ _ (broker_credentials _ _ _ _ _ _ _ _) =>
      eapply (broker_credentials_final _ _ _ false); track_to
  | |- Final _ _ (after_upload _ _ _ _ _ _ _ _ _) =>
      eapply (after_upload_final _ _ _ false); track_to
  | |- Final _ _ (set_wrapper _ _ _) => final_here
  end.

(** An event of the wrapper of sub-task [i], which is suspended at [ph]. *)
Ltac local_event HI :=
  lazymatch goal with
  | Hw : wrappers ?s !! ?i = Some ?ph |- Inv _ =>
      let Ht := fresh "Ht" in
      eapply (inv_local i s); [exact HI|];
      apply final_local; [rewrite Hw; eauto|];
      pose proof (track_wrapper _ _ _ HI Hw) as Ht; simpl in Ht; fin
  end.

Ltac split_step H :=
  cbv zeta in H;
  repeat lazymatch type of H with
         | match ?x with _ => _ end = _ => destruct x eqn:?; try discriminate H
         end;
  apply (inj Some) in H; subst.

Lemma step_inv_wrapper now ev s s' :
  Inv s →
  match ev with
  | EvTargetCredentials _ _ | EvProbe _ _ | EvMkdir _ _ _ | EvAbortObserved _
  | EvUpload _ _ | EvTimeout _ | EvDelete _ _ => True
  | _ => False
  end →
  step taskId signal now ev s = Some s' → Inv s'.
Proof.
  intros HI Hev Hstep.
  destruct ev; try done; unfold step in Hstep; split_step Hstep;
    local_event HI.
Qed.

Lemma track_K i s n k : Track i s s n k → K i s → Track i s s n true.
Proof. intros [? ? ? ?] ?. constructor; auto. Qed.

(** The callbacks of a command that was issued for sub-task [i]. *)
Lemma step_inv_command now ev s s' :
  Inv s →
  match ev with
  | EvExecCallback _ _ | EvData _ _ | EvClose _ _ _ | EvStreamError _ _ => True
  | _ => False
  end →
  step taskId signal now ev s = Some s' → Inv s'.
Proof.
  intros HI Hev Hstep.
  destruct ev; try done; unfold step in Hstep; split_step Hstep;
    try exact HI;
    try (apply inv_progress; [exact HI|eauto|assumption]);
    try local_event HI;
    pose proof (track_init s i HI) as Ht0.
  all: try (eapply (local_untouched i s _ false true);
            [exact HI|track_to|by rewrite ?update_wrapper_at|by right|by left]).
  all: try (eapply (local_untouched i s _ true true);
            [exact HI|track_to|by rewrite ?update_wrapper_at|by left|by left]).
  all: destruct (inv_cmd _ HI i) as [HK|HW];
    [eapply (local_untouched i s _ false true);
       [exact HI
       |eapply track_insert_existing; [eassumption|by eapply track_K]
       |done|by right|by left]
    |eapply (local_untouched i s _ false false);
       [exact HI|track|done|by right|by right]].
Qed.

Lemma inv_source_found s :
  Inv s → phase s = PSourceCredentials →
  Inv (set_phase PSourceConnect (set_sourceSshClient true s)).
Proof. intros HI Hp. eapply inv_transfer; [exact HI|done..|auto]. Qed.

(** Every event keeps the invariant. *)
Lemma step_inv now ev s s' :
  Inv s → step taskId signal now ev s = Some s' → Inv s'.
Proof.
  intros HI Hstep.
  destruct ev;
    try (by eapply (step_inv_wrapper now); [exact HI| |exact Hstep]);
    try (by eapply (step_inv_command now); [exact HI| |exact Hstep]);
    unfold step in Hstep; split_step Hstep;
    first [ by apply inv_cancel_event
          | by apply inv_finish_processing
          | by apply inv_source_found
          | by apply inv_start_scheduler
          | by apply inv_wrapper_finally ].
Qed.

Lemma run_inv es s s' :
  Inv s → run taskId signal es s = Some s' → Inv s'.
Proof.
  revert s. induction es as [|[now ev] es IH]; intros s HI Hrun; simpl in Hrun.
  - by injection Hrun as <-.
  - destruct (step taskId signal now ev s) as [s1|] eqn:E; [|done].
    eapply IH; [|exact Hrun]. by eapply step_inv.
Qed.

(** The sub-tasks counted as in progress are among those with a wrapper. *)
Lemma active_bound (l : list SubTask.Status) (m : gmap nat WPhase) :
  (∀ j x, l !! j = Some x → SubTask.active x = true → is_Some (m !! j)) →
  length (filter (λ x, SubTask.active x = true) l) ≤ size m.
Proof.
  revert m. induction l as [|x l IH] using rev_ind; intros m H.
  - simpl. lia.
  - rewrite filter_app, length_app.
    assert (Hl : ∀ m', (∀ j y, l !! j = Some y → SubTask.active y = true →
                              is_Some (m' !! j)) →
                 length (filter (λ x, SubTask.active x = true) l) ≤ size m')
      by exact IH.
    destruct (SubTask.active x) eqn:A.
    + rewrite filter_cons_True, filter_nil by done. simpl.
      destruct (H (length l) x) as [ph Hph];
        [by rewrite lookup_app_r, Nat.sub_diag|done|].
      specialize (Hl (delete (length l) m)).
      rewrite map_size_delete, Hph in Hl.
      assert (size m ≠ 0) by (intros Hz; apply map_size_empty_inv in Hz;
                              by rewrite Hz, lookup_empty in Hph).
      assert (length (filter (λ x, SubTask.active x = true) l) ≤ pred (size m)).
      { apply Hl. intros j y Hy Ay.
        rewrite lookup_delete_ne by (apply lookup_lt_Some in Hy; lia).
        apply (H j y); [|done]. by rewrite lookup_app_l by (by eapply lookup_lt_Some). }
      lia.
    + rewrite filter_cons_False, filter_nil by (by rewrite A). simpl.
      rewrite Nat.add_0_r. apply Hl. intros j y Hy Ay.
      apply (H j y); [|done]. by rewrite lookup_app_l by (by eapply lookup_lt_Some).
Qed.

Lemma inv_active_bound s :
  Inv s →
  length (filter (λ x, SubTask.active x = true) (sts s))
    ≤ MAX_CONCURRENT_SUB_TASKS.
Proof.
  intros [I1 I2 I3 I4 I5 I6 I7].
  etrans; [apply (active_bound _ (wrappers s))|by rewrite <- I2].
  intros j x Hx Ha. destruct (I5 j x Hx Ha) as (ph & -> & _). eauto.
Qed.

End ConcurrencyBound.

Lemma active_count l :
  length (filter (λ x, SubTask.active x = true) (SubTask.status <$> l))
  = count_status SubTask.connecting l + count_status SubTask.transferring l.
Proof.
  induction l as [|st l IH]; [done|].
  rewrite !count_status_cons, fmap_cons, filter_cons.
  destruct (SubTask.status st); simpl in *; rewrite IH; lia.
Qed.

Lemma initiate_sched uuid now payload userId v :
  sched (initiateNewTransfer uuid now payload userId v).2
  = mkSched 0 0 0 Pending false.
Proof.
  unfold initiateNewTransfer, start_processing. simpl.
  by repeat case_match.
Qed.

(** The invariant holds when [initiateNewTransfer] returns. *)
Lemma initiate_inv uuid now payload userId v :
  NoDup (uuid <$> seq 1 (length (connectionIds payload)
                         * length (sourceItems payload))) →
  Inv (uuid 0) (length (signals v))
      (initiateNewTransfer uuid now payload userId v).2.
Proof.
  intros Hnd.
  destruct (initiate_state uuid now payload userId v)
    as (Hsubs & _ & _ & _ & _ & Hp & Hw & Hc & _).
  destruct (new_subTasks_spec uuid now payload) as (_ & Hids & Hq).
  pose proof (initiate_sched uuid now payload userId v) as Hs.
  set (s0 := (initiateNewTransfer uuid now payload userId v).2) in *.
  assert (Hst : ∀ j x, statuses (svc s0) (uuid 0) !! j = Some x →
                       SubTask.active x = false).
  { intros j x. unfold statuses. rewrite Hsubs, list_lookup_fmap.
    destruct (new_subTasks uuid now payload !! j) as [st|] eqn:E; [|done].
    intros [= <-]. rewrite Forall_lookup in Hq.
    destruct (Hq j st E) as [-> _]. done. }
  constructor.
  - by rewrite Hsubs, Hids.
  - by rewrite Hs, Hw, map_size_empty.
  - rewrite Hs. simpl. unfold MAX_CONCURRENT_SUB_TASKS. lia.
  - intros j. rewrite Hw, lookup_empty. by intros [? ?].
  - intros j x Hx Ha. rewrite (Hst j x Hx) in Ha. done.
  - intros j. left. left. by rewrite Hc, lookup_empty.
  - done.
Qed.

(** C8: at every instant of the processing of a task, that is after every
    run of events (callbacks of its sub-tasks' executions, of its commands,
    of the scheduler, and cancellations) from the state in which
    [initiateNewTransfer] leaves it, the number of its sub-tasks in state
    connecting or transferring is at most [MAX_CONCURRENT_SUB_TASKS], which
    is 5.  The sub-task ids generated for the task are distinct. *)
Theorem concurrency_bound uuid now payload userId v es s :
  NoDup (uuid <$> seq 1 (length (connectionIds payload)
                         * length (sourceItems payload))) →
  run (uuid 0) (length (signals v)) es
      (initiateNewTransfer uuid now payload userId v).2 = Some s →
  count_status SubTask.connecting (subTasks_of (svc s) (uuid 0))
  + count_status SubTask.transferring (subTasks_of (svc s) (uuid 0))
    ≤ MAX_CONCURRENT_SUB_TASKS
  ∧ MAX_CONCURRENT_SUB_TASKS = 5.
Proof.
  intros Hnd Hrun. split; [|reflexivity].
  rewrite <- active_count.
  apply (inv_active_bound (uuid 0) (length (signals v))).
  eapply run_inv; [|exact Hrun]. by apply initiate_inv.
Qed.

Lemma concurrency_bound_witness :
  ∃ s, demo_run [(1, EvSourceCredentials (Found demo_target));
                 (2, EvSourceConnected None)] seven_items = Some s
       ∧ count_status SubTask.connecting (subTasks_of (svc s) "task-0")
         + count_status SubTask.transferring (subTasks_of (svc s) "task-0")
           ≤ MAX_CONCURRENT_SUB_TASKS
       ∧ MAX_CONCURRENT_SUB_TASKS = 5.
Proof.
  destruct (demo_run _ seven_items) as [s|] eqn:E;
    [|vm_compute in E; discriminate].
  exists s. split; [reflexivity|].
  apply (concurrency_bound demo_uuid 0 seven_items (UserNum 1) empty_service
           [(1, EvSourceCredentials (Found demo_target));
            (2, EvSourceConnected None)] s).
  - apply (bool_decide_unpack _). vm_compute. exact I.
  - exact E.
Defined.

(** ** Temporary key files on the source host *)

(** The value of [tempTargetKeyPathOnSource] in a suspended execution. *)
Definition pending_key (ph : WPhase) : option string :=
  match ph with
  | WUpload _ _ _ p => Some p
  | WCommand _ tempTargetKeyPathOnSource => tempTargetKeyPathOnSource
  | _ => None
  end.

(** [op] plants the key file [p] for the execution of sub-task [i]. *)
Definition key_planted (op : RemoteOp) (i : nat) (p : string) : Prop :=
  op = OpUploadKey i p ∨ op = OpKeyUploaded i p.

(** After position [k] of the log, the deletion of [p] was requested by
    the execution of sub-task [i]. *)
Definition removal_after (l : list RemoteOp) (k i : nat) (p : string) : Prop :=
  ∃ k', k < k' ∧ l !! k' = Some (OpDeleteFile i p).

(** Every planted key file was deleted later, or is the one the execution
    still holds in [tempTargetKeyPathOnSource] ([q i]). *)
Definition Owed (l : list RemoteOp) (q : nat → option string) : Prop :=
  ∀ k i p op, l !! k = Some op → key_planted op i p →
              removal_after l k i p ∨ q i = Some p.

Definition keys_of (w : gmap nat WPhase) (i : nat) : option string :=
  w !! i ≫= pending_key.

Definition local_keys (i : nat) (q : option string) (w : gmap nat WPhase)
    (j : nat) : option string :=
  if decide (j = i) then q else keys_of w j.

Definition J (s : Proc) : Prop := Owed (log s) (keys_of (wrappers s)).

(** The same while the code of the execution of sub-task [i] runs, with
    [q] the current value of its [tempTargetKeyPathOnSource]. *)
Definition DebtAt (i : nat) (q : option string) (s : Proc) : Prop :=
  Owed (log s) (local_keys i q (wrappers s)).

Lemma owed_mono l q q' :
  Owed l q → (∀ i p, q i = Some p → q' i = Some p) → Owed l q'.
Proof.
  intros H Hq k i p op Hk Hop.
  destruct (H k i p op Hk Hop) as [?|?]; [by left|right; auto].
Qed.

Lemma removal_after_app l l' k i p :
  removal_after l k i p → removal_after (l ++ l') k i p.
Proof.
  intros (k' & Hlt & Hk'). exists k'. split; [done|].
  by apply lookup_app_l_Some.
Qed.

Lemma owed_snoc l q op :
  Owed l q → (∀ i p, key_planted op i p → q i = Some p) → Owed (l ++ [op]) q.
Proof.
  intros H Hop k i p op' Hk Hpl.
  destruct (decide (k < length l)) as [Hlt|Hge].
  - rewrite lookup_app_l in Hk by done.
    destruct (H k i p op' Hk Hpl) as [?|?]; [left|by right].
    by apply removal_after_app.
  - rewrite lookup_app_r in Hk by lia.
    destruct (k - length l) as [|n] eqn:E; [|done].
    injection Hk as <-. right. auto.
Qed.

Lemma owed_delete l q q' i p :
  Owed l q →
  (∀ j p', q j = Some p' → (j = i ∧ p' = p) ∨ q' j = Some p') →
  Owed (l ++ [OpDeleteFile i p]) q'.
Proof.
  intros H Hq k j p' op Hk Hpl.
  destruct (decide (k < length l)) as [Hlt|Hge].
  - rewrite lookup_app_l in Hk by done.
    destruct (H k j p' op Hk Hpl) as [?|Hj]; [left; by apply removal_after_app|].
    destruct (Hq j p' Hj) as [[-> ->]|?]; [left|by right].
    exists (length l). split; [done|].
    by rewrite lookup_app_r, Nat.sub_diag.
  - rewrite lookup_app_r in Hk by lia.
    destruct (k - length l) as [|n] eqn:E; [|done].
    injection Hk as <-. by destruct Hpl.
Qed.

Lemma J_same s s' :
  J s → log s' = log s → wrappers s' = wrappers s → J s'.
Proof. unfold J. by intros H -> ->. Qed.

Lemma dat_same i q s s' :
  DebtAt i q s → log s' = log s →
  (∀ j, j ≠ i → wrappers s' !! j = wrappers s !! j) →
  DebtAt i q s'.
Proof.
  unfold DebtAt. intros H -> Hw. eapply owed_mono; [exact H|].
  intros j p. unfold local_keys, keys_of. case_decide; [done|].
  by rewrite Hw.
Qed.

Lemma dat_of_J i s : J s → DebtAt i (keys_of (wrappers s) i) s.
Proof.
  intros H. eapply owed_mono; [exact H|].
  intros j p. unfold local_keys. case_decide; by subst.
Qed.

Lemma J_of_dat i q ph s :
  DebtAt i q s → q = None ∨ pending_key ph = q → J (set_wrapper i ph s).
Proof.
  intros H Hq. eapply owed_mono; [exact H|].
  intros j p. unfold local_keys, keys_of. frame_simpl.
  case_decide as Hj.
  - subst j. rewrite lookup_insert_eq. simpl. intros ->.
    by destruct Hq as [?| ->].
  - by rewrite lookup_insert_ne.
Qed.

Lemma J_of_dat_none i s : DebtAt i None s → J s.
Proof.
  intros H. eapply owed_mono; [exact H|].
  intros j p. unfold local_keys. by case_decide.
Qed.

Lemma dat_log i q op s :
  DebtAt i q s → (∀ j p, key_planted op j p → j = i ∧ q = Some p) →
  DebtAt i q (add_log op s).
Proof.
  intros H Hop. apply owed_snoc; [exact H|].
  intros j p Hpl. destruct (Hop j p Hpl) as [-> ->].
  unfold local_keys. by rewrite decide_True.
Qed.

Lemma dat_upload i p s :
  DebtAt i None s → DebtAt i (Some p) (add_log (OpUploadKey i p) s).
Proof.
  intros H. apply owed_snoc.
  - eapply owed_mono; [exact H|].
    intros j p'. unfold local_keys. by case_decide.
  - intros j p' [Hu|Hu]; [|done]. injection Hu as -> ->.
    unfold local_keys. by rewrite decide_True.
Qed.

Lemma dat_delete i p s :
  DebtAt i (Some p) s → DebtAt i None (add_log (OpDeleteFile i p) s).
Proof.
  intros H. eapply owed_delete; [exact H|].
  intros j p'. unfold local_keys. case_decide; [|by right].
  intros [= ->]. by left.
Qed.

Lemma J_log op s :
  J s → (∀ j p, ¬ key_planted op j p) → J (add_log op s).
Proof. intros H Hop. apply owed_snoc; [exact H|]. intros j p Hpl. by destruct (Hop j p). Qed.

Section CredentialCleanup.

Variable taskId : string.
Variable signal : nat.

Lemma dat_update i q now j new p m s :
  DebtAt i q s → DebtAt i q (update taskId now j new p m s).
Proof.
  intros H.
  destruct (update_frame taskId now j new p m s) as (_ & _ & Hw & _ & _ & _ & Hl).
  eapply dat_same; [exact H|done|]. intros. by rewrite Hw.
Qed.

Lemma dat_method i q j u s :
  DebtAt i q s → DebtAt i q (set_method_used taskId j u s).
Proof.
  intros H.
  destruct (method_frame taskId j u s) as (_ & _ & _ & Hw & _ & _ & _ & Hl).
  eapply dat_same; [exact H|done|]. intros. by rewrite Hw.
Qed.

Lemma dat_commands i q f s : DebtAt i q s → DebtAt i q (with_commands f s).
Proof. intros H. by eapply dat_same. Qed.

Lemma dat_exec i q j tool pty s :
  DebtAt i q s → DebtAt i q (add_log (OpExec j tool pty) s).
Proof. intros H. apply dat_log; [done|]. by intros ? ? [?|?]. Qed.

Lemma dat_uploaded i p s :
  DebtAt i (Some p) s → DebtAt i (Some p) (add_log (OpKeyUploaded i p) s).
Proof.
  intros H. apply dat_log; [done|]. intros j p' [Hu|Hu]; [done|].
  by injection Hu as -> ->.
Qed.

Ltac dat :=
  repeat lazymatch goal with
         | |- DebtAt _ _ (update _ _ _ _ _ _ _) => apply dat_update
         | |- DebtAt _ _ (set_method_used _ _ _ _) => apply dat_method
         | |- DebtAt _ _ (with_commands _ _) => apply dat_commands
         | |- DebtAt _ _ (add_log (OpExec _ _ _) _) => apply dat_exec
         | |- DebtAt _ _ (add_log (OpKeyUploaded _ _) _) => apply dat_uploaded
         | |- DebtAt _ _ (add_log (OpUploadKey _ _) _) => apply dat_upload
         | |- DebtAt _ _ (add_log (OpDeleteFile _ _) _) => apply dat_delete
         end;
  try eassumption.

Ltac done_J := eapply J_of_dat; [dat|first [by left|by right]].

Lemma wrapper_catch_J i now e s :
  DebtAt i None s → J (wrapper_catch taskId now i e s).
Proof. intros H. unfold wrapper_catch. repeat case_match; done_J. Qed.

Lemma exec_finally_J i now tp pending s :
  DebtAt i tp s → J (exec_finally taskId now i tp pending s).
Proof.
  intros H. unfold exec_finally. destruct tp as [p|]; [done_J|].
  destruct pending; [by apply wrapper_catch_J|done_J].
Qed.

Lemma exec_throw_J i now e tp s :
  DebtAt i tp s → J (exec_throw taskId now i e tp s).
Proof.
  intros H. unfold exec_throw. apply exec_finally_J. repeat case_match; dat.
Qed.

Lemma run_command_J i now tool tp pty s :
  DebtAt i tp s → J (run_command taskId now i tool tp pty s).
Proof. intros H. unfold run_command. done_J. Qed.

Lemma after_tool_J i now tc sp tool s :
  DebtAt i None s → J (after_tool taskId now i tc sp tool s).
Proof. intros H. unfold after_tool. cbv zeta. done_J. Qed.

Lemma choose_scp_J i now tc sp sc s :
  DebtAt i None s → J (choose_scp taskId now i tc sp sc s).
Proof.
  intros H. unfold choose_scp.
  destruct sc; [by apply after_tool_J|by apply exec_throw_J].
Qed.

Ltac leave_J :=
  lazymatch goal with
  | |- J (wrapper_catch _ _ _ _ _) => apply wrapper_catch_J; dat
  | |- J (exec_throw _ _ _ _ _ _) => apply exec_throw_J; dat
  | |- J (exec_finally _ _ _ _ _ _) => apply exec_finally_J; dat
  | |- J (run_command _ _ _ _ _ _ _) => apply run_command_J; dat
  | |- J (after_tool _ _ _ _ _ _ _) => apply after_tool_J; dat
  | |- J (choose_scp _ _ _ _ _ _ _) => apply choose_scp_J; dat
  | |- J (set_wrapper _ _ _) => done_J
  end.

Lemma select_tool_J i now tc sp rs sc s :
  DebtAt i None s → J (select_tool taskId now i tc sp rs sc s).
Proof. intros H. unfold select_tool. repeat case_match; leave_J. Qed.

Lemma after_target_probe_J i now tc sp sc rt s :
  DebtAt i None s → J (after_target_probe taskId now i tc sp sc rt s).
Proof. intros H. unfold after_target_probe. repeat case_match; leave_J. Qed.

Lemma enter_execute_J i now tc s :
  DebtAt i None s → J (enter_execute taskId now i tc s).
Proof. intros H. unfold enter_execute. done_J. Qed.

Lemma broker_credentials_J i now tc sp tool rand s :
  DebtAt i None s → J (broker_credentials taskId now i tc sp tool rand s).
Proof. intros H. unfold broker_credentials. repeat case_match; leave_J. Qed.

Lemma after_upload_J i now tc sp tool p s :
  DebtAt i (Some p) s → J (after_upload taskId signal now i tc sp tool p s).
Proof.
  intros H. unfold after_upload. cbv zeta.
  pose proof (dat_uploaded i p s H) as H1.
  repeat case_match; leave_J.
Qed.

Lemma start_wrapper_J i now s :
  DebtAt i None s → J (start_wrapper taskId signal now i s).
Proof.
  intros H. unfold start_wrapper.
  repeat case_match; first [leave_J|by eapply J_of_dat_none].
Qed.

(** No wrapper was started at or beyond [currentSubTaskIndex]. *)
Definition Fresh (s : Proc) : Prop :=
  ∀ j, is_Some (wrappers s !! j) → j < currentSubTaskIndex (sched s).

Lemma fresh_same s s' :
  Fresh s → wrappers s' = wrappers s →
  currentSubTaskIndex (sched s) ≤ currentSubTaskIndex (sched s') → Fresh s'.
Proof. intros H Hw Hi j Hj. rewrite Hw in Hj. specialize (H j Hj). lia. Qed.

Lemma J_update now j new p m s : J s → J (update taskId now j new p m s).
Proof.
  intros H.
  destruct (update_frame taskId now j new p m s) as (_ & _ & Hw & _ & _ & _ & Hl).
  by eapply J_same.
Qed.

Lemma set_wrapper_update_frame now i ph st p m s :
  sched (set_wrapper i ph (update taskId now i st p m s)) = sched s
  ∧ ∀ j, j ≠ i →
      wrappers (set_wrapper i ph (update taskId now i st p m s)) !! j
      = wrappers s !! j.
Proof.
  destruct (update_frame taskId now i st p m s) as (_ & _ & Hw & _ & Hs & _).
  frame_simpl. split; [done|]. intros j Hj.
  by rewrite lookup_insert_ne, Hw.
Qed.

Lemma start_wrapper_frame now i s :
  sched (start_wrapper taskId signal now i s) = sched s
  ∧ ∀ j, j ≠ i →
      wrappers (start_wrapper taskId signal now i s) !! j = wrappers s !! j.
Proof.
  unfold start_wrapper.
  repeat case_match; first [apply set_wrapper_update_frame|done].
Qed.

Lemma J_launch_loop now fuel s :
  Fresh s → J s → J (launch_loop taskId signal now fuel s).
Proof.
  revert s. induction fuel as [|fuel IH]; intros s HF HJ; simpl; [done|].
  case_bool_decide as Hc; [|done].
  destruct (subTask_at taskId s (currentSubTaskIndex (sched s))) as [st|] eqn:E;
    [|done].
  case_decide as Hcan.
  - set (s1 := with_sched skip_sched s).
    assert (HF1 : Fresh s1) by (eapply fresh_same; [exact HF|done|simpl; lia]).
    assert (HJ1 : J s1) by (by eapply J_same).
    case_bool_decide; apply IH; try done.
    eapply fresh_same; [exact HF1|done|]. simpl.
    destruct (allTasksCompleted (sched s)); simpl; lia.
  - set (i := currentSubTaskIndex (sched s)).
    set (s1 := with_sched launch_sched s).
    destruct (start_wrapper_frame now i s1) as [Hs Hw].
    assert (Hnone : wrappers s !! i = None).
    { apply eq_None_not_Some. intros Hi. specialize (HF i Hi). unfold i in HF. lia. }
    apply IH.
    + intros j Hj. rewrite Hs. simpl. fold i.
      destruct (decide (j = i)) as [->|Hne]; [lia|].
      rewrite Hw in Hj by done. specialize (HF j Hj). fold i in HF. lia.
    + apply start_wrapper_J.
      pose proof (dat_of_J i s HJ) as Hd. unfold keys_of in Hd.
      rewrite Hnone in Hd. by eapply dat_same.
Qed.

Lemma J_launchNext now s :
  Fresh s → J s → J (launchNextSubTaskIfPossible taskId signal now s).
Proof.
  intros HF HJ. unfold launchNextSubTaskIfPossible.
  destruct (is_aborted signal s).
  - case_decide; [by eapply J_same|done].
  - cbv zeta.
    pose proof (J_launch_loop now
                  (totalSubTasks (sched s) - currentSubTaskIndex (sched s)) s HF HJ).
    case_bool_decide; [by eapply J_same|done].
Qed.

Lemma J_wrapper_finally now i s :
  Fresh s → J s → wrappers s !! i = Some WSettled →
  J (wrapper_finally taskId signal now i s).
Proof.
  intros HF HJ Hi. unfold wrapper_finally.
  set (s1 := with_sched finished_sched (with_wrappers (delete i) s)).
  assert (HF1 : Fresh s1).
  { intros j Hj. unfold s1 in *. frame_simpl. simpl.
    apply HF. destruct (decide (j = i)) as [->|Hne]; [by rewrite Hi|].
    by rewrite lookup_delete_ne in Hj. }
  assert (HJ1 : J s1).
  { eapply owed_mono; [exact HJ|]. intros j p. unfold s1, keys_of. frame_simpl.
    destruct (decide (j = i)) as [->|Hne]; [by rewrite Hi|].
    by rewrite lookup_delete_ne. }
  cbv zeta.
  repeat case_match;
    first [ by eapply J_same | by apply J_launchNext | done ].
Qed.

Lemma cancel_before_frame now l s :
  log (foldl (cancel_before_execution taskId now) s l) = log s
  ∧ wrappers (foldl (cancel_before_execution taskId now) s l) = wrappers s.
Proof.
  revert s. induction l as [|i l IH]; intros s; [done|]. simpl.
  destruct (IH (cancel_before_execution taskId now s i)) as [-> ->].
  unfold cancel_before_execution. repeat case_match; try done.
  by destruct (update_frame taskId now i SubTask.cancelled None
                 (Some "Task cancelled before sub-task execution.") s)
    as (_ & _ & -> & _ & _ & _ & ->).
Qed.

Lemma J_start_scheduler now s :
  J s → wrappers s = ∅ → J (start_scheduler taskId signal now s).
Proof.
  intros HJ Hw. unfold start_scheduler.
  destruct (the_task taskId s) as [task|]; [|done]. cbv zeta.
  set (s1 := with_sched _ (set_phase PScheduling s)).
  assert (HJ1 : J s1) by (by eapply J_same).
  assert (HF1 : Fresh s1).
  { intros j Hj. unfold s1 in Hj. frame_simpl.
    rewrite Hw, lookup_empty in Hj. by destruct Hj. }
  case_decide; [by eapply J_same|].
  destruct (is_aborted signal s1); [|by apply J_launchNext].
  destruct (cancel_before_frame now (seq 0 (length (Task.subTasks task))) s1)
    as [Hl Hw'].
  eapply J_same; [exact HJ1|..]; frame_simpl; done.
Qed.

Lemma J_finish_processing now e s :
  J s → J (finish_processing taskId now e s).
Proof.
  intros HJ. unfold finish_processing. cbv zeta.
  eapply J_same; [|reflexivity|reflexivity].
  destruct e as [[m|m]|]; frame_simpl; destruct (sourceSshClient s);
    first [ apply J_log; [by eapply J_same|by intros ? ? [?|?]]
          | by eapply J_same ].
Qed.

Lemma J_cancel_event now uid s :
  J s → J (cancel_event taskId signal now uid s).
Proof.
  intros HJ. unfold cancel_event. cbv zeta.
  repeat case_match;
    first [ apply J_log; [by eapply J_same|by intros ? ? [?|?]]
          | by eapply J_same ].
Qed.

Lemma J_commands f s : J s → J (with_commands f s).
Proof. intros H. by eapply J_same. Qed.

Ltac split_step H :=
  cbv zeta in H;
  repeat lazymatch type of H with
         | match ?x with _ => _ end = _ => destruct x eqn:?; try discriminate H
         end;
  apply (inj Some) in H; subst.

Ltac leave_execute :=
  lazymatch goal with
  | |- J (enter_execute _ _ _ _ _) => apply enter_execute_J; dat
  | |- J (select_tool _ _ _ _ _ _ _ _) => apply select_tool_J; dat
  | |- J (after_target_probe _ _ _ _ _ _ _ _) => apply after_target_probe_J; dat
  | |- J (broker_credentials _ _ _ _ _ _ _ _) => apply broker_credentials_J; dat
  | |- J (after_upload _ _ _ _ _ _ _ _ _) => apply after_upload_J; dat
  | |- _ => leave_J
  end.

Ltac local_J HJ :=
  lazymatch goal with
  | Hw : wrappers ?s !! ?i = Some ?ph |- J _ =>
      let Hd := fresh "Hd" in
      pose proof (dat_of_J i s HJ) as Hd; unfold keys_of in Hd;
      rewrite Hw in Hd; simpl in Hd; leave_execute
  end.

(** Every event keeps the invariant on the key files. *)
Lemma step_J now ev s s' :
  Inv taskId signal s → J s → step taskId signal now ev s = Some s' → J s'.
Proof.
  intros HI HJ Hstep.
  destruct ev; unfold step in Hstep; split_step Hstep;
    first [ exact HJ
          | local_J HJ
          | by apply J_cancel_event
          | by apply J_finish_processing
          | by eapply J_same
          | apply J_start_scheduler; [done|by apply (inv_idle _ _ _ HI); right]
          | apply J_wrapper_finally; [exact (inv_fresh _ _ _ HI)|done|done]
          | repeat first [apply J_update|apply J_commands]; exact HJ ].
Qed.

Lemma run_J es s s' :
  Inv taskId signal s → J s → run taskId signal es s = Some s' → J s'.
Proof.
  revert s. induction es as [|[now ev] es IH]; intros s HI HJ Hrun; simpl in Hrun.
  - by injection Hrun as <-.
  - destruct (step taskId signal now ev s) as [s1|] eqn:E; [|done].
    eapply IH; [| |exact Hrun]; [by eapply step_inv|by eapply step_J].
Qed.

(** The status of a completed or failed sub-task is the same after the
    code that follows the deletion. *)
Lemma wrapper_catch_sticky now i e s x :
  NoDup (SubTask.subTaskId <$> subTasks_of (svc s) taskId) →
  statuses (svc s) taskId !! i = Some x →
  SubTask.completed_or_failed x = true →
  statuses (svc (wrapper_catch taskId now i e s)) taskId = statuses (svc s) taskId.
Proof.
  intros Hnd Hx Hc. unfold wrapper_catch. cbv zeta.
  change (svc (set_wrapper i WSettled ?t)) with (svc t).
  destruct e as [m|m].
  - rewrite update_sts, Hx by done. unfold blocked. by rewrite Hc.
  - rewrite subTaskInstance_at by done.
    rewrite sts_lookup in Hx.
    destruct (subTask_at taskId s i) as [st|]; [|done].
    injection Hx as <-. by destruct (SubTask.status st).
Qed.

End CredentialCleanup.

Lemma initiate_J uuid now payload userId v :
  J (initiateNewTransfer uuid now payload userId v).2.
Proof.
  destruct (initiate_state uuid now payload userId v)
    as (_ & _ & _ & _ & _ & _ & _ & _ & Hl).
  unfold J. rewrite Hl. by intros k i p op Hk.
Qed.

(** C7: in every state a task's processing reaches, a temporary key file
    that the execution of sub-task [i] uploaded (or began to upload) to the
    source host at path [p] has a later deletion request for the same path
    [p] by the same execution, as soon as the execution is in the [finally]
    of [executeRemoteTransferOnSource] or has left it, whether it ended in
    success, failure or cancellation.  What follows the deletion does not
    depend on whether the deletion failed, and it leaves the status of a
    completed or failed sub-task as it is. *)
Theorem key_file_cleanup uuid now payload userId v es s :
  NoDup (uuid <$> seq 1 (length (connectionIds payload)
                         * length (sourceItems payload))) →
  run (uuid 0) (length (signals v)) es
      (initiateNewTransfer uuid now payload userId v).2 = Some s →
  (∀ k i p op,
     log s !! k = Some op → key_planted op i p →
     (∀ ph, wrappers s !! i = Some ph → unwinding ph = true) →
     removal_after (log s) k i p)
  ∧ (∀ t i err,
       step (uuid 0) (length (signals v)) t (EvDelete i (Some err)) s
       = step (uuid 0) (length (signals v)) t (EvDelete i None) s)
  ∧ (∀ t i err s' x,
       step (uuid 0) (length (signals v)) t (EvDelete i err) s = Some s' →
       statuses (svc s) (uuid 0) !! i = Some x →
       SubTask.completed_or_failed x = true →
       statuses (svc s') (uuid 0) = statuses (svc s) (uuid 0)).
Proof.
  intros Hnd Hrun.
  pose proof (initiate_inv uuid now payload userId v Hnd) as HI0.
  pose proof (run_inv _ _ _ _ _ HI0 Hrun) as HI.
  pose proof (run_J _ _ _ _ _ HI0 (initiate_J uuid now payload userId v) Hrun)
    as HJ.
  split; [|split].
  - intros k i p op Hk Hop Hph.
    destruct (HJ k i p op Hk Hop) as [?|Hq]; [done|].
    unfold keys_of in Hq.
    destruct (wrappers s !! i) as [ph|] eqn:E; [|done].
    specialize (Hph ph eq_refl). by destruct ph.
  - reflexivity.
  - intros t i err s' x Hstep Hx Hc. simpl in Hstep.
    destruct (wrappers s !! i) as [[| | | | | | | |[e|]|]|]; try done;
      injection Hstep as <-; [|done].
    eapply wrapper_catch_sticky; [exact (inv_nodup _ _ _ HI)|exact Hx|exact Hc].
Qed.

(** The state after the successful transfer with a brokered key. *)
Definition transfer_done : Proc :=
  default (demo_start demo_payload) (demo_run successful_transfer demo_payload).

Lemma key_file_cleanup_witness :
  log transfer_done !! 0 = Some (OpUploadKey 0 "/tmp/nexus_target_key_a1b2c3d4e5f6")
  ∧ removal_after (log transfer_done) 0 0 "/tmp/nexus_target_key_a1b2c3d4e5f6".
Proof.
  assert (Hrun : demo_run successful_transfer demo_payload = Some transfer_done)
    by (vm_compute; reflexivity).
  assert (Hnd : NoDup (demo_uuid <$> seq 1 (length (connectionIds demo_payload)
                                            * length (sourceItems demo_payload)))).
  { apply (bool_decide_unpack _). vm_compute. exact I. }
  assert (Hk : log transfer_done !! 0
               = Some (OpUploadKey 0 "/tmp/nexus_target_key_a1b2c3d4e5f6"))
    by (vm_compute; reflexivity).
  split; [exact Hk|].
  apply (proj1 (key_file_cleanup demo_uuid 0 demo_payload (UserNum 1)
                  empty_service successful_transfer transfer_done Hnd Hrun)
           0 0 "/tmp/nexus_target_key_a1b2c3d4e5f6" _ Hk).
  - by left.
  - intros ph Hph. vm_compute in Hph. discriminate Hph.
Defined.

(** * Further properties of the service *)

(** ** Quoting of shell arguments *)

Lemma escape_quotes_closed_inj a b :
  escape_quotes a +:+ "'" = escape_quotes b +:+ "'" → a = b.
Proof.
  revert b. induction a as [|c a IH]; intros [|d b]; simpl; [done|..].
  - destruct (Ascii.eqb_spec d "'"%char) as [->|Hd]; simpl; [done|].
    intros [= <-]. done.
  - destruct (Ascii.eqb_spec c "'"%char) as [->|Hc]; simpl; [done|].
    intros [= ->]. done.
  - destruct (Ascii.eqb_spec c "'"%char) as [->|Hc],
             (Ascii.eqb_spec d "'"%char) as [->|Hd]; simpl.
    + intros [= H]. f_equal. by apply IH.
    + intros [= <-]. done.
    + intros [= ->]. done.
    + intros [= -> H]. f_equal. by apply IH.
Qed.

(** Distinct arguments are quoted differently. *)
Theorem escapeShellArg_injective a b :
  escapeShellArg a = escapeShellArg b → a = b.
Proof.
  unfold escapeShellArg. simpl. intros [= H]. by apply escape_quotes_closed_inj.
Qed.

Lemma escapeShellArg_injective_witness :
  escapeShellArg "it's" = escapeShellArg "it's" ∧ "it's" = "it's".
Proof.
  split; [reflexivity|].
  apply (escapeShellArg_injective "it's" "it's"). reflexivity.
Defined.

(** How a POSIX shell reads a word that consists of single-quoted parts and
    backslash-escaped characters (Shell Command Language, 2.2.1 and 2.2.3):
    inside single quotes every character stands for itself up to the next
    single quote; outside, a backslash makes the next character stand for
    itself.  Any other unquoted character is refused. *)
Fixpoint posix_unquote (quoted : bool) (s : string) : option string :=
  match s with
  | EmptyString => if quoted then None else Some EmptyString
  | String c s' =>
      if quoted then
        if Ascii.eqb c "'"%char then posix_unquote false s'
        else String c <$> posix_unquote true s'
      else if Ascii.eqb c "'"%char then posix_unquote true s'
      else if Ascii.eqb c "\"%char then
        match s' with
        | String d s'' => String d <$> posix_unquote false s''
        | EmptyString => None
        end
      else None
  end.

Lemma posix_unquote_escape_quotes a :
  posix_unquote true (escape_quotes a +:+ "'") = Some a.
Proof.
  induction a as [|c a IH]; [done|]. simpl.
  destruct (Ascii.eqb_spec c "'"%char) as [->|Hc]; simpl.
  - change (EmptyString +:+ escape_quotes a) with (escape_quotes a).
    by rewrite IH.
  - destruct (Ascii.eqb_spec c "'"%char) as [?|_]; [done|]. by rewrite IH.
Qed.

(** A shell reads the quoted argument as one word whose value is the
    argument: quoting loses nothing and lets no character of the argument
    act on the shell. *)
Theorem escapeShellArg_round_trip arg :
  posix_unquote false (escapeShellArg arg) = Some arg.
Proof. unfold escapeShellArg. simpl. apply posix_unquote_escape_quotes. Qed.

(** ** Progress values *)

Definition progress_ok (st : SubTask.t) : Prop :=
  ∀ p, SubTask.progress st = Some p → (0 ≤ p ≤ 100)%Z.

Definition overall_ok (task : Task.t) : Prop :=
  ∀ p, Task.overallProgress task = Some p → (0 ≤ p ≤ 100)%Z.

Lemma update_subTask_progress_ok now new p m st :
  progress_ok st → progress_ok (update_subTask now new p m st).
Proof.
  intros H q. unfold update_subTask. cbv zeta.
  assert (Hq : ∀ st', SubTask.progress st' = Some q →
                 SubTask.progress st'
                 = match p with
                   | Some p => Some (Z.min 100 (Z.max 0 p))
                   | None => SubTask.progress st
                   end → (0 ≤ q ≤ 100)%Z).
  { intros st' E1 E2. rewrite E1 in E2. destruct p as [p|].
    - injection E2 as ->. lia.
    - by apply H. }
  destruct (_ && _), p, m; intros E; by eapply Hq.
Qed.

Lemma rewrite1_progress_ok l l' :
  rewrite1 l l' → Forall progress_ok l → Forall progress_ok l'.
Proof.
  intros H Hall.
  destruct H as [l i st now new p m Hi Hb|l i st u Hi];
    (apply Forall_insert; [done|]);
    pose proof (Forall_lookup_1 _ _ _ _ Hall Hi) as Hst.
  - by apply update_subTask_progress_ok.
  - exact Hst.
Qed.

Lemma evolves_progress_ok l l' :
  evolves l l' → Forall progress_ok l → Forall progress_ok l'.
Proof.
  induction 1 as [|l1 l2 l3 H _ IH]; [done|]. intros Hall.
  apply IH. by eapply rewrite1_progress_ok.
Qed.

Lemma totalProgress_bounds l c :
  Forall progress_ok l →
  (totalProgress c ≤ totalProgress (foldl count_subTask c l)
   ≤ totalProgress c + 100 * Z.of_nat (length l))%Z.
Proof.
  intros Hall. revert c. induction Hall as [|st l Hst _ IH]; intros c; simpl.
  - lia.
  - specialize (IH (count_subTask c st)).
    assert (totalProgress c ≤ totalProgress (count_subTask c st)
            ≤ totalProgress c + 100)%Z; [|lia].
    unfold count_subTask.
    destruct (SubTask.status st); simpl; try lia;
      destruct (SubTask.progress st) as [p|] eqn:E; simpl; try lia;
      specialize (Hst p E); lia.
Qed.

Lemma Math_round_div_bounds total n :
  0 < n → (0 ≤ total ≤ 100 * Z.of_nat n)%Z →
  (0 ≤ Math_round_div total n ≤ 100)%Z.
Proof.
  intros Hn Ht. unfold Math_round_div. split.
  - apply Z.div_pos; lia.
  - assert ((2 * total + Z.of_nat n) / (2 * Z.of_nat n) < 101)%Z; [|lia].
    apply Z.div_lt_upper_bound; lia.
Qed.

Lemma rollup_task_overall_ok now task :
  Forall progress_ok (Task.subTasks task) → overall_ok (rollup_task now task).
Proof.
  intros Hall p. unfold rollup_task. cbv zeta.
  case_decide as Hn; [by intros [= <-]|].
  pose proof (totalProgress_bounds _ (mkCounts 0 0 0 0 0%Z) Hall) as Hb.
  simpl in Hb. fold (count_subTasks (Task.subTasks task)) in Hb.
  case_decide; simpl; intros [= <-]; apply Math_round_div_bounds; lia.
Qed.

(** The task registered under [tid] has percentages as progress values. *)
Definition percentages (v : Service) (tid : string) : Prop :=
  ∀ task, transferTasks v !! tid = Some task →
          Forall progress_ok (Task.subTasks task) ∧ overall_ok task.

Lemma rollup_percentages now t v tid :
  percentages v tid →
  percentages (updateOverallTaskStatusBasedOnSubTasks now t v) tid.
Proof.
  intros H task. unfold updateOverallTaskStatusBasedOnSubTasks.
  destruct (transferTasks v !! t) as [task0|] eqn:E; [|apply H]. simpl.
  destruct (decide (t = tid)) as [->|Hne].
  - rewrite lookup_insert_eq. intros [= <-].
    destruct (H task0 E) as [Hs _].
    rewrite rollup_task_subTasks. split; [done|by apply rollup_task_overall_ok].
  - rewrite lookup_insert_ne by done. apply H.
Qed.

Lemma svc_op_percentages v v' tid :
  svc_op v v' → percentages v tid → percentages v' tid.
Proof.
  intros Hop H.
  destruct Hop as [now t sid new p m v|now t new v|now t v|sig v
                  |t task j st u v Ht Hj|t v]; try done.
  - unfold updateSubTaskStatus.
    destruct (transferTasks v !! t) as [task0|] eqn:E; [|done].
    destruct (list_find _ _) as [[i st]|] eqn:F; [|done].
    destruct (_ && _); [done|]. cbv zeta.
    apply rollup_percentages. intros task. simpl.
    destruct (decide (t = tid)) as [->|Hne].
    + rewrite lookup_insert_eq. intros [= <-]. simpl.
      destruct (H task0 E) as [Hs Ho]. split; [|done].
      apply list_find_Some in F as (Hi & _ & _).
      apply Forall_insert; [done|].
      apply update_subTask_progress_ok. by eapply Forall_lookup_1.
    + rewrite lookup_insert_ne by done. apply H.
  - intros task. unfold updateOverallTaskStatus.
    destruct (transferTasks v !! t) as [task0|] eqn:E; [|apply H].
    destruct (_ && _); [apply H|]. simpl.
    destruct (decide (t = tid)) as [->|Hne].
    + rewrite lookup_insert_eq. intros [= <-].
      destruct (H task0 E) as [Hs Ho]. by split.
    + rewrite lookup_insert_ne by done. apply H.
  - unfold finalizeOverallTaskStatus.
    destruct (transferTasks v !! t); [|done]. by apply rollup_percentages.
  - intros task'. simpl.
    destruct (decide (t = tid)) as [->|Hne].
    + rewrite lookup_insert_eq. intros [= <-]. simpl.
      destruct (H task Ht) as [Hs Ho]. split; [|done].
      apply Forall_insert; [done|].
      intros p. simpl. by apply (Forall_lookup_1 _ _ _ _ Hs Hj).
    + rewrite lookup_insert_ne by done. apply H.
Qed.

Lemma reach_percentages v v' tid :
  reach v v' → percentages v tid → percentages v' tid.
Proof.
  induction 1 as [|v1 v2 v3 H _ IH]; [done|].
  intros Hp. apply IH. by eapply svc_op_percentages.
Qed.

Lemma initiate_percentages uuid now payload userId v :
  percentages (svc (initiateNewTransfer uuid now payload userId v).2) (uuid 0).
Proof.
  intros task Ht.
  destruct (initiate_state uuid now payload userId v) as (Hsubs & _).
  destruct (new_subTasks_spec uuid now payload) as (_ & _ & Hq).
  unfold subTasks_of in Hsubs. rewrite Ht in Hsubs. simpl in Hsubs.
  assert (Hnew : ∀ st, st ∈ new_subTasks uuid now payload →
                       SubTask.progress st = None).
  { unfold new_subTasks.
    assert (Hin : ∀ c items acc,
              (∀ st, st ∈ acc → SubTask.progress st = None) →
              ∀ st, st ∈ foldl (push_subTask uuid now c) acc items →
                    SubTask.progress st = None).
    { intros c items. induction items as [|it items IH]; intros acc Hacc; [done|].
      simpl. apply IH. intros st. unfold push_subTask.
      rewrite elem_of_app, list_elem_of_singleton. intros [?| ->]; auto. }
    assert (Hout : ∀ cs acc,
              (∀ st, st ∈ acc → SubTask.progress st = None) →
              ∀ st, st ∈ foldl (λ subTasks c,
                                  foldl (push_subTask uuid now c) subTasks
                                        (sourceItems payload)) acc cs →
                    SubTask.progress st = None).
    { intros cs. induction cs as [|c cs IH]; intros acc Hacc; [done|].
      simpl. apply IH. by apply Hin. }
    apply Hout. intros st Hst. by apply elem_of_nil in Hst. }
  split.
  - rewrite Hsubs. apply Forall_forall. intros st Hst p.
    by rewrite (Hnew st Hst).
  - intros p Hp.
    unfold initiateNewTransfer, start_processing, register_task in Ht.
    simpl in Ht. rewrite lookup_insert_eq in Ht.
    destruct (aborted _ _) in Ht; simpl in Ht;
      unfold updateOverallTaskStatus in Ht; simpl in Ht;
      rewrite lookup_insert_eq in Ht; simpl in Ht;
      rewrite lookup_insert_eq in Ht; injection Ht as <-; done.
Qed.

Lemma run_percentages uuid now payload userId v es s :
  run (uuid 0) (length (signals v)) es
      (initiateNewTransfer uuid now payload userId v).2 = Some s →
  percentages (svc s) (uuid 0).
Proof.
  intros Hrun.
  eapply reach_percentages; [|apply initiate_percentages].
  exact (run_reach _ _ _ _ _ _ Hrun (rtc_refl _ _)).
Qed.

(** Whatever progress values the callbacks report (any number parsed from
    the output of the transfer tool), the progress recorded for a sub-task is
    a percentage between 0 and 100 in every state of the processing. *)
Theorem progress_is_a_percentage uuid now payload userId v es s i st p :
  run (uuid 0) (length (signals v)) es
      (initiateNewTransfer uuid now payload userId v).2 = Some s →
  subTasks_of (svc s) (uuid 0) !! i = Some st →
  SubTask.progress st = Some p →
  (0 ≤ p ≤ 100)%Z.
Proof.
  intros Hrun Hi Hp. pose proof (run_percentages _ _ _ _ _ _ _ Hrun) as H.
  unfold subTasks_of in Hi.
  destruct (transferTasks (svc s) !! uuid 0) as [task|] eqn:E; [|done].
  destruct (H task E) as [Hs _].
  exact (Forall_lookup_1 _ _ _ _ Hs Hi p Hp).
Qed.

(** A run in which the transfer tool reports 250% before it ends. *)
Definition overshooting_transfer : list (Date * Event) :=
  [(1, EvSourceCredentials (Found demo_target)); (2, EvSourceConnected None);
   (3, EvTargetCredentials 0 (Found demo_target));
   (4, EvProbe 0 None); (4, EvProbe 0 (Some "/usr/bin/rsync"));
   (4, EvProbe 0 (Some "/usr/bin/scp")); (5, EvProbe 0 (Some "/usr/bin/rsync"));
   (6, EvMkdir 0 None "a1b2c3d4e5f6"); (7, EvUpload 0 None);
   (8, EvExecCallback 0 None); (9, EvData 0 "  9,999  250%  1.2MB/s")].

Definition overshooting : Proc :=
  default (demo_start demo_payload) (demo_run overshooting_transfer demo_payload).

Lemma progress_is_a_percentage_witness :
  SubTask.progress <$> subTasks_of (svc overshooting) "task-0" !! 0
  = Some (Some 100%Z)
  ∧ (0 ≤ 100 ≤ 100)%Z.
Proof.
  assert (Hrun : demo_run overshooting_transfer demo_payload = Some overshooting)
    by (vm_compute; reflexivity).
  destruct (subTasks_of (svc overshooting) "task-0" !! 0) as [st|] eqn:E;
    [|vm_compute in E; discriminate].
  assert (Hp : SubTask.progress st = Some 100%Z).
  { assert (H : SubTask.progress <$> subTasks_of (svc overshooting) "task-0" !! 0
                = Some (Some 100%Z)) by (vm_compute; reflexivity).
    rewrite E in H. by injection H. }
  split; [simpl; by rewrite Hp|].
  exact (progress_is_a_percentage demo_uuid 0 demo_payload (UserNum 1)
           empty_service overshooting_transfer overshooting 0 st 100 Hrun E Hp).
Defined.

(** The overall progress of a task is a percentage between 0 and 100 in
    every state of the processing. *)
Theorem overallProgress_is_a_percentage uuid now payload userId v es s task p :
  run (uuid 0) (length (signals v)) es
      (initiateNewTransfer uuid now payload userId v).2 = Some s →
  transferTasks (svc s) !! uuid 0 = Some task →
  Task.overallProgress task = Some p →
  (0 ≤ p ≤ 100)%Z.
Proof.
  intros Hrun Ht Hp. pose proof (run_percentages _ _ _ _ _ _ _ Hrun) as H.
  destruct (H task Ht) as [_ Ho]. by apply Ho.
Qed.

Lemma overallProgress_is_a_percentage_witness :
  Task.overallProgress <$> transferTasks (svc overshooting) !! "task-0"
  = Some (Some 100%Z)
  ∧ (0 ≤ 100 ≤ 100)%Z.
Proof.
  assert (Hrun : demo_run overshooting_transfer demo_payload = Some overshooting)
    by (vm_compute; reflexivity).
  destruct (transferTasks (svc overshooting) !! "task-0") as [task|] eqn:E;
    [|vm_compute in E; discriminate].
  assert (Hp : Task.overallProgress task = Some 100%Z).
  { assert (H : Task.overallProgress <$> transferTasks (svc overshooting) !! "task-0"
                = Some (Some 100%Z)) by (vm_compute; reflexivity).
    rewrite E in H. by injection H. }
  split; [simpl; by rewrite Hp|].
  exact (overallProgress_is_a_percentage demo_uuid 0 demo_payload (UserNum 1)
           empty_service overshooting_transfer overshooting task 100 Hrun E Hp).
Defined.

(** ** Recomputing the rollup *)

Lemma rollup_task_idempotent now now' task :
  rollup_task now' (rollup_task now task) = rollup_task now' task.
Proof.
  destruct task as [tid st uid c u subs op pl].
  unfold rollup_task. cbv zeta. simpl.
  destruct (decide (length subs = 0)) as [Hn|Hn]; simpl.
  - by rewrite decide_True.
  - destruct (decide (st ≠ _)) as [Hs|Hs]; simpl;
      rewrite decide_False by done; simpl.
    + rewrite decide_False by (intros H; by apply H). reflexivity.
    + apply dec_stable in Hs. rewrite decide_False by (intros H; by apply H).
      reflexivity.
Qed.

(** Finalizing a task twice is the same as finalizing it once: the rollup
    depends on the sub-tasks only, not on the status the task had. *)
Theorem finalize_idempotent now now' taskId v :
  finalizeOverallTaskStatus now' taskId (finalizeOverallTaskStatus now taskId v)
  = finalizeOverallTaskStatus now' taskId v.
Proof.
  unfold finalizeOverallTaskStatus, updateOverallTaskStatusBasedOnSubTasks.
  destruct (transferTasks v !! taskId) as [task|] eqn:E; [|by rewrite E].
  simpl. rewrite lookup_insert_eq.
  unfold set_transferTasks. simpl.
  by rewrite insert_insert_eq, rollup_task_idempotent.
Qed.

(** ** The read model: [getTransferTaskDetails] and [getAllTransferTasks] *)

(** The object both functions build for a task: the fields of the task with
    a copy of its sub-tasks, and two fields lifted from the payload. *)
Record TaskDetails := mkDetails {
  td_task : Task.t;
  td_sourceConnectionId : Z;
  td_remoteTargetPath : string
}.

Definition details (task : Task.t) : TaskDetails :=
  mkDetails task (sourceConnectionId (Task.payload task))
            (remoteTargetPath (Task.payload task)).

(** [getTransferTaskDetails] *)
Definition getTransferTaskDetails
    (taskId : string) (userId : UserId) (v : Service) : option TaskDetails :=
  match transferTasks v !! taskId with
  | Some task =>
      if decide (Task.userId task = userId) then Some (details task) else None
  | None => None
  end.

(** [getAllTransferTasks].  The registry is a finite map here, which does
    not record the insertion order a [Map] iterates in: the list is the
    result up to its order. *)
Definition getAllTransferTasks (userId : UserId) (v : Service) : list TaskDetails :=
  details <$> filter (λ task, Task.userId task = userId)
                     (snd <$> map_to_list (transferTasks v)).

Lemma getAllTransferTasks_sound userId v d :
  d ∈ getAllTransferTasks userId v →
  ∃ taskId, getTransferTaskDetails taskId userId v = Some d.
Proof.
  unfold getAllTransferTasks, getTransferTaskDetails.
  rewrite list_elem_of_fmap.
  intros (task & -> & Hin). apply list_elem_of_filter in Hin as [Hu Hin].
  apply list_elem_of_fmap in Hin as ([t task'] & -> & Hin).
  apply elem_of_map_to_list in Hin. exists t. simpl in *.
  by rewrite Hin, decide_True.
Qed.

Lemma getAllTransferTasks_complete taskId userId v d :
  getTransferTaskDetails taskId userId v = Some d →
  d ∈ getAllTransferTasks userId v.
Proof.
  unfold getAllTransferTasks, getTransferTaskDetails.
  rewrite list_elem_of_fmap. intros Ht.
  destruct (transferTasks v !! taskId) as [task|] eqn:E; [|done].
  case_decide as Hu; [|done]. injection Ht as <-.
  exists task. split; [done|]. apply list_elem_of_filter. split; [done|].
  apply list_elem_of_fmap. exists (taskId, task). split; [done|].
  by apply elem_of_map_to_list.
Qed.

(** The two read functions agree: the listing of a user holds exactly the
    details that the user gets for some task id. *)
Theorem listing_agrees_with_details userId v d :
  d ∈ getAllTransferTasks userId v
  ↔ ∃ taskId, getTransferTaskDetails taskId userId v = Some d.
Proof.
  split.
  - apply getAllTransferTasks_sound.
  - intros (taskId & Ht). by eapply getAllTransferTasks_complete.
Qed.

(** No task is shown to a user who does not own it, by either function. *)
Theorem read_model_isolation userId v :
  Forall (λ d, Task.userId (td_task d) = userId) (getAllTransferTasks userId v)
  ∧ ∀ taskId task,
      transferTasks v !! taskId = Some task →
      (Task.userId task ≠ userId → getTransferTaskDetails taskId userId v = None)
      ∧ (Task.userId task = userId →
         getTransferTaskDetails taskId userId v = Some (details task)).
Proof.
  split.
  - apply Forall_forall. intros d Hd.
    apply getAllTransferTasks_sound in Hd as (t & Ht).
    unfold getTransferTaskDetails in Ht.
    destruct (transferTasks v !! t) as [task|]; [|done].
    case_decide; [|done]. by injection Ht as <-.
  - intros t task Ht. unfold getTransferTaskDetails. rewrite Ht.
    split; intros Hu; [by rewrite decide_False|by rewrite decide_True].
Qed.

(** During and after the processing of a task, its owner can read it, with
    as many sub-tasks as the request had (target, item) pairs and with the
    source and the target path of the request; nobody else can. *)
Theorem owner_reads_task uuid now payload userId v es s :
  run (uuid 0) (length (signals v)) es
      (initiateNewTransfer uuid now payload userId v).2 = Some s →
  (∃ d, getTransferTaskDetails (uuid 0) userId (svc s) = Some d
        ∧ d ∈ getAllTransferTasks userId (svc s)
        ∧ Task.taskId (td_task d) = uuid 0
        ∧ length (Task.subTasks (td_task d))
          = length (connectionIds payload) * length (sourceItems payload)
        ∧ td_sourceConnectionId d = sourceConnectionId payload
        ∧ td_remoteTargetPath d = remoteTargetPath payload)
  ∧ ∀ other, other ≠ userId →
             getTransferTaskDetails (uuid 0) other (svc s) = None.
Proof.
  intros Hrun.
  destruct (initiate_state uuid now payload userId v) as (Hsubs & Hframe & _).
  destruct (new_subTasks_spec uuid now payload) as (Hpairs & _ & _).
  set (s0 := (initiateNewTransfer uuid now payload userId v).2) in *.
  pose proof (run_reach _ _ (svc s0) _ _ _ Hrun (rtc_refl _ _)) as Hreach.
  pose proof (reach_task_frame _ _ (uuid 0) Hreach) as Hf.
  rewrite Hframe in Hf.
  pose proof (evolves_length _ _ (reach_evolves _ _ (uuid 0) Hreach)) as Hlen.
  rewrite Hsubs in Hlen. unfold subTasks_of in Hlen.
  destruct (transferTasks (svc s) !! uuid 0) as [task|] eqn:E; [|done].
  simpl in Hf, Hlen. injection Hf as Hid Hu Hp.
  assert (Hd : getTransferTaskDetails (uuid 0) userId (svc s) = Some (details task))
    by (unfold getTransferTaskDetails; by rewrite E, decide_True).
  split.
  - exists (details task). split; [done|]. split.
    + by eapply getAllTransferTasks_complete.
    + simpl. rewrite Hp, Hlen.
      by rewrite <- (length_fmap target_and_item), Hpairs, length_pairs_of.
  - intros other Ho. unfold getTransferTaskDetails.
    rewrite E, decide_False; [done|congruence].
Qed.

Lemma owner_reads_task_witness :
  (∃ d, getTransferTaskDetails "task-0" (UserNum 1) (svc transfer_done) = Some d
        ∧ d ∈ getAllTransferTasks (UserNum 1) (svc transfer_done)
        ∧ Task.taskId (td_task d) = "task-0"
        ∧ length (Task.subTasks (td_task d)) = 1 * 1
        ∧ td_sourceConnectionId d = 1%Z
        ∧ td_remoteTargetPath d = "/backup")
  ∧ ∀ other, other ≠ UserNum 1 →
             getTransferTaskDetails "task-0" other (svc transfer_done) = None.
Proof.
  assert (Hrun : demo_run successful_transfer demo_payload = Some transfer_done)
    by (vm_compute; reflexivity).
  exact (owner_reads_task demo_uuid 0 demo_payload (UserNum 1) empty_service
           successful_transfer transfer_done Hrun).
Defined.

(** ** The shape of the events of a task's processing *)

Section Scheduling.

Variable taskId : string.
Variable signal : nat.

Abbreviation Inv' := (Inv taskId signal).

(** An event either belongs to one sub-task's execution, and then leaves
    the scheduler, the phase, the signal and the other executions alone, or
    it is one of five steps of [processTransferTask] and
    [cancelTransferTask]. *)
Inductive Shape (now : Date) (s : Proc) : Proc → Prop :=
| sh_local i s' :
    Frame taskId i s s' →
    (is_Some (wrappers s' !! i) ↔ is_Some (wrappers s !! i)) →
    Shape now s s'
| sh_cancel uid : Shape now s (cancel_event taskId signal now uid s)
| sh_finish e : Shape now s (finish_processing taskId now e s)
| sh_found :
    phase s = PSourceCredentials →
    Shape now s (set_phase PSourceConnect (set_sourceSshClient true s))
| sh_start :
    phase s = PSourceConnect → is_aborted signal s = false →
    Shape now s (start_scheduler taskId signal now s)
| sh_finally i :
    wrappers s !! i = Some WSettled →
    Shape now s (wrapper_finally taskId signal now i s).

Ltac track_step :=
  lazymatch goal with
  | |- Track _ _ _ _ (update _ _ _ _ _ _ _) _ _ => eapply track_update
  | |- Track _ _ _ _ (set_wrapper _ _ _) _ _ => eapply track_set_wrapper
  | |- Track _ _ _ _ (add_log _ _) _ _ => eapply track_add_log
  | |- Track _ _ _ _ (set_method_used _ _ _ _) _ _ => eapply track_method
  | |- Track _ _ _ _ (with_commands (delete _) _) _ _ =>
      eapply track_delete_command
  | |- Track _ _ _ _ (with_commands (insert _ _) _) _ _ =>
      eapply track_insert_command
  end.

Ltac flag :=
  intros; simpl in *; rewrite ?orb_true_r, ?orb_false_r in *;
  first [ done
        | by repeat match goal with b : bool |- _ => destruct b end ].

Ltac track := repeat track_step; eassumption.

Ltac track_to := eapply track_weaken; [track | flag | flag].

Ltac fin :=
  lazymatch goal with
  | |- Final _ _ _ _ (wrapper_catch _ _ _ _ _) =>
      eapply (wrapper_catch_final _ _ _ _ _ false); track_to
  | |- Final _ _ _ _ (exec_throw _ _ _ _ _ _) =>
      first [ eapply (exec_throw_final _ _ _ _ _ false true); [track_to|by left]
            | eapply (exec_throw_final _ _ _ _ _ false false);
              [track_to
              |first [right; left; assumption|right; right; reflexivity]] ]
  | |- Final _ _ _ _ (exec_finally _ _ _ _ _ _) =>
      eapply exec_finally_final; track_to
  | |- Final _ _ _ _ (enter_execute _ _ _ _ _) =>
      eapply (enter_execute_final _ _ _ _ _ false); track_to
  | |- Final _ _ _ _ (select_tool _ _ _ _ _ _ _ _) =>
      eapply (select_tool_final _ _ _ _ _ false); track_to
  | |- Final _ _ _ _ (after_target_probe _ _ _ _ _ _ _ _) =>
      eapply (after_target_probe_final _ _ _ _ _ false); track_to
  | |- Final _ _ _ _ (broker_credentials _ _ _ _ _ _ _ _) =>
      eapply (broker_credentials_final _ _ _ _ _ false); track_to
  | |- Final _ _ _ _ (after_upload _ _ _ _ _ _ _ _ _) =>
      eapply (after_upload_final _ _ _ _ _ false); track_to
  | |- Final _ _ _ _ (set_wrapper _ _ _) =>
      eapply final_set; [track | flag | flag]
  end.

Ltac split_step H :=
  cbv zeta in H;
  repeat lazymatch type of H with
         | match ?x with _ => _ end = _ => destruct x eqn:?; try discriminate H
         end;
  apply (inj Some) in H; subst.

Ltac shape_final HI :=
  lazymatch goal with
  | Hw : wrappers ?s !! ?i = Some ?ph |- Shape _ _ ?s' =>
      let Ht := fresh "Ht" in
      let Hl := fresh "Hl" in
      pose proof (track_wrapper _ _ _ _ _ HI Hw) as Ht; simpl in Ht;
      assert (Hl : LocalOK taskId signal i s s')
        by (apply final_local; [rewrite Hw; eauto|fin]);
      destruct Hl as [? ? _ _]; by eapply sh_local
  end.

Ltac shape_track HI :=
  lazymatch goal with
  | Hc : commands ?s !! ?i = Some _ |- Shape _ _ ?s' =>
      let Ht0 := fresh "Ht" in
      pose proof (track_init _ _ _ i HI) as Ht0;
      eapply (sh_local _ _ i);
      [eapply tr_frame; track|rewrite ?update_wrapper_at; reflexivity]
  end.

Lemma step_shape now ev s s' :
  Inv' s → step taskId signal now ev s = Some s' → Shape now s s'.
Proof.
  intros HI Hstep.
  destruct ev; unfold step in Hstep; split_step Hstep;
    first [ by apply sh_cancel | by apply sh_finish | by apply sh_found
          | by apply sh_start | by apply sh_finally
          | shape_final HI | shape_track HI ].
Qed.

(** What the scheduler's steps keep: the counters of a state. *)
Definition counters (s : Proc) : nat * nat * nat :=
  (currentlyActiveSubTasks (sched s), currentSubTaskIndex (sched s),
   totalSubTasks (sched s)).

Lemma counters_resolve s : counters (resolveAllTasksCompleted s) = counters s.
Proof. unfold counters. frame_simpl. by destruct (allTasksCompleted _). Qed.

Lemma counters_reject s : counters (rejectAllTasksCompleted s) = counters s.
Proof. unfold counters. frame_simpl. by destruct (allTasksCompleted _). Qed.

Lemma cancel_event_frame now uid s :
  phase (cancel_event taskId signal now uid s) = phase s
  ∧ wrappers (cancel_event taskId signal now uid s) = wrappers s
  ∧ counters (cancel_event taskId signal now uid s) = counters s.
Proof.
  unfold cancel_event. cbv zeta.
  repeat case_match; repeat split; try reflexivity;
    unfold counters; frame_simpl; by destruct (allTasksCompleted _).
Qed.

Lemma start_wrapper_phase now i s :
  phase (start_wrapper taskId signal now i s) = phase s
  ∧ signals (svc (start_wrapper taskId signal now i s)) = signals (svc s).
Proof.
  unfold start_wrapper.
  repeat case_match; try done; frame_simpl;
    match goal with
    | |- context [update taskId now i ?st ?p ?m s] =>
        by destruct (update_frame taskId now i st p m s)
          as (-> & _ & _ & _ & _ & -> & _)
    end.
Qed.

Lemma launch_loop_frame now fuel s :
  phase (launch_loop taskId signal now fuel s) = phase s
  ∧ signals (svc (launch_loop taskId signal now fuel s)) = signals (svc s)
  ∧ totalSubTasks (sched (launch_loop taskId signal now fuel s))
    = totalSubTasks (sched s).
Proof.
  revert s. induction fuel as [|fuel IH]; intros s; simpl; [done|].
  repeat case_match; try done;
    match goal with
    | |- context [launch_loop taskId signal now fuel ?s1] =>
        destruct (IH s1) as (-> & -> & ->)
    end; frame_simpl; try done.
  - by destruct (allTasksCompleted _).
  - destruct (start_wrapper_phase now (currentSubTaskIndex (sched s))
                (with_sched launch_sched s)) as [-> ->].
    destruct (start_wrapper_frame taskId signal now (currentSubTaskIndex (sched s))
                (with_sched launch_sched s)) as [-> _].
    done.
Qed.

Lemma launchNext_frame now s :
  phase (launchNextSubTaskIfPossible taskId signal now s) = phase s
  ∧ signals (svc (launchNextSubTaskIfPossible taskId signal now s))
    = signals (svc s)
  ∧ totalSubTasks (sched (launchNextSubTaskIfPossible taskId signal now s))
    = totalSubTasks (sched s).
Proof.
  unfold launchNextSubTaskIfPossible.
  destruct (is_aborted signal s).
  - case_decide; [|done]. frame_simpl. by destruct (allTasksCompleted _).
  - cbv zeta.
    destruct (launch_loop_frame now
                (totalSubTasks (sched s) - currentSubTaskIndex (sched s)) s)
      as (Hp & Hs & Ht).
    case_bool_decide; [|done]. frame_simpl.
    rewrite Hp, Hs. split; [done|]. split; [done|].
    by destruct (allTasksCompleted _).
Qed.

Lemma wrapper_finally_frame now i s :
  phase (wrapper_finally taskId signal now i s) = phase s
  ∧ signals (svc (wrapper_finally taskId signal now i s)) = signals (svc s)
  ∧ totalSubTasks (sched (wrapper_finally taskId signal now i s))
    = totalSubTasks (sched s).
Proof.
  unfold wrapper_finally. cbv zeta.
  set (s1 := with_sched finished_sched (with_wrappers (delete i) s)).
  destruct (launchNext_frame now s1) as (Hp & Hs & Ht).
  repeat case_match; rewrite ?Hp, ?Hs, ?Ht; try done;
    frame_simpl; (split; [done|]); (split; [done|]);
    by destruct (allTasksCompleted _).
Qed.

Lemma cancel_before_phase now l s :
  phase (foldl (cancel_before_execution taskId now) s l) = phase s
  ∧ sched (foldl (cancel_before_execution taskId now) s l) = sched s
  ∧ signals (svc (foldl (cancel_before_execution taskId now) s l))
    = signals (svc s).
Proof.
  revert s. induction l as [|i l IH]; intros s; [done|]. simpl.
  destruct (IH (cancel_before_execution taskId now s i)) as (-> & -> & ->).
  unfold cancel_before_execution. repeat case_match; try done.
  by destruct (update_frame taskId now i SubTask.cancelled None
                 (Some "Task cancelled before sub-task execution.") s)
    as (-> & _ & _ & _ & -> & -> & _).
Qed.

Lemma start_scheduler_phase now s :
  phase (start_scheduler taskId signal now s) = PScheduling
  ∨ start_scheduler taskId signal now s = s.
Proof.
  unfold start_scheduler.
  destruct (the_task taskId s) as [task|]; [left|by right]. cbv zeta.
  set (s1 := with_sched _ (set_phase PScheduling s)).
  destruct (launchNext_frame now s1) as (Hp & _).
  destruct (cancel_before_phase now (seq 0 (length (Task.subTasks task))) s1)
    as (Hp' & _).
  repeat case_match; rewrite ?Hp, ?Hp'; done.
Qed.

Lemma shape_phase now s s' :
  Shape now s s' → phase s' = PFinished →
  phase s = PFinished ∨ ∃ e, s' = finish_processing taskId now e s.
Proof.
  intros [i s1 [Hp _ _ _ _ _ _] _|uid|e|Hp|Hp Ha|i Hi] Hf.
  - left. congruence.
  - left. destruct (cancel_event_frame now uid s) as (Hp & _). congruence.
  - right. eauto.
  - done.
  - destruct (start_scheduler_phase now s) as [H|H]; rewrite H in Hf; congruence.
  - left. destruct (wrapper_finally_frame now i s) as (Hp & _). congruence.
Qed.

Lemma svc_op_controllers v v' t :
  svc_op v v' → taskAbortControllers v !! t = None →
  taskAbortControllers v' !! t = None.
Proof.
  destruct 1 as [now t' sid new p m v|now t' new v|now t' v|sig v
                |t' task j st u v Ht Hj|t' v]; try done.
  - by destruct (updateSubTaskStatus_signals now t' sid new p m v) as [_ ->].
  - by destruct (direct_signals now t' new v) as [_ ->].
  - unfold finalizeOverallTaskStatus.
    destruct (transferTasks v !! t'); [|done].
    by destruct (rollup_signals now t' v) as [_ ->].
  - simpl. intros H. destruct (decide (t' = t)) as [->|Hne].
    + by rewrite lookup_delete_eq.
    + by rewrite lookup_delete_ne.
Qed.

Lemma reach_controllers v v' t :
  reach v v' → taskAbortControllers v !! t = None →
  taskAbortControllers v' !! t = None.
Proof.
  induction 1 as [|v1 v2 v3 H _ IH]; [done|].
  intros Hn. apply IH. by eapply svc_op_controllers.
Qed.

Lemma finish_processing_controller now e s :
  taskAbortControllers (svc (finish_processing taskId now e s)) !! taskId = None.
Proof.
  unfold finish_processing. cbv zeta. frame_simpl.
  change (taskAbortControllers (set_taskAbortControllers ?m ?v)) with m.
  by rewrite lookup_delete_eq.
Qed.

(** When the processing has ended, the task's controller is gone. *)
Definition Forgotten (s : Proc) : Prop :=
  phase s = PFinished → taskAbortControllers (svc s) !! taskId = None.

Lemma step_forgotten now ev s s' :
  Inv' s → Forgotten s → step taskId signal now ev s = Some s' → Forgotten s'.
Proof.
  intros HI HF Hstep Hp.
  destruct (shape_phase now s s' (step_shape now ev s s' HI Hstep) Hp)
    as [Hs|(e & ->)].
  - eapply reach_controllers; [|exact (HF Hs)].
    exact (step_reach taskId signal _ _ _ _ _ Hstep (rtc_refl _ _)).
  - apply finish_processing_controller.
Qed.

Lemma run_forgotten es s s' :
  Inv' s → Forgotten s → run taskId signal es s = Some s' → Forgotten s'.
Proof.
  revert s. induction es as [|[now ev] es IH]; intros s HI HF Hrun; simpl in Hrun.
  - by injection Hrun as <-.
  - destruct (step taskId signal now ev s) as [s1|] eqn:E; [|done].
    eapply IH; [| |exact Hrun]; [by eapply step_inv|by eapply step_forgotten].
Qed.

(** After the signal was aborted, an event starts no execution. *)
Lemma step_no_launch now ev s s' :
  Inv' s → is_aborted signal s = true →
  step taskId signal now ev s = Some s' →
  (∀ j, is_Some (wrappers s' !! j) → is_Some (wrappers s !! j))
  ∧ currentSubTaskIndex (sched s') = currentSubTaskIndex (sched s).
Proof.
  intros HI Ha Hstep.
  destruct (step_shape now ev s s' HI Hstep)
    as [i s1 [_ Hs _ _ _ Hw _] Hd|uid|e|Hp|Hp Hna|i Hi].
  - split; [|by rewrite Hs]. intros j Hj.
    destruct (decide (j = i)) as [->|Hne]; [by apply Hd|].
    by rewrite <- Hw.
  - destruct (cancel_event_frame now uid s) as (_ & -> & Hc).
    split; [done|]. by injection Hc.
  - destruct (finish_processing_frame taskId now e s) as (_ & _ & -> & _ & -> & _).
    done.
  - done.
  - congruence.
  - unfold wrapper_finally. cbv zeta.
    set (s1 := with_sched finished_sched (with_wrappers (delete i) s)).
    change (is_aborted signal s1) with (is_aborted signal s). rewrite Ha. simpl.
    rewrite andb_false_r.
    assert (Hsub : ∀ j, is_Some (wrappers s1 !! j) → is_Some (wrappers s !! j)).
    { intros j. unfold s1. frame_simpl.
      destruct (decide (j = i)) as [->|Hne].
      - rewrite lookup_delete_eq. by intros [? ?].
      - by rewrite lookup_delete_ne. }
    repeat case_match; (split; [exact Hsub|]); frame_simpl; simpl;
      first [done|by destruct (allTasksCompleted _)].
Qed.

Lemma step_aborted now ev s s' :
  is_aborted signal s = true → step taskId signal now ev s = Some s' →
  is_aborted signal s' = true.
Proof.
  intros Ha Hstep.
  pose proof (step_reach taskId signal _ _ _ _ _ Hstep (rtc_refl _ _)) as Hr.
  by apply (reach_signals _ _ signal Hr).
Qed.

Lemma run_no_launch es s s' :
  Inv' s → is_aborted signal s = true → run taskId signal es s = Some s' →
  (∀ j, is_Some (wrappers s' !! j) → is_Some (wrappers s !! j))
  ∧ currentSubTaskIndex (sched s') = currentSubTaskIndex (sched s).
Proof.
  revert s. induction es as [|[now ev] es IH]; intros s HI Ha Hrun; simpl in Hrun.
  - by injection Hrun as <-.
  - destruct (step taskId signal now ev s) as [s1|] eqn:E; [|done].
    destruct (step_no_launch now ev s s1 HI Ha E) as [Hw Hi].
    destruct (IH s1) as [Hw' Hi']; [by eapply step_inv|by eapply step_aborted|done|].
    split; [auto|congruence].
Qed.

End Scheduling.

(** When the processing of a task has ended, its [AbortController] has been
    removed from the service, and [cancelTransferTask] returns false for
    every caller, the owner included, and changes nothing. *)
Theorem finished_task_rejects_cancel uuid now payload userId v es s :
  NoDup (uuid <$> seq 1 (length (connectionIds payload)
                         * length (sourceItems payload))) →
  run (uuid 0) (length (signals v)) es
      (initiateNewTransfer uuid now payload userId v).2 = Some s →
  phase s = PFinished →
  taskAbortControllers (svc s) !! uuid 0 = None
  ∧ ∀ t caller, cancelTransferTask t (uuid 0) caller (svc s) = (false, svc s).
Proof.
  intros Hnd Hrun Hp.
  assert (Hc : taskAbortControllers (svc s) !! uuid 0 = None).
  { eapply (run_forgotten (uuid 0) (length (signals v)));
      [by apply initiate_inv| |exact Hrun|exact Hp].
    intros Hp0.
    destruct (initiate_state uuid now payload userId v)
      as (_ & _ & _ & _ & _ & Hp1 & _).
    congruence. }
  split; [done|]. intros t caller. unfold cancelTransferTask.
  destruct (transferTasks (svc s) !! uuid 0) as [task|]; [|done].
  case_decide; [done|]. by rewrite Hc.
Qed.

Lemma finished_task_rejects_cancel_witness :
  phase transfer_done = PFinished
  ∧ taskAbortControllers (svc transfer_done) !! "task-0" = None
  ∧ ∀ t caller,
      cancelTransferTask t "task-0" caller (svc transfer_done)
      = (false, svc transfer_done).
Proof.
  assert (Hrun : demo_run successful_transfer demo_payload = Some transfer_done)
    by (vm_compute; reflexivity).
  assert (Hnd : NoDup (demo_uuid <$> seq 1 (length (connectionIds demo_payload)
                                            * length (sourceItems demo_payload)))).
  { apply (bool_decide_unpack _). vm_compute. exact I. }
  assert (Hp : phase transfer_done = PFinished) by (vm_compute; reflexivity).
  split; [exact Hp|].
  exact (finished_task_rejects_cancel demo_uuid 0 demo_payload (UserNum 1)
           empty_service successful_transfer transfer_done Hnd Hrun Hp).
Defined.

(** In every state of the processing, the sub-tasks in state connecting or
    transferring are among those whose execution is in flight; the
    scheduler's counter [currentlyActiveSubTasks] is the number of the
    executions in flight (those whose [finally] callback has not run yet)
    and is at most the limit; and the executions were started at positions
    below [currentSubTaskIndex]. *)
Theorem executions_in_flight uuid now payload userId v es s :
  NoDup (uuid <$> seq 1 (length (connectionIds payload)
                         * length (sourceItems payload))) →
  run (uuid 0) (length (signals v)) es
      (initiateNewTransfer uuid now payload userId v).2 = Some s →
  (∀ j x, statuses (svc s) (uuid 0) !! j = Some x → SubTask.active x = true →
          is_Some (wrappers s !! j))
  ∧ currentlyActiveSubTasks (sched s) = size (wrappers s)
  ∧ currentlyActiveSubTasks (sched s) ≤ MAX_CONCURRENT_SUB_TASKS
  ∧ ∀ j, is_Some (wrappers s !! j) → j < currentSubTaskIndex (sched s).
Proof.
  intros Hnd Hrun.
  pose proof (run_inv _ _ _ _ _ (initiate_inv uuid now payload userId v Hnd) Hrun)
    as [I1 I2 I3 I4 I5 I6 I7].
  split; [|done].
  intros j x Hx Ha. destruct (I5 j x Hx Ha) as (ph & -> & _). eauto.
Qed.

Lemma executions_in_flight_witness :
  (∀ j x, statuses (svc five_in_flight) "task-0" !! j = Some x →
          SubTask.active x = true → is_Some (wrappers five_in_flight !! j))
  ∧ currentlyActiveSubTasks (sched five_in_flight) = size (wrappers five_in_flight)
  ∧ currentlyActiveSubTasks (sched five_in_flight) ≤ MAX_CONCURRENT_SUB_TASKS
  ∧ ∀ j, is_Some (wrappers five_in_flight !! j) →
         j < currentSubTaskIndex (sched five_in_flight).
Proof.
  assert (Hrun : demo_run [(1, EvSourceCredentials (Found demo_target));
                           (2, EvSourceConnected None)] seven_items
                 = Some five_in_flight) by (vm_compute; reflexivity).
  assert (Hnd : NoDup (demo_uuid <$> seq 1 (length (connectionIds seven_items)
                                            * length (sourceItems seven_items)))).
  { apply (bool_decide_unpack _). vm_compute. exact I. }
  exact (executions_in_flight demo_uuid 0 seven_items (UserNum 1) empty_service
           _ five_in_flight Hnd Hrun).
Defined.

(** Once the task's signal is aborted, no event starts the execution of a
    further sub-task: the executions in flight can only end, and
    [currentSubTaskIndex] stays where it is. *)
Theorem no_launch_after_cancel uuid now payload userId v es s es' s' :
  NoDup (uuid <$> seq 1 (length (connectionIds payload)
                         * length (sourceItems payload))) →
  run (uuid 0) (length (signals v)) es
      (initiateNewTransfer uuid now payload userId v).2 = Some s →
  is_aborted (length (signals v)) s = true →
  run (uuid 0) (length (signals v)) es' s = Some s' →
  (∀ j, is_Some (wrappers s' !! j) → is_Some (wrappers s !! j))
  ∧ currentSubTaskIndex (sched s') = currentSubTaskIndex (sched s).
Proof.
  intros Hnd Hrun Ha Hrun'.
  eapply run_no_launch; [|exact Ha|exact Hrun'].
  eapply run_inv; [|exact Hrun]. by apply initiate_inv.
Qed.

(** Five executions in flight, two sub-tasks not started, the task
    cancelled; then one execution ends. *)
Definition cancelled_in_flight : Proc :=
  default five_in_flight (step "task-0" 0 3 (EvCancel (UserNum 1)) five_in_flight).

Definition one_ended : Proc :=
  default cancelled_in_flight
    (run "task-0" 0 [(4, EvTargetCredentials 0 (Found demo_target));
                     (5, EvWrapperFinally 0)] cancelled_in_flight).

Lemma no_launch_after_cancel_witness :
  size (wrappers one_ended) = 4
  ∧ (∀ j, is_Some (wrappers one_ended !! j) →
          is_Some (wrappers cancelled_in_flight !! j))
  ∧ currentSubTaskIndex (sched one_ended)
    = currentSubTaskIndex (sched cancelled_in_flight).
Proof.
  assert (Hrun : demo_run [(1, EvSourceCredentials (Found demo_target));
                           (2, EvSourceConnected None);
                           (3, EvCancel (UserNum 1))] seven_items
                 = Some cancelled_in_flight) by (vm_compute; reflexivity).
  assert (Hrun' : run "task-0" 0 [(4, EvTargetCredentials 0 (Found demo_target));
                                  (5, EvWrapperFinally 0)] cancelled_in_flight
                  = Some one_ended) by (vm_compute; reflexivity).
  assert (Hnd : NoDup (demo_uuid <$> seq 1 (length (connectionIds seven_items)
                                            * length (sourceItems seven_items)))).
  { apply (bool_decide_unpack _). vm_compute. exact I. }
  assert (Ha : is_aborted 0 cancelled_in_flight = true) by (vm_compute; reflexivity).
  split; [vm_compute; reflexivity|].
  exact (no_launch_after_cancel demo_uuid 0 seven_items (UserNum 1) empty_service
           _ cancelled_in_flight _ one_ended Hnd Hrun Ha Hrun').
Defined.

(** ** The scheduler keeps the executions going *)

Section WorkConservation.

Variable taskId : string.
Variable signal : nat.

Abbreviation subs s := (subTasks_of (svc s) taskId).

Lemma start_wrapper_length now i s :
  length (subs (start_wrapper taskId signal now i s)) = length (subs s).
Proof.
  apply evolves_length, reach_evolves.
  apply rch_start_wrapper, rtc_refl.
Qed.

(** The [while] loop of [launchNextSubTaskIfPossible] ends within
    [totalSubTasks - currentSubTaskIndex] iterations, and when it ends its
    condition is false. *)
Lemma launch_loop_exit now fuel s :
  totalSubTasks (sched s) - currentSubTaskIndex (sched s) ≤ fuel →
  totalSubTasks (sched s) ≤ length (subs s) →
  let s' := launch_loop taskId signal now fuel s in
  ¬ (currentlyActiveSubTasks (sched s') < MAX_CONCURRENT_SUB_TASKS
     ∧ currentSubTaskIndex (sched s') < totalSubTasks (sched s')).
Proof.
  revert s. induction fuel as [|fuel IH]; intros s Hfuel Hlen; simpl.
  - lia.
  - case_bool_decide as Hc; [|done]. destruct Hc as [Hact Hidx].
    destruct (subTask_at taskId s (currentSubTaskIndex (sched s))) as [st|] eqn:E.
    2: { rewrite subTask_at_subs in E. apply lookup_ge_None in E. lia. }
    case_decide as Hcan.
    + case_bool_decide; apply IH; frame_simpl; simpl;
        try (destruct (allTasksCompleted (sched s)); simpl); lia.
    + destruct (start_wrapper_frame taskId signal now (currentSubTaskIndex (sched s))
                  (with_sched launch_sched s)) as [Hs _].
      apply IH; rewrite ?Hs, ?start_wrapper_length; frame_simpl; simpl; lia.
Qed.

Lemma launch_loop_bound now fuel s :
  currentlyActiveSubTasks (sched s) ≤ MAX_CONCURRENT_SUB_TASKS →
  currentlyActiveSubTasks (sched (launch_loop taskId signal now fuel s))
    ≤ MAX_CONCURRENT_SUB_TASKS.
Proof.
  revert s. induction fuel as [|fuel IH]; intros s Hb; simpl; [done|].
  case_bool_decide as Hc; [|done]. destruct Hc as [Hact Hidx].
  destruct (subTask_at taskId s (currentSubTaskIndex (sched s))) as [st|];
    [|done].
  case_decide as Hcan.
  - case_bool_decide; apply IH; frame_simpl; simpl;
      try (destruct (allTasksCompleted (sched s)); simpl); lia.
  - destruct (start_wrapper_frame taskId signal now (currentSubTaskIndex (sched s))
                (with_sched launch_sched s)) as [Hs _].
    apply IH. rewrite Hs. frame_simpl. simpl. lia.
Qed.

(** While sub-tasks remain to be started, the limit is reached. *)
Definition saturated (s : Proc) : Prop :=
  currentSubTaskIndex (sched s) < totalSubTasks (sched s) →
  currentlyActiveSubTasks (sched s) = MAX_CONCURRENT_SUB_TASKS.

Lemma launchNext_saturates now s :
  is_aborted signal s = false →
  totalSubTasks (sched s) ≤ length (subs s) →
  currentlyActiveSubTasks (sched s) ≤ MAX_CONCURRENT_SUB_TASKS →
  saturated (launchNextSubTaskIfPossible taskId signal now s).
Proof.
  intros Ha Hlen Hb. unfold launchNextSubTaskIfPossible. rewrite Ha. cbv zeta.
  pose proof (launch_loop_exit now
                (totalSubTasks (sched s) - currentSubTaskIndex (sched s)) s
                (le_n _) Hlen) as Hexit.
  pose proof (launch_loop_bound now
                (totalSubTasks (sched s) - currentSubTaskIndex (sched s)) s Hb)
    as Hb'.
  simpl in Hexit.
  case_bool_decide; unfold saturated; frame_simpl;
    try (destruct (allTasksCompleted _)); simpl; lia.
Qed.

(** What the invariant below says of a state in which sub-tasks are being
    scheduled: the total is the number of sub-tasks, and, unless the signal
    is aborted, the scheduler is saturated. *)
Record Busy (s : Proc) : Prop := mkBusy {
  busy_total : totalSubTasks (sched s) = length (subs s);
  busy_saturated : is_aborted signal s = false → saturated s
}.

Lemma step_length now ev s s' :
  step taskId signal now ev s = Some s' → length (subs s') = length (subs s).
Proof.
  intros Hstep. apply evolves_length, reach_evolves.
  exact (step_reach taskId signal _ _ _ _ _ Hstep (rtc_refl _ _)).
Qed.

Lemma start_scheduler_busy now s :
  phase s = PSourceConnect → is_aborted signal s = false →
  phase (start_scheduler taskId signal now s) = PScheduling →
  Busy (start_scheduler taskId signal now s).
Proof.
  intros Hp Ha. unfold start_scheduler.
  assert (Hsubs : ∀ task, the_task taskId s = Some task →
                          Task.subTasks task = subs s).
  { intros task Ht. unfold the_task in Ht. unfold subTasks_of. by rewrite Ht. }
  destruct (the_task taskId s) as [task|] eqn:T; [|congruence].
  specialize (Hsubs task eq_refl). cbv zeta.
  set (s1 := with_sched _ (set_phase PScheduling s)).
  assert (Ha1 : is_aborted signal s1 = false) by exact Ha.
  assert (Hlen1 : totalSubTasks (sched s1) = length (subs s1))
    by (unfold s1; frame_simpl; simpl; by rewrite Hsubs).
  case_decide as Hz.
  - intros _. constructor.
    + frame_simpl. simpl. by rewrite Hsubs.
    + intros _. unfold saturated. frame_simpl. simpl. lia.
  - rewrite Ha1. intros _.
    destruct (launchNext_frame taskId signal now s1) as (_ & _ & Ht).
    constructor.
    + rewrite Ht, Hlen1. symmetry. apply evolves_length, reach_evolves.
      apply rch_launchNext, rtc_refl.
    + intros _. apply launchNext_saturates; [done|lia|].
      unfold s1. frame_simpl. simpl. unfold MAX_CONCURRENT_SUB_TASKS. lia.
Qed.

Lemma wrapper_finally_saturated now i s :
  currentlyActiveSubTasks (sched s) ≤ MAX_CONCURRENT_SUB_TASKS →
  totalSubTasks (sched s) ≤ length (subs s) →
  is_aborted signal s = false →
  saturated (wrapper_finally taskId signal now i s).
Proof.
  intros Hb Hlen Ha. unfold wrapper_finally. cbv zeta.
  set (s1 := with_sched finished_sched (with_wrappers (delete i) s)).
  change (is_aborted signal s1) with (is_aborted signal s). rewrite Ha. simpl.
  rewrite andb_true_r.
  case_bool_decide as Hidx.
  - apply launchNext_saturates; [done|done|].
    unfold s1. frame_simpl. simpl. lia.
  - case_bool_decide; unfold saturated; frame_simpl; simpl in *;
      try (destruct (allTasksCompleted _)); simpl; lia.
Qed.

Lemma step_busy now ev s s' :
  Inv taskId signal s → (phase s = PScheduling → Busy s) →
  step taskId signal now ev s = Some s' →
  phase s' = PScheduling → Busy s'.
Proof.
  intros HI HB Hstep Hp'.
  pose proof (step_length now ev s s' Hstep) as Hlen.
  assert (Hab : is_aborted signal s' = false → is_aborted signal s = false).
  { intros H. destruct (is_aborted signal s) eqn:E; [|done].
    by rewrite (step_aborted taskId signal now ev s s' E Hstep) in H. }
  destruct (step_shape taskId signal now ev s s' HI Hstep)
    as [i s1 [Hp Hs Hsig _ _ _ _] _|uid|e|Hp|Hp Hna|i Hi].
  - rewrite Hp in Hp'. destruct (HB Hp') as [B1 B2]. constructor.
    + by rewrite Hs, Hlen.
    + intros Ha. unfold saturated. rewrite Hs. apply B2. auto.
  - destruct (cancel_event_frame taskId signal now uid s) as (Hp & _ & Hc).
    rewrite Hp in Hp'. destruct (HB Hp') as [B1 B2].
    injection Hc as Hc1 Hc2 Hc3. constructor.
    + by rewrite Hc3, Hlen.
    + intros Ha. unfold saturated. rewrite Hc1, Hc2, Hc3. apply B2. auto.
  - destruct (finish_processing_frame taskId now e s) as (_ & _ & _ & _ & _ & Hp).
    congruence.
  - done.
  - by apply start_scheduler_busy.
  - destruct (wrapper_finally_frame taskId signal now i s) as (Hp & Hsig & Ht).
    rewrite Hp in Hp'. destruct (HB Hp') as [B1 B2]. constructor.
    + by rewrite Ht, Hlen.
    + intros Ha. apply wrapper_finally_saturated; [|lia|by apply Hab].
      apply (inv_bound _ _ _ HI).
Qed.

Lemma run_busy es s s' :
  Inv taskId signal s → (phase s = PScheduling → Busy s) →
  run taskId signal es s = Some s' →
  phase s' = PScheduling → Busy s'.
Proof.
  revert s. induction es as [|[now ev] es IH]; intros s HI HB Hrun; simpl in Hrun.
  - by injection Hrun as <-.
  - destruct (step taskId signal now ev s) as [s1|] eqn:E; [|done].
    eapply IH; [| |exact Hrun]; [by eapply step_inv|by eapply step_busy].
Qed.

End WorkConservation.

(** While the sub-tasks of a task are being scheduled and the task was not
    cancelled, the scheduler leaves no slot unused: as long as a sub-task
    remains to be started, exactly [MAX_CONCURRENT_SUB_TASKS] executions are
    in flight.  [totalSubTasks] is the number of sub-tasks of the task. *)
Theorem scheduler_is_work_conserving uuid now payload userId v es s :
  NoDup (uuid <$> seq 1 (length (connectionIds payload)
                         * length (sourceItems payload))) →
  run (uuid 0) (length (signals v)) es
      (initiateNewTransfer uuid now payload userId v).2 = Some s →
  phase s = PScheduling →
  totalSubTasks (sched s)
  = length (connectionIds payload) * length (sourceItems payload)
  ∧ (is_aborted (length (signals v)) s = false →
     currentSubTaskIndex (sched s) < totalSubTasks (sched s) →
     currentlyActiveSubTasks (sched s) = MAX_CONCURRENT_SUB_TASKS
     ∧ size (wrappers s) = MAX_CONCURRENT_SUB_TASKS).
Proof.
  intros Hnd Hrun Hp.
  pose proof (initiate_inv uuid now payload userId v Hnd) as HI0.
  pose proof (run_inv _ _ _ _ _ HI0 Hrun) as HI.
  destruct (initiate_state uuid now payload userId v)
    as (Hsubs & _ & _ & _ & _ & Hp0 & _).
  destruct (new_subTasks_spec uuid now payload) as (Hpairs & _ & _).
  destruct (run_busy (uuid 0) (length (signals v)) es _ s HI0) as [B1 B2];
    [intros; congruence|exact Hrun|exact Hp|].
  split.
  - rewrite B1.
    rewrite (evolves_length _ _
               (reach_evolves _ _ (uuid 0)
                  (run_reach _ _ _ _ _ _ Hrun (rtc_refl _ _)))).
    rewrite Hsubs.
    by rewrite <- (length_fmap target_and_item), Hpairs, length_pairs_of.
  - intros Ha Hidx. pose proof (B2 Ha Hidx) as Hact. split; [done|].
    by rewrite <- (inv_active _ _ _ HI).
Qed.

Lemma scheduler_is_work_conserving_witness :
  totalSubTasks (sched five_in_flight) = 1 * 7
  ∧ (is_aborted 0 five_in_flight = false →
     currentSubTaskIndex (sched five_in_flight)
       < totalSubTasks (sched five_in_flight) →
     currentlyActiveSubTasks (sched five_in_flight) = MAX_CONCURRENT_SUB_TASKS
     ∧ size (wrappers five_in_flight) = MAX_CONCURRENT_SUB_TASKS).
Proof.
  assert (Hrun : demo_run [(1, EvSourceCredentials (Found demo_target));
                           (2, EvSourceConnected None)] seven_items
                 = Some five_in_flight) by (vm_compute; reflexivity).
  assert (Hnd : NoDup (demo_uuid <$> seq 1 (length (connectionIds seven_items)
                                            * length (sourceItems seven_items)))).
  { apply (bool_decide_unpack _). vm_compute. exact I. }
  assert (Hp : phase five_in_flight = PScheduling) by (vm_compute; reflexivity).
  exact (scheduler_is_work_conserving demo_uuid 0 seven_items (UserNum 1)
           empty_service _ five_in_flight Hnd Hrun Hp).
Defined.

(** ** What [initiateNewTransfer] returns *)

(** The background processing starts before [initiateNewTransfer] returns:
    the returned task is the registered one, already in progress, with all
    its sub-tasks queued and without progress or end time; the other tasks
    of the registry are as they were. *)
Theorem initiate_returns_started_task uuid now payload userId v :
  let r := initiateNewTransfer uuid now payload userId v in
  transferTasks (svc r.2) !! uuid 0 = Some r.1
  ∧ Task.taskId r.1 = uuid 0
  ∧ Task.status r.1 = Task.in_progress
  ∧ Task.userId r.1 = userId
  ∧ Task.payload r.1 = payload
  ∧ Task.createdAt r.1 = now
  ∧ Forall (λ st, SubTask.status st = SubTask.queued
                  ∧ SubTask.endTime st = None
                  ∧ SubTask.progress st = None) (Task.subTasks r.1)
  ∧ ∀ other, other ≠ uuid 0 →
             transferTasks (svc r.2) !! other = transferTasks v !! other.
Proof.
  intros r. subst r.
  destruct (new_subTasks_spec uuid now payload) as (_ & _ & Hq).
  assert (Hreg : ∀ t, transferTasks (svc (initiateNewTransfer uuid now payload userId v).2) !! t
            = if decide (t = uuid 0)
              then Some (Task.set_updatedAt now
                           (Task.set_status Task.in_progress
                              (newTask uuid now payload userId)))
              else transferTasks v !! t).
  { intros t. unfold initiateNewTransfer, start_processing. simpl.
    rewrite lookup_insert_eq. unfold aborted. simpl.
    rewrite lookup_app_r, Nat.sub_diag by done. simpl.
    unfold updateOverallTaskStatus. simpl. rewrite lookup_insert_eq. simpl.
    case_decide as Ht; [subst t; by rewrite lookup_insert_eq|].
    by rewrite !lookup_insert_ne. }
  change (initiateNewTransfer uuid now payload userId v).1
    with (default (newTask uuid now payload userId)
            (transferTasks (svc (initiateNewTransfer uuid now payload userId v).2)
               !! uuid 0)).
  rewrite (Hreg (uuid 0)), decide_True by done. simpl.
  split; [done|]. do 5 (split; [done|]). split.
  - apply Forall_forall. intros st Hst'.
    destruct (proj1 (Forall_forall _ _) Hq st Hst') as [Hs He].
    split; [done|]. split; [done|].
    revert st Hst' Hs He. unfold new_subTasks.
    assert (Hin : ∀ c items acc,
              (∀ st, st ∈ acc → SubTask.progress st = None) →
              ∀ st, st ∈ foldl (push_subTask uuid now c) acc items →
                    SubTask.progress st = None).
    { intros c items. induction items as [|it items IH]; intros acc Hacc; [done|].
      simpl. apply IH. intros st'. unfold push_subTask.
      rewrite elem_of_app, list_elem_of_singleton. intros [?| ->]; auto. }
    assert (Hout : ∀ cs acc,
              (∀ st, st ∈ acc → SubTask.progress st = None) →
              ∀ st, st ∈ foldl (λ subTasks c,
                                  foldl (push_subTask uuid now c) subTasks
                                        (sourceItems payload)) acc cs →
                    SubTask.progress st = None).
    { intros cs. induction cs as [|c cs IH]; intros acc Hacc; [done|].
      simpl. apply IH. by apply Hin. }
    intros st Hst' _ _. eapply Hout; [|exact Hst'].
    intros st' Hst''. by apply elem_of_nil in Hst''.
  - intros other Ho. by rewrite Hreg, decide_False.
Qed.

(** ** Cancelling twice *)

Lemma finish_status_idempotent x :
  finish_status (finish_status x) = finish_status x.
Proof. by destruct x. Qed.

Lemma cancelTransferTask_controllers now taskId userId v :
  taskAbortControllers (cancelTransferTask now taskId userId v).2
  = taskAbortControllers v.
Proof.
  rewrite cancelTransferTask_unfold.
  destruct (transferTasks v !! taskId) as [task|]; [|done].
  case_decide; [done|].
  destruct (taskAbortControllers v !! taskId) as [sig|] eqn:C; [|done]. simpl.
  destruct (cancel_loop_signals now taskId (cancel_prefix now taskId sig task v)
              (seq 0 (length (Task.subTasks task)))) as [_ ->].
  by destruct (cancel_prefix_signals now taskId sig task v) as [_ ->].
Qed.

Lemma cancelTransferTask_accepts now taskId userId v :
  (cancelTransferTask now taskId userId v).1 = true ↔
  ∃ task sig, transferTasks v !! taskId = Some task
              ∧ Task.userId task = userId
              ∧ taskAbortControllers v !! taskId = Some sig.
Proof.
  rewrite cancelTransferTask_unfold.
  destruct (transferTasks v !! taskId) as [task|].
  2: { split; [done|]. by intros (? & ? & ? & _). }
  case_decide as Hu.
  - split; [done|]. intros (task' & sig & Ht & Hu' & _).
    injection Ht as <-. done.
  - destruct (taskAbortControllers v !! taskId) as [sig|].
    + split; [|done]. intros _. by exists task, sig.
    + split; [done|]. by intros (? & ? & _ & _ & ?).
Qed.

Lemma cancelTransferTask_signals now taskId userId v sig :
  (cancelTransferTask now taskId userId v).1 = true →
  taskAbortControllers v !! taskId = Some sig →
  signals (cancelTransferTask now taskId userId v).2 = <[sig := true]> (signals v).
Proof.
  rewrite cancelTransferTask_unfold.
  destruct (transferTasks v !! taskId) as [task|]; [|done].
  case_decide; [done|].
  destruct (taskAbortControllers v !! taskId) as [sig'|] eqn:C; [|done]. simpl.
  intros _ [= ->].
  destruct (cancel_loop_signals now taskId (cancel_prefix now taskId sig task v)
              (seq 0 (length (Task.subTasks task)))) as [-> _].
  by destruct (cancel_prefix_signals now taskId sig task v) as [-> _].
Qed.

(** A second cancellation of a task that is still being processed is
    accepted again, and it changes neither the status of any sub-task nor
    the signals. *)
Theorem cancel_twice now now' taskId userId v :
  NoDup (SubTask.subTaskId <$> subTasks_of v taskId) →
  (cancelTransferTask now taskId userId v).1 = true →
  let v1 := (cancelTransferTask now taskId userId v).2 in
  (cancelTransferTask now' taskId userId v1).1 = true
  ∧ statuses (cancelTransferTask now' taskId userId v1).2 taskId
    = statuses v1 taskId
  ∧ signals (cancelTransferTask now' taskId userId v1).2 = signals v1
  ∧ Forall (λ x, SubTask.unfinished x = false) (statuses v1 taskId).
Proof.
  intros Hnd Hacc v1.
  pose proof (reach_cancel v now taskId userId v (rtc_refl _ _)) as Hreach.
  fold v1 in Hreach.
  assert (Hnd1 : NoDup (SubTask.subTaskId <$> subTasks_of v1 taskId))
    by (by rewrite (evolves_ids _ _ (reach_evolves _ _ taskId Hreach))).
  apply cancelTransferTask_accepts in Hacc as Hex.
  destruct Hex as (task & sig & Ht & Hu & Hc).
  assert (Hacc1 : (cancelTransferTask now' taskId userId v1).1 = true).
  { apply cancelTransferTask_accepts.
    pose proof (reach_task_frame _ _ taskId Hreach) as Hf. rewrite Ht in Hf.
    destruct (transferTasks v1 !! taskId) as [task1|] eqn:E; [|done].
    injection Hf as _ Hu1 _. exists task1, sig. split; [done|].
    split; [congruence|].
    unfold v1. by rewrite cancelTransferTask_controllers. }
  assert (Hs1 : statuses v1 taskId = finish_status <$> statuses v taskId)
    by (unfold v1; by rewrite cancel_statuses, Hacc).
  split; [done|]. split; [|split].
  - rewrite cancel_statuses, Hacc1, Hs1 by done.
    rewrite <- list_fmap_compose. apply list_fmap_ext.
    intros ? x _. apply finish_status_idempotent.
  - rewrite (cancelTransferTask_signals now' taskId userId v1 sig Hacc1)
      by (unfold v1; by rewrite cancelTransferTask_controllers).
    unfold v1. rewrite (cancelTransferTask_signals now taskId userId v sig Hacc Hc).
    apply list_insert_insert_eq.
  - rewrite Hs1. apply Forall_fmap, Forall_true. intros x. by destruct x.
Qed.

Lemma cancel_twice_witness :
  let v1 := (cancelTransferTask 3 "task-0" (UserNum 1) (svc five_in_flight)).2 in
  (cancelTransferTask 4 "task-0" (UserNum 1) v1).1 = true
  ∧ statuses (cancelTransferTask 4 "task-0" (UserNum 1) v1).2 "task-0"
    = statuses v1 "task-0"
  ∧ signals (cancelTransferTask 4 "task-0" (UserNum 1) v1).2 = signals v1
  ∧ Forall (λ x, SubTask.unfinished x = false) (statuses v1 "task-0").
Proof.
  assert (Hnd : NoDup (SubTask.subTaskId <$> subTasks_of (svc five_in_flight) "task-0")).
  { apply (bool_decide_unpack _). vm_compute. exact I. }
  apply (cancel_twice 3 4 "task-0" (UserNum 1) (svc five_in_flight) Hnd).
  vm_compute. reflexivity.
Defined.

(** ** The command line of a transfer: [buildTransferCommandString] *)

(** [s.endsWith(suffix)] *)
Fixpoint endsWith (s suffix : string) : bool :=
  String.eqb s suffix
  || match s with
     | EmptyString => false
     | String _ s' => endsWith s' suffix
     end.

(** [s.slice(0, -1)] *)
Fixpoint drop_last (s : string) : string :=
  match s with
  | EmptyString => EmptyString
  | String c s' =>
      match s' with
      | EmptyString => EmptyString
      | String _ _ => String c (drop_last s')
      end
  end.

Lemma string_app_assoc (a b c : string) : (a +:+ b) +:+ c = a +:+ (b +:+ c).
Proof.
  induction a as [|x a IH]; [done|].
  change (String x ((a +:+ b) +:+ c) = String x (a +:+ b +:+ c)).
  by rewrite IH.
Qed.

Lemma escape_quotes_app a b :
  escape_quotes (a +:+ b) = escape_quotes a +:+ escape_quotes b.
Proof.
  induction a as [|c a IH]; [done|]. simpl.
  destruct (Ascii.eqb c "'"%char); simpl; by rewrite IH.
Qed.

Lemma eqb_app_quote x : String.eqb (x +:+ "'") "'" = String.eqb x EmptyString.
Proof.
  destruct x as [|c x]; [done|]. simpl.
  destruct x; simpl; by destruct (Ascii.eqb c "'"%char).
Qed.

Lemma endsWith_app_quote x : endsWith (x +:+ "'") "/'" = endsWith x "/".
Proof.
  induction x as [|c x IH]; [done|].
  change (endsWith (String c x +:+ "'") "/'")
    with (String.eqb (String c (x +:+ "'")) "/'" || endsWith (x +:+ "'") "/'").
  change (endsWith (String c x) "/")
    with (String.eqb (String c x) "/" || endsWith x "/").
  rewrite IH. f_equal. simpl. by rewrite eqb_app_quote.
Qed.

Lemma escape_quotes_empty s :
  String.eqb (escape_quotes s) EmptyString = String.eqb s EmptyString.
Proof. destruct s as [|c s]; [done|]. simpl. by destruct (Ascii.eqb c "'"%char). Qed.

Lemma endsWith_cons c s suffix :
  endsWith (String c s) suffix
  = String.eqb (String c s) suffix || endsWith s suffix.
Proof. reflexivity. Qed.

Lemma endsWith_escape_quotes s :
  endsWith (escape_quotes s) "/" = endsWith s "/".
Proof.
  induction s as [|c s IH]; [done|].
  rewrite (endsWith_cons c s).
  simpl escape_quotes. destruct (Ascii.eqb_spec c "'"%char) as [->|Hc].
  - change ("'\''" +:+ escape_quotes s)
      with (String "'" (String "\" (String "'" (String "'" (escape_quotes s))))).
    rewrite !endsWith_cons, IH. reflexivity.
  - rewrite endsWith_cons, IH. f_equal. simpl. by rewrite escape_quotes_empty.
Qed.

Lemma endsWith_escapeShellArg s :
  endsWith (escapeShellArg s) "/'" = endsWith s "/".
Proof.
  unfold escapeShellArg.
  rewrite <- (string_app_assoc "'" (escape_quotes s) "'").
  rewrite endsWith_app_quote.
  change (endsWith ("'" +:+ escape_quotes s) "/")
    with (String.eqb (String "'" (escape_quotes s)) "/"
          || endsWith (escape_quotes s) "/").
  simpl. apply endsWith_escape_quotes.
Qed.

Lemma drop_last_app_quote x : drop_last (x +:+ "'") = x.
Proof.
  induction x as [|c x IH]; [done|]. simpl.
  destruct x as [|d x]; [done|]. simpl in *. by rewrite IH.
Qed.

Lemma escapeShellArg_add_slash s :
  drop_last (escapeShellArg s) +:+ "/'" = escapeShellArg (s +:+ "/").
Proof.
  unfold escapeShellArg.
  rewrite <- (string_app_assoc "'" (escape_quotes s) "'").
  rewrite drop_last_app_quote, escape_quotes_app. simpl.
  by rewrite !string_app_assoc.
Qed.

Lemma endsWith_add_slash t : endsWith (t +:+ "/") "/" = true.
Proof.
  induction t as [|c t IH]; [done|].
  change (endsWith (String c t +:+ "/") "/")
    with (String.eqb (String c (t +:+ "/")) "/" || endsWith (t +:+ "/") "/").
  by rewrite IH, orb_true_r.
Qed.

(** [s.startsWith(p)] *)
Definition startsWith (s p : string) : bool := String.prefix p s.

(** The [options] argument of [buildTransferCommandString]. *)
Record CommandOptions := mkOptions {
  sshPassCommand : option string;
  sshIdentityFileOption : option string;
  targetUserAndHost : string;
  sshPortOption : option string
}.

Definition double_quote : string := String (ascii_of_nat 34) EmptyString.

(** [array.push(x)] when [o] is truthy. *)
Definition push_if (o : option string) (parts : list string) : list string :=
  if truthy o then parts ++ [default EmptyString o] else parts.

Definition remoteBase (targetPathOnB : string) : string :=
  if endsWith targetPathOnB "/" then targetPathOnB else targetPathOnB +:+ "/".

Section BuildCommand.

(** [String.prototype.trim] *)
Variable trim : string → string.

(** [buildTransferCommandString] *)
Definition buildTransferCommandString
    (sourceItemPathOnA : string) (isDir : bool) (targetConnection : TargetInfo)
    (targetPathOnB executableCommand : string) (commandType : Tool)
    (options : CommandOptions) : string :=
  let remoteFullDest :=
    targetUserAndHost options +:+ ":" +:+ escapeShellArg (remoteBase targetPathOnB) in
  let commandParts := push_if (sshPassCommand options) [] in
  let commandParts := commandParts ++ [executableCommand] in
  match commandType with
  | rsync =>
      let commandParts := commandParts ++ ["-avz --progress"] in
      let sshArgsForRsync :=
        "ssh -o StrictHostKeyChecking=no -o UserKnownHostsFile=/dev/null" in
      let sshArgsForRsync :=
        match sshPortOption options with
        | Some o =>
            if truthy (Some o) && startsWith o "-p"
            then sshArgsForRsync +:+ " " +:+ o else sshArgsForRsync
        | None => sshArgsForRsync
        end in
      let sshArgsForRsync :=
        match sshIdentityFileOption options with
        | Some o =>
            if truthy (Some o) then sshArgsForRsync +:+ " " +:+ o
            else sshArgsForRsync
        | None => sshArgsForRsync
        end in
      let commandParts :=
        commandParts
          ++ ["-e " +:+ double_quote +:+ trim sshArgsForRsync +:+ double_quote] in
      let rsyncSourcePath := escapeShellArg sourceItemPathOnA in
      let rsyncSourcePath :=
        if isDir && negb (endsWith rsyncSourcePath "/'")
        then drop_last rsyncSourcePath +:+ "/'" else rsyncSourcePath in
      String.concat " " (commandParts ++ [rsyncSourcePath] ++ [remoteFullDest])
  | scp =>
      let commandParts := commandParts ++ ["-o StrictHostKeyChecking=no"] in
      let commandParts := commandParts ++ ["-o UserKnownHostsFile=/dev/null"] in
      let commandParts := if isDir then commandParts ++ ["-r"] else commandParts in
      let commandParts :=
        match sshPortOption options with
        | Some o =>
            if truthy (Some o) && startsWith o "-P"
            then commandParts ++ [o] else commandParts
        | None => commandParts
        end in
      let commandParts := push_if (sshIdentityFileOption options) commandParts in
      String.concat " "
        (commandParts ++ [escapeShellArg sourceItemPathOnA] ++ [remoteFullDest])
  end.

(** The path the source argument of the command stands for. *)
Definition source_path (commandType : Tool) (isDir : bool) (path : string) : string :=
  match commandType with
  | rsync => if isDir && negb (endsWith path "/") then path +:+ "/" else path
  | scp => path
  end.

(** Both paths reach the shell as quoted words: the command ends with the
    quoted source path and the quoted destination.  For the mirroring tool
    and a directory, the source is the path with a slash at its end (the
    [slice] on the quoted string is the quoting of the path with the slash
    added); the destination is the target path with a slash at its end. *)
Theorem transfer_command_paths
    sourceItemPathOnA isDir targetConnection targetPathOnB executableCommand
    commandType options :
  endsWith (remoteBase targetPathOnB) "/" = true
  ∧ ∃ front,
      executableCommand ∈ front
      ∧ buildTransferCommandString sourceItemPathOnA isDir targetConnection
          targetPathOnB executableCommand commandType options
        = String.concat " "
            (front
               ++ [escapeShellArg (source_path commandType isDir sourceItemPathOnA);
                   targetUserAndHost options +:+ ":"
                     +:+ escapeShellArg (remoteBase targetPathOnB)]).
Proof.
  split.
  - unfold remoteBase. destruct (endsWith targetPathOnB "/") eqn:E; [done|].
    apply endsWith_add_slash.
  - unfold buildTransferCommandString. cbv zeta.
    destruct commandType.
    + assert (Hsrc :
        (if isDir && negb (endsWith (escapeShellArg sourceItemPathOnA) "/'")
         then drop_last (escapeShellArg sourceItemPathOnA) +:+ "/'"
         else escapeShellArg sourceItemPathOnA)
        = escapeShellArg (source_path rsync isDir sourceItemPathOnA)).
      { unfold source_path. rewrite endsWith_escapeShellArg.
        destruct (isDir && negb (endsWith sourceItemPathOnA "/")); [|done].
        apply escapeShellArg_add_slash. }
      rewrite Hsrc. eexists. split; [|reflexivity].
      unfold push_if. destruct (truthy _); set_solver.
    + eexists. split; [|reflexivity].
      unfold push_if. repeat case_match; set_solver.
Qed.

End BuildCommand.

(** ** Tasks that are not cancelled *)

(** The statuses the executor writes while the signal is not aborted. *)
Definition written (x : SubTask.Status) : bool :=
  match x with
  | SubTask.connecting | SubTask.transferring
  | SubTask.completed | SubTask.failed => true
  | _ => false
  end.

(** An exception that the code raises only after the signal was aborted is
    an [AbortError]; [a] is [signal.aborted]. *)
Definition expected (e : Exn) (a : bool) : Prop :=
  is_error e = true ∨ a = true.

Section Completion.

Variable taskId : string.
Variable signal : nat.

Abbreviation subs s := (subTasks_of (svc s) taskId).
Abbreviation sts s := (statuses (svc s) taskId).
Abbreviation ids s := (SubTask.subTaskId <$> subTasks_of (svc s) taskId).

(** From [s0] to [s] every status is as it was or was written by the
    executor. *)
Definition Kept (s0 s : Proc) : Prop :=
  ∀ j x, sts s !! j = Some x → sts s0 !! j = Some x ∨ written x = true.

(** The pending exceptions of the executions that wait for a deletion. *)
Definition pending_ok (a : bool) (s : Proc) : Prop :=
  ∀ j e, wrappers s !! j = Some (WDelete (Some e)) → expected e a.

(** The synchronous code of an event has run from [s0] to [s]; [a] is the
    value of [signal.aborted] meanwhile. *)
Record Good (a : bool) (s0 s : Proc) : Prop := mkGood {
  gd_nodup : NoDup (ids s);
  gd_aborted : is_aborted signal s = a;
  gd_kept : a = true ∨ Kept s0 s;
  gd_pending : pending_ok a s
}.

Lemma good_start s :
  NoDup (ids s) → pending_ok (is_aborted signal s) s →
  Good (is_aborted signal s) s s.
Proof. intros Hnd Hp. constructor; try done. right. intros j x Hx. by left. Qed.

Lemma good_update a s0 s now i new p m :
  Good a s0 s → written new = true ∨ a = true →
  Good a s0 (update taskId now i new p m s).
Proof.
  intros [Hnd Ha Hk Hp] Hnew.
  destruct (update_frame taskId now i new p m s) as (F1 & F2 & F3 & _).
  constructor.
  - by rewrite F2.
  - by rewrite (is_aborted_signals signal _ _ F1).
  - destruct Hk as [?|Hk]; [by left|]. destruct Hnew as [Hw|?]; [|by left].
    right. intros j x. rewrite update_sts by done.
    destruct (sts s !! i) as [old|] eqn:E; [|apply Hk].
    destruct (blocked old new); [apply Hk|].
    destruct (decide (j = i)) as [->|Hne].
    + rewrite list_lookup_insert_eq by (by eapply lookup_lt_Some).
      intros [= <-]. by right.
    + rewrite list_lookup_insert_ne by done. apply Hk.
  - intros j e. rewrite F3. apply Hp.
Qed.

Lemma good_same a s0 s s' :
  Good a s0 s → svc s' = svc s → wrappers s' = wrappers s → Good a s0 s'.
Proof.
  intros [Hnd Ha Hk Hp] Hs Hw. constructor.
  - by rewrite Hs.
  - unfold is_aborted. by rewrite Hs.
  - destruct Hk as [?|Hk]; [by left|right]. unfold Kept. by rewrite Hs.
  - unfold pending_ok. by rewrite Hw.
Qed.

Lemma good_add_log a s0 s op : Good a s0 s → Good a s0 (add_log op s).
Proof. intros H. by eapply good_same. Qed.

Lemma good_commands a s0 s f : Good a s0 s → Good a s0 (with_commands f s).
Proof. intros H. by eapply good_same. Qed.

Lemma good_method a s0 s i u :
  Good a s0 s → Good a s0 (set_method_used taskId i u s).
Proof.
  intros [Hnd Ha Hk Hp].
  destruct (method_frame taskId i u s) as (F1 & F2 & F3 & F4 & _).
  constructor.
  - by rewrite F2.
  - by rewrite (is_aborted_signals signal _ _ F1).
  - destruct Hk as [?|Hk]; [by left|right]. unfold Kept. by rewrite F3.
  - unfold pending_ok. by rewrite F4.
Qed.

Lemma good_set_wrapper a s0 s i ph :
  Good a s0 s → (∀ e, ph = WDelete (Some e) → expected e a) →
  Good a s0 (set_wrapper i ph s).
Proof.
  intros [Hnd Ha Hk Hp] Hph. constructor; try done.
  intros j e. frame_simpl. destruct (decide (j = i)) as [->|Hne].
  - rewrite lookup_insert_eq. intros [= ->]. by apply Hph.
  - rewrite lookup_insert_ne by done. apply Hp.
Qed.

Ltac good :=
  repeat lazymatch goal with
         | |- Good _ _ (update _ _ _ _ _ _ _) =>
             apply good_update;
             [|first [left; reflexivity|by right|assumption]]
         | |- Good _ _ (set_wrapper _ _ _) =>
             apply good_set_wrapper;
             [|first [by intros ? [=]
                     |intros ? [= <-]; assumption
                     |intros ? [= <-]; by left
                     |intros ? [= <-]; by right]]
         | |- Good _ _ (add_log _ _) => apply good_add_log
         | |- Good _ _ (with_commands _ _) => apply good_commands
         | |- Good _ _ (set_method_used _ _ _ _) => apply good_method
         end;
  try eassumption.

Lemma expected_abort a m : expected (AbortError m) a → a = true.
Proof. by intros [?|?]. Qed.

Lemma wrapper_catch_good a s0 s now i e :
  Good a s0 s → expected e a → Good a s0 (wrapper_catch taskId now i e s).
Proof.
  intros H He. unfold wrapper_catch.
  destruct e as [m|m]; [apply expected_abort in He|]; repeat case_match; good.
Qed.

Lemma exec_finally_good a s0 s now i tp pending :
  Good a s0 s → (∀ e, pending = Some e → expected e a) →
  Good a s0 (exec_finally taskId now i tp pending s).
Proof.
  intros H He. unfold exec_finally. destruct tp as [p|].
  - apply good_set_wrapper; [good|]. intros e [= ->]. by apply He.
  - destruct pending as [e|]; [apply wrapper_catch_good; auto|good].
Qed.

Lemma exec_throw_good a s0 s now i e tp :
  Good a s0 s → expected e a → Good a s0 (exec_throw taskId now i e tp s).
Proof.
  intros H He. unfold exec_throw. apply exec_finally_good.
  - destruct e as [m|m]; [apply expected_abort in He|]; repeat case_match; good.
  - by intros ? [= <-].
Qed.

Lemma run_command_good a s0 s now i tool tp pty :
  Good a s0 s → Good a s0 (run_command taskId now i tool tp pty s).
Proof. intros H. unfold run_command. cbv zeta. good. Qed.

Lemma after_tool_good a s0 s now i tc sp tool :
  Good a s0 s → Good a s0 (after_tool taskId now i tc sp tool s).
Proof. intros H. unfold after_tool. cbv zeta. good. Qed.

Ltac leave_good :=
  lazymatch goal with
  | |- Good _ _ (wrapper_catch _ _ _ _ _) =>
      apply wrapper_catch_good;
      [good|first [by left|by right|assumption]]
  | |- Good _ _ (exec_throw _ _ _ _ _ _) =>
      apply exec_throw_good;
      [good|first [by left|by right|assumption]]
  | |- Good _ _ (exec_finally _ _ _ _ _ _) =>
      apply exec_finally_good; [good|by intros ? [=]]
  | |- Good _ _ (run_command _ _ _ _ _ _ _) => apply run_command_good; good
  | |- Good _ _ (after_tool _ _ _ _ _ _ _) => apply after_tool_good; good
  | |- _ => good
  end.

Lemma choose_scp_good a s0 s now i tc sp sc :
  Good a s0 s → Good a s0 (choose_scp taskId now i tc sp sc s).
Proof. intros H. unfold choose_scp. destruct sc; leave_good. Qed.

Lemma select_tool_good a s0 s now i tc sp rs sc :
  Good a s0 s → Good a s0 (select_tool taskId now i tc sp rs sc s).
Proof.
  intros H. unfold select_tool.
  repeat case_match; first [by apply choose_scp_good|leave_good].
Qed.

Lemma after_target_probe_good a s0 s now i tc sp sc rt :
  Good a s0 s → Good a s0 (after_target_probe taskId now i tc sp sc rt s).
Proof.
  intros H. unfold after_target_probe.
  repeat case_match; first [by apply choose_scp_good|leave_good].
Qed.

Lemma enter_execute_good a s0 s now i tc :
  Good a s0 s → Good a s0 (enter_execute taskId now i tc s).
Proof. intros H. unfold enter_execute. good. Qed.

Lemma broker_credentials_good a s0 s now i tc sp tool rand :
  Good a s0 s → Good a s0 (broker_credentials taskId now i tc sp tool rand s).
Proof. intros H. unfold broker_credentials. repeat case_match; leave_good. Qed.

Lemma after_upload_good a s0 s now i tc sp tool p :
  Good a s0 s → Good a s0 (after_upload taskId signal now i tc sp tool p s).
Proof.
  intros H. unfold after_upload. cbv zeta.
  pose proof (good_add_log _ _ _ (OpKeyUploaded i p) H) as H1.
  destruct (is_aborted signal (add_log (OpKeyUploaded i p) s)) eqn:Ha.
  - assert (a = true) by (by rewrite <- (gd_aborted _ _ _ H1)).
    leave_good.
  - repeat case_match; leave_good.
Qed.

Lemma start_wrapper_good a s0 s now i :
  Good a s0 s → Good a s0 (start_wrapper taskId signal now i s).
Proof.
  intros H. unfold start_wrapper.
  destruct (is_aborted signal s) eqn:Ha.
  - assert (a = true) by (by rewrite <- (gd_aborted _ _ _ H)). good.
  - repeat case_match; good.
Qed.

Lemma good_frame a s0 s s' :
  Good a s0 s → subs s' = subs s → signals (svc s') = signals (svc s) →
  wrappers s' = wrappers s → Good a s0 s'.
Proof.
  intros [Hnd Ha Hk Hp] Hs Hsig Hw. constructor.
  - by rewrite Hs.
  - by rewrite (is_aborted_signals signal _ _ Hsig).
  - destruct Hk as [?|Hk]; [by left|right]. unfold Kept, statuses. by rewrite Hs.
  - unfold pending_ok. by rewrite Hw.
Qed.

Lemma launch_loop_good a s0 now fuel s :
  Good a s0 s → Good a s0 (launch_loop taskId signal now fuel s).
Proof.
  revert s. induction fuel as [|fuel IH]; intros s H; simpl; [done|].
  repeat case_match; try done; apply IH;
    first [by apply start_wrapper_good; eapply good_same|by eapply good_same].
Qed.

Lemma launchNext_good a s0 now s :
  Good a s0 s → Good a s0 (launchNextSubTaskIfPossible taskId signal now s).
Proof.
  intros H. unfold launchNextSubTaskIfPossible. cbv zeta.
  pose proof (launch_loop_good a s0 now
                (totalSubTasks (sched s) - currentSubTaskIndex (sched s)) s H)
    as H1.
  repeat case_match;
    first [done|by eapply good_same; [exact H1|..]
          |by eapply good_same; [exact H|..]].
Qed.

Lemma good_delete_wrapper a s0 s i :
  Good a s0 s → Good a s0 (with_sched finished_sched (with_wrappers (delete i) s)).
Proof.
  intros [Hnd Ha Hk Hp]. constructor; try done.
  intros j e. frame_simpl. destruct (decide (j = i)) as [->|Hne].
  - by rewrite lookup_delete_eq.
  - rewrite lookup_delete_ne by done. apply Hp.
Qed.

Lemma wrapper_finally_good a s0 now i s :
  Good a s0 s → Good a s0 (wrapper_finally taskId signal now i s).
Proof.
  intros H. unfold wrapper_finally. cbv zeta.
  pose proof (good_delete_wrapper a s0 s i H) as H1.
  pose proof (launchNext_good a s0 now _ H1) as H2.
  repeat case_match;
    first [done|by eapply good_same; [exact H1|..]].
Qed.

Lemma cancel_before_good a s0 now l s :
  a = true → Good a s0 s →
  Good a s0 (foldl (cancel_before_execution taskId now) s l).
Proof.
  intros Ha. revert s. induction l as [|i l IH]; intros s H; [done|]. simpl.
  apply IH. unfold cancel_before_execution. repeat case_match; good.
Qed.

Lemma start_scheduler_good a s0 now s :
  Good a s0 s → Good a s0 (start_scheduler taskId signal now s).
Proof.
  intros H. unfold start_scheduler.
  destruct (the_task taskId s) as [task|]; [|done]. cbv zeta.
  set (s1 := with_sched _ (set_phase PScheduling s)).
  assert (H1 : Good a s0 s1) by (by eapply good_same).
  case_decide; [by eapply good_same|].
  destruct (is_aborted signal s1) eqn:Ha.
  - assert (a = true) by (by rewrite <- (gd_aborted _ _ _ H1)).
    eapply good_same;
      [apply (cancel_before_good a s0 now
                (seq 0 (length (Task.subTasks task))) s1); done|done..].
  - by apply launchNext_good.
Qed.

Lemma finish_processing_good a s0 now e s :
  Good a s0 s → Good a s0 (finish_processing taskId now e s).
Proof.
  intros H.
  destruct (finish_processing_frame taskId now e s) as (F1 & F2 & F3 & _).
  by eapply good_frame.
Qed.

Ltac split_step H :=
  cbv zeta in H;
  repeat lazymatch type of H with
         | match ?x with _ => _ end = _ => destruct x eqn:?; try discriminate H
         end;
  apply (inj Some) in H; subst.

Ltac leave_execute_good :=
  lazymatch goal with
  | |- Good _ _ (enter_execute _ _ _ _ _) => apply enter_execute_good; good
  | |- Good _ _ (select_tool _ _ _ _ _ _ _ _) => apply select_tool_good; good
  | |- Good _ _ (after_target_probe _ _ _ _ _ _ _ _) =>
      apply after_target_probe_good; good
  | |- Good _ _ (broker_credentials _ _ _ _ _ _ _ _) =>
      apply broker_credentials_good; good
  | |- Good _ _ (after_upload _ _ _ _ _ _ _ _ _) => apply after_upload_good; good
  | |- Good _ _ (finish_processing _ _ _ _) => apply finish_processing_good; good
  | |- Good _ _ (start_scheduler _ _ _ _) => apply start_scheduler_good; good
  | |- Good _ _ (wrapper_finally _ _ _ _ _) => apply wrapper_finally_good; good
  | |- Good _ _ (set_phase _ (set_sourceSshClient _ _)) =>
      eapply good_same; [eassumption|done..]
  | |- _ => leave_good
  end.

(** Every event but a cancellation is such a piece of code. *)
Lemma step_good now ev s s' :
  NoDup (ids s) → pending_ok (is_aborted signal s) s →
  (∀ uid, ev ≠ EvCancel uid) →
  step taskId signal now ev s = Some s' →
  Good (is_aborted signal s) s s'.
Proof.
  intros Hnd Hp Hev Hstep.
  pose proof (good_start s Hnd Hp) as H0.
  remember (is_aborted signal s) as a eqn:Ha.
  destruct ev; try (by destruct (Hev userId));
    unfold step in Hstep; fold (is_aborted signal s) in Hstep;
    rewrite <- ?Ha in Hstep; split_step Hstep;
    try match goal with
        | Hw : wrappers _ !! _ = Some (WDelete (Some _)) |- _ =>
            pose proof (Hp _ _ Hw)
        end;
    leave_execute_good.
Qed.

Lemma svc_op_controllers_some v v' t sig :
  svc_op v v' → taskAbortControllers v' !! t = Some sig →
  taskAbortControllers v !! t = Some sig.
Proof.
  destruct 1 as [now t' sid new p m v|now t' new v|now t' v|sig' v
                |t' task j st u v Ht Hj|t' v]; try done.
  - by destruct (updateSubTaskStatus_signals now t' sid new p m v) as [_ ->].
  - by destruct (direct_signals now t' new v) as [_ ->].
  - unfold finalizeOverallTaskStatus.
    destruct (transferTasks v !! t'); [|done].
    by destruct (rollup_signals now t' v) as [_ ->].
  - simpl. destruct (decide (t' = t)) as [->|Hne].
    + by rewrite lookup_delete_eq.
    + by rewrite lookup_delete_ne.
Qed.

Lemma reach_controllers_some v v' t sig :
  reach v v' → taskAbortControllers v' !! t = Some sig →
  taskAbortControllers v !! t = Some sig.
Proof.
  induction 1 as [|v1 v2 v3 H _ IH]; [done|].
  intros Hs. eapply svc_op_controllers_some; [exact H|]. by apply IH.
Qed.

(** What holds of the scheduler's variables and of the statuses as long as
    the signal is not aborted. *)
Record Clean (s : Proc) : Prop := mkClean {
  cl_pending : pending_ok (is_aborted signal s) s;
  cl_ctl :
    ∀ sig, taskAbortControllers (svc s) !! taskId = Some sig →
           sig = signal ∧ signal < length (signals (svc s));
  cl_cancelled :
    is_aborted signal s = false →
    ∀ j x, sts s !! j = Some x → x ≠ SubTask.cancelled;
  cl_launched :
    is_aborted signal s = false →
    ∀ j x, j < currentSubTaskIndex (sched s) → sts s !! j = Some x →
           x ≠ SubTask.queued;
  cl_index : currentSubTaskIndex (sched s) ≤ totalSubTasks (sched s);
  cl_resolved :
    is_aborted signal s = false → allTasksCompleted (sched s) = Resolved →
    currentSubTaskIndex (sched s) = totalSubTasks (sched s) ∧ wrappers s = ∅
}.

Lemma written_not_cancelled x : written x = true → x ≠ SubTask.cancelled.
Proof. by destruct x. Qed.

Lemma written_not_queued x : written x = true → x ≠ SubTask.queued.
Proof. by destruct x. Qed.

(** The part of [Clean] that follows from [Good]. *)
Lemma clean_intro s s' :
  Clean s → Good (is_aborted signal s) s s' → reach (svc s) (svc s') →
  (is_aborted signal s' = false →
   ∀ j x, j < currentSubTaskIndex (sched s') → sts s' !! j = Some x →
          x ≠ SubTask.queued) →
  currentSubTaskIndex (sched s') ≤ totalSubTasks (sched s') →
  (is_aborted signal s' = false → allTasksCompleted (sched s') = Resolved →
   currentSubTaskIndex (sched s') = totalSubTasks (sched s')
   ∧ wrappers s' = ∅) →
  Clean s'.
Proof.
  intros [C1 C2 C3 C4 C5 C6] [Hnd Ha Hk Hp] Hr L1 L2 L3.
  constructor; try done.
  - by rewrite Ha.
  - intros sig Hs. apply (reach_controllers_some _ _ _ _ Hr) in Hs.
    destruct (C2 sig Hs) as [-> Hlt]. split; [done|].
    by rewrite (proj1 (reach_signals _ _ signal Hr)).
  - intros Hna j x Hx. rewrite Ha in Hna.
    destruct Hk as [Hk|Hk]; [congruence|].
    destruct (Hk j x Hx) as [Hx0|Hw]; [by eapply C3|by apply written_not_cancelled].
Qed.

Lemma kept_launched s s' :
  Clean s → Good (is_aborted signal s) s s' →
  currentSubTaskIndex (sched s') = currentSubTaskIndex (sched s) →
  is_aborted signal s' = false →
  ∀ j x, j < currentSubTaskIndex (sched s') → sts s' !! j = Some x →
         x ≠ SubTask.queued.
Proof.
  intros [C1 C2 C3 C4 C5 C6] [Hnd Ha Hk Hp] Hi Hna j x Hj Hx.
  rewrite Ha in Hna. destruct Hk as [Hk|Hk]; [congruence|].
  rewrite Hi in Hj.
  destruct (Hk j x Hx) as [Hx0|Hw]; [by eapply C4|by apply written_not_queued].
Qed.

(** An event that leaves the scheduler's variables alone. *)
Lemma clean_same_sched s s' :
  Clean s → Good (is_aborted signal s) s s' → reach (svc s) (svc s') →
  sched s' = sched s → (wrappers s = ∅ → wrappers s' = ∅) →
  Clean s'.
Proof.
  intros HC HG Hr Hs Hw. pose proof HC as [C1 C2 C3 C4 C5 C6].
  apply (clean_intro s s'); try done.
  - apply (kept_launched s s'); [done|done|by rewrite Hs].
  - by rewrite Hs.
  - intros Hna. rewrite Hs. intros Hres.
    rewrite (gd_aborted _ _ _ HG) in Hna.
    destruct (C6 Hna Hres) as [? ?]. auto.
Qed.

Lemma cancel_rejected now uid v :
  (cancelTransferTask now taskId uid v).1 = false →
  (cancelTransferTask now taskId uid v).2 = v.
Proof.
  rewrite cancelTransferTask_unfold.
  destruct (transferTasks v !! taskId) as [task|]; [|done].
  case_decide; [done|].
  by destruct (taskAbortControllers v !! taskId).
Qed.

Lemma cancel_event_resolved now uid s :
  allTasksCompleted (sched (cancel_event taskId signal now uid s)) = Resolved →
  allTasksCompleted (sched s) = Resolved.
Proof.
  unfold cancel_event. cbv zeta.
  repeat case_match; frame_simpl; try done;
    by destruct (allTasksCompleted (sched s)).
Qed.

Lemma cancel_event_signals now uid s :
  signals (svc (cancel_event taskId signal now uid s))
  = signals (cancelTransferTask now taskId uid (svc s)).2.
Proof. unfold cancel_event. cbv zeta. by repeat case_match. Qed.

Lemma clean_cancel now uid s :
  Clean s → Clean (cancel_event taskId signal now uid s).
Proof.
  intros HC. pose proof HC as [C1 C2 C3 C4 C5 C6].
  set (s' := cancel_event taskId signal now uid s).
  destruct (cancel_event_frame taskId signal now uid s) as (Hp & Hw & Hc).
  fold s' in Hp, Hw, Hc. injection Hc as Hc1 Hc2 Hc3.
  assert (Hr : reach (svc s) (svc s'))
    by (apply rch_cancel_event, rtc_refl).
  assert (Hctl : ∀ sig, taskAbortControllers (svc s') !! taskId = Some sig →
                        sig = signal ∧ signal < length (signals (svc s'))).
  { intros sig Hs. apply (reach_controllers_some _ _ _ _ Hr) in Hs.
    destruct (C2 sig Hs) as [-> Hlt]. split; [done|].
    by rewrite (proj1 (reach_signals _ _ signal Hr)). }
  destruct (is_aborted signal s') eqn:Ha'.
  - constructor; try (intros; congruence); try exact Hctl.
    rewrite Ha'. intros j e _. by right.
  - assert (Hrej : (cancelTransferTask now taskId uid (svc s)).1 = false).
    { destruct (cancelTransferTask now taskId uid (svc s)).1 eqn:E; [|done].
      apply cancelTransferTask_accepts in E as Hex.
      destruct Hex as (task & sig & _ & _ & Hsig).
      destruct (C2 sig Hsig) as [-> Hlt].
      pose proof (cancelTransferTask_signals now taskId uid (svc s) signal E Hsig)
        as Hsg.
      rewrite <- (cancel_event_signals now uid s) in Hsg. fold s' in Hsg.
      unfold is_aborted, aborted in Ha'. rewrite Hsg in Ha'.
      by rewrite list_lookup_insert_eq in Ha'. }
    assert (Hsvc : svc s' = svc s).
    { pose proof (cancel_rejected now uid (svc s) Hrej) as Hv.
      unfold s', cancel_event. cbv zeta.
      unfold is_aborted at 2. frame_simpl. rewrite Hv.
      fold (is_aborted signal s).
      destruct (is_aborted signal s); simpl; frame_simpl; by rewrite ?Hv. }
    assert (Hab : is_aborted signal s = false)
      by (unfold is_aborted in *; by rewrite <- Hsvc).
    assert (Hsch : allTasksCompleted (sched s') = Resolved →
                   allTasksCompleted (sched s) = Resolved)
      by apply cancel_event_resolved.
    constructor.
    + rewrite Ha', <- Hab. unfold pending_ok. by rewrite Hw.
    + done.
    + intros _. rewrite Hsvc. by apply C3.
    + intros _. rewrite Hsvc, Hc2. by apply C4.
    + by rewrite Hc2, Hc3.
    + intros _ Hres. rewrite Hc2, Hc3, Hw. apply C6; auto.
Qed.

(** The part of [Clean] that speaks of the scheduler's variables. *)
Record Lnch (s : Proc) : Prop := mkLnch {
  ln_launched :
    is_aborted signal s = false →
    ∀ j x, j < currentSubTaskIndex (sched s) → sts s !! j = Some x →
           x ≠ SubTask.queued;
  ln_index : currentSubTaskIndex (sched s) ≤ totalSubTasks (sched s);
  ln_resolved :
    is_aborted signal s = false → allTasksCompleted (sched s) = Resolved →
    currentSubTaskIndex (sched s) = totalSubTasks (sched s) ∧ wrappers s = ∅
}.

Lemma lnch_of_clean s : Clean s → Lnch s.
Proof. intros [C1 C2 C3 C4 C5 C6]. by constructor. Qed.

Lemma update_at_not_queued now i new p m s x :
  NoDup (ids s) → new ≠ SubTask.queued → is_Some (sts s !! i) →
  sts (update taskId now i new p m s) !! i = Some x → x ≠ SubTask.queued.
Proof.
  intros Hnd Hnew [old Hold]. rewrite update_sts, Hold by done.
  destruct (blocked old new) eqn:B.
  - rewrite Hold. intros [= <-]. unfold blocked in B. by destruct old.
  - rewrite list_lookup_insert_eq by (by eapply lookup_lt_Some).
    by intros [= <-].
Qed.

Lemma start_wrapper_at now i s x :
  NoDup (ids s) → is_Some (sts s !! i) →
  sts (start_wrapper taskId signal now i s) !! i = Some x →
  x ≠ SubTask.queued.
Proof.
  intros Hnd Hi. unfold start_wrapper.
  assert (Hst : is_Some (subTask_at taskId s i)).
  { rewrite sts_lookup in Hi. destruct Hi as [x' Hx'].
    destruct (subTask_at taskId s i); [eauto|done]. }
  destruct Hst as [st Hst]. rewrite Hst.
  assert (Ht : is_Some (the_task taskId s)).
  { unfold subTask_at in Hst. destruct (the_task taskId s); [eauto|done]. }
  destruct Ht as [task Ht]. rewrite Ht.
  repeat case_match; by apply update_at_not_queued.
Qed.

Lemma inv_skip s :
  Inv taskId signal s →
  currentSubTaskIndex (sched s) < totalSubTasks (sched s) →
  Inv taskId signal (with_sched skip_sched s).
Proof.
  intros HI Hidx. eapply inv_transfer; [exact HI|done..|simpl; lia|done].
Qed.

Lemma inv_launch_one now s st :
  Inv taskId signal s → not_idle s →
  currentlyActiveSubTasks (sched s) < MAX_CONCURRENT_SUB_TASKS →
  subTask_at taskId s (currentSubTaskIndex (sched s)) = Some st →
  Inv taskId signal
      (start_wrapper taskId signal now (currentSubTaskIndex (sched s))
         (with_sched launch_sched s))
  ∧ Frame taskId (currentSubTaskIndex (sched s)) (with_sched launch_sched s)
      (start_wrapper taskId signal now (currentSubTaskIndex (sched s))
         (with_sched launch_sched s)).
Proof.
  intros HI Hn Hact E.
  set (s1 := with_sched launch_sched s).
  set (s2 := start_wrapper taskId signal now (currentSubTaskIndex (sched s)) s1).
  assert (Hfin : Final taskId signal (currentSubTaskIndex (sched s)) s1 s2).
  { eapply (start_wrapper_final _ _ _ _ true); [|exact E].
    assert (Hnone : wrappers s !! currentSubTaskIndex (sched s) = None).
    { apply eq_None_not_Some. intros Hs.
      pose proof (inv_fresh _ _ _ HI _ Hs). lia. }
    pose proof (track_absent _ _ s _ HI Hnone) as [T1 _ T3 T4].
    constructor; [done|apply frame_refl|done..]. }
  split; [by eapply (inv_launch taskId signal s)|].
  by destruct Hfin.
Qed.

Lemma empty_of_active s :
  Inv taskId signal s → currentlyActiveSubTasks (sched s) = 0 → wrappers s = ∅.
Proof.
  intros HI H0. apply map_size_empty_inv. by rewrite <- (inv_active _ _ _ HI).
Qed.

Lemma resolve_remove_counters s :
  currentSubTaskIndex (sched (resolveAllTasksCompleted (removeOnAbortOverall s)))
  = currentSubTaskIndex (sched s)
  ∧ totalSubTasks (sched (resolveAllTasksCompleted (removeOnAbortOverall s)))
    = totalSubTasks (sched s).
Proof.
  unfold resolveAllTasksCompleted, removeOnAbortOverall, with_sched. simpl.
  by destruct (allTasksCompleted (sched s)).
Qed.

Lemma launch_loop_lnch now fuel s :
  Inv taskId signal s → not_idle s → Lnch s →
  Lnch (launch_loop taskId signal now fuel s).
Proof.
  revert s. induction fuel as [|fuel IH]; intros s HI Hn HL; simpl; [done|].
  pose proof HL as [L1 L2 L3].
  case_bool_decide as Hc; [|done]. destruct Hc as [Hact Hidx].
  destruct (subTask_at taskId s (currentSubTaskIndex (sched s))) as [st|] eqn:E;
    [|done].
  assert (Hpending : is_aborted signal s = false →
                     allTasksCompleted (sched s) ≠ Resolved).
  { intros Ha Hres. destruct (L3 Ha Hres) as [? _]. lia. }
  case_decide as Hcan.
  - set (s1 := with_sched skip_sched s).
    assert (HI1 : Inv taskId signal s1) by (by apply inv_skip).
    assert (HL1 : Lnch s1).
    { constructor.
      - intros Ha j x Hj Hx. unfold s1 in Hj. frame_simpl. simpl in Hj.
        destruct (decide (j = currentSubTaskIndex (sched s))) as [->|Hne].
        + change (sts s1) with (sts s) in Hx. rewrite sts_lookup, E in Hx.
          injection Hx as <-. by rewrite Hcan.
        + apply (L1 Ha j x); [lia|done].
      - unfold s1. frame_simpl. simpl. lia.
      - intros Ha Hres. by destruct (Hpending Ha). }
    case_bool_decide as Hend; [|by apply IH].
    apply IH.
    + by apply inv_resolve, inv_removeListener.
    + done.
    + destruct HL1 as [M1 M2 M3].
      destruct (resolve_remove_counters s1) as [R1 R2]. constructor.
      * intros Ha j x Hj Hx. rewrite R1 in Hj. by apply (M1 Ha j x).
      * by rewrite R1, R2.
      * intros Ha _. destruct Hend as [He1 He2]. split.
        -- by rewrite R1, R2.
        -- change (wrappers s = ∅). apply empty_of_active; [done|].
           exact He2.
  - destruct (inv_launch_one now s st HI Hn Hact E)
      as [HI2 [F1 F2 F3 F4 F5 F6 F7]].
    set (s1 := with_sched launch_sched s) in *.
    set (s2 := start_wrapper taskId signal now (currentSubTaskIndex (sched s)) s1)
      in *.
    assert (Ha2 : is_aborted signal s2 = is_aborted signal s)
      by (by apply is_aborted_signals).
    apply IH; [done|by unfold not_idle; rewrite F1|].
    constructor.
    + rewrite Ha2. intros Ha j x Hj Hx. rewrite F2 in Hj. simpl in Hj.
      destruct (decide (j = currentSubTaskIndex (sched s))) as [->|Hne].
      * assert (Hsome : is_Some (sts s !! currentSubTaskIndex (sched s)))
          by (rewrite sts_lookup, E; eauto).
        eapply (start_wrapper_at now _ s1); [|exact Hsome|exact Hx].
        apply (inv_nodup _ _ _ HI).
      * rewrite F5 in Hx by done. apply (L1 Ha j x); [lia|done].
    + rewrite F2. simpl. lia.
    + rewrite Ha2, F2. simpl. intros Ha Hres. by destruct (Hpending Ha).
Qed.

Lemma launchNext_lnch now s :
  Inv taskId signal s → not_idle s → Lnch s →
  Lnch (launchNextSubTaskIfPossible taskId signal now s).
Proof.
  intros HI Hn HL. pose proof HL as [L1 L2 L3].
  unfold launchNextSubTaskIfPossible.
  destruct (is_aborted signal s) eqn:Ha.
  - case_decide; [|done].
    constructor;
      try (change (is_aborted signal (resolveAllTasksCompleted s))
             with (is_aborted signal s); rewrite Ha; intros; discriminate).
    frame_simpl. by destruct (allTasksCompleted _).
  - cbv zeta.
    set (s1 := launch_loop taskId signal now _ s).
    destruct (inv_launch_loop taskId signal now
                (totalSubTasks (sched s) - currentSubTaskIndex (sched s)) s HI Hn)
      as [HI1 _].
    pose proof (launch_loop_lnch now
                  (totalSubTasks (sched s) - currentSubTaskIndex (sched s)) s
                  HI Hn HL) as [M1 M2 M3].
    fold s1 in HI1, M1, M2, M3.
    case_bool_decide as Hend; [|by constructor].
    destruct Hend as (He1 & He2 & He3).
    destruct (resolve_remove_counters s1) as [R1 R2]. constructor.
    + intros Ha' j x Hj Hx. rewrite R1 in Hj. by apply (M1 He3 j x).
    + by rewrite R1, R2.
    + intros _ _. split.
      * by rewrite R1, R2.
      * change (wrappers s1 = ∅). by apply empty_of_active.
Qed.

Lemma lnch_resolve s :
  Inv taskId signal s → Lnch s →
  (is_aborted signal s = false →
   currentSubTaskIndex (sched s) = totalSubTasks (sched s)
   ∧ currentlyActiveSubTasks (sched s) = 0) →
  Lnch (resolveAllTasksCompleted (removeOnAbortOverall s)).
Proof.
  intros HI [L1 L2 L3] H. destruct (resolve_remove_counters s) as [R1 R2].
  constructor.
  - intros Ha j x Hj Hx. rewrite R1 in Hj. by apply (L1 Ha j x).
  - by rewrite R1, R2.
  - intros Ha _. destruct (H Ha) as [? ?]. split; [by rewrite R1, R2|].
    change (wrappers s = ∅). by apply empty_of_active.
Qed.

(** The state in which [wrapper_finally] leaves the scheduler before it
    looks for the next sub-task. *)
Lemma inv_finished i s :
  Inv taskId signal s → wrappers s !! i = Some WSettled →
  Inv taskId signal (with_sched finished_sched (with_wrappers (delete i) s))
  ∧ not_idle (with_sched finished_sched (with_wrappers (delete i) s)).
Proof.
  intros HI Hi. pose proof HI as [I1 I2 I3 I4 I5 I6 I7].
  set (s1 := with_sched finished_sched (with_wrappers (delete i) s)).
  assert (Hn : not_idle s1).
  { split; intros Hp; (rewrite I7 in Hi; [by rewrite lookup_empty in Hi|]);
      unfold s1 in Hp; frame_simpl; auto. }
  split; [|done].
  pose proof (track_wrapper taskId signal s i WSettled HI Hi) as [_ _ HN HK].
  simpl in *.
  constructor; unfold s1; frame_simpl.
  - done.
  - simpl. rewrite I2, map_size_delete, Hi. done.
  - simpl. lia.
  - intros j Hj. simpl. destruct (decide (j = i)) as [->|Hne].
    + rewrite lookup_delete_eq in Hj. by destruct Hj.
    + rewrite lookup_delete_ne in Hj by done. auto.
  - intros j x Hx Ha. destruct (decide (j = i)) as [->|Hne].
    + rewrite (HN eq_refl x Hx) in Ha. done.
    + frame_simpl. rewrite lookup_delete_ne by done. exact (I5 j x Hx Ha).
  - intros j. destruct (decide (j = i)) as [->|Hne].
    + left. by apply HK.
    + destruct (I6 j) as [?|?]; [by left|right].
      frame_simpl. by rewrite lookup_delete_ne.
  - intros Hp. destruct Hn as [? ?]. by destruct Hp.
Qed.

Lemma wrapper_finally_lnch now i s :
  Inv taskId signal s → wrappers s !! i = Some WSettled → Lnch s →
  Lnch (wrapper_finally taskId signal now i s).
Proof.
  intros HI Hi [L1 L2 L3].
  destruct (inv_finished i s HI Hi) as [HI1 Hn1].
  unfold wrapper_finally. cbv zeta.
  set (s1 := with_sched finished_sched (with_wrappers (delete i) s)) in *.
  assert (HL1 : Lnch s1).
  { constructor; [exact L1|exact L2|].
    intros Ha Hres. destruct (L3 Ha Hres) as [_ Hw].
    rewrite Hw in Hi. by rewrite lookup_empty in Hi. }
  pose proof (ln_index _ HL1) as Hidx.
  destruct (is_aborted signal s1) eqn:Ha;
    rewrite ?andb_false_r, ?andb_true_r; cbn [andb negb];
    repeat case_bool_decide;
    first [ exact HL1
          | by apply launchNext_lnch
          | apply lnch_resolve; [exact HI1|exact HL1|];
            intros Ha'; first [congruence|split; [lia|done]] ].
Qed.

(** The state in which [start_scheduler] leaves the scheduler before it
    looks for the first sub-task. *)
Lemma inv_reset total s :
  Inv taskId signal s → phase s = PSourceConnect →
  Inv taskId signal
      (with_sched (λ _, mkSched 0 0 total Pending true) (set_phase PScheduling s)).
Proof.
  intros HI Hp. pose proof HI as [I1 I2 I3 I4 I5 I6 I7].
  assert (Hw : wrappers s = ∅) by auto.
  constructor; frame_simpl; try done.
  - simpl. by rewrite Hw, map_size_empty.
  - simpl. unfold MAX_CONCURRENT_SUB_TASKS. lia.
  - intros j Hj. rewrite Hw, lookup_empty in Hj. by destruct Hj.
Qed.

Lemma start_scheduler_lnch now s :
  Inv taskId signal s → phase s = PSourceConnect →
  is_aborted signal s = false → Lnch s →
  Lnch (start_scheduler taskId signal now s).
Proof.
  intros HI Hp Ha HL. unfold start_scheduler.
  destruct (the_task taskId s) as [task|] eqn:Ht.
  - cbv zeta.
    pose proof (inv_reset (length (Task.subTasks task)) s HI Hp) as HI1.
    set (s1 := with_sched _ (set_phase PScheduling s)) in *.
    assert (Hn : not_idle s1) by (split; unfold s1; frame_simpl; congruence).
    assert (HL1 : Lnch s1).
    { constructor.
      - intros _ j x Hj. unfold s1 in Hj. frame_simpl. simpl in Hj. lia.
      - unfold s1. frame_simpl. simpl. lia.
      - intros _ Hres. unfold s1 in Hres. frame_simpl. simpl in Hres.
        discriminate. }
    case_decide as H0.
    + apply lnch_resolve; [done|done|]. intros _. unfold s1. frame_simpl.
      simpl. by rewrite H0.
    + change (is_aborted signal s1) with (is_aborted signal s). rewrite Ha.
      by apply launchNext_lnch.
  - exact HL.
Qed.

Lemma step_clean now ev s s' :
  Inv taskId signal s → Clean s →
  step taskId signal now ev s = Some s' → Clean s'.
Proof.
  intros HI HC Hstep.
  assert (Hev : (∃ uid, ev = EvCancel uid) ∨ ∀ uid, ev ≠ EvCancel uid)
    by (destruct ev; eauto; right; intros; discriminate).
  destruct Hev as [[uid ->]|Hev].
  { simpl in Hstep. apply (inj Some) in Hstep. subst. by apply clean_cancel. }
  pose proof (step_good now ev s s' (inv_nodup _ _ _ HI) (cl_pending _ HC)
                Hev Hstep) as HG.
  pose proof (step_reach taskId signal _ now ev s s' Hstep (rtc_refl _ _)) as Hr.
  destruct (step_shape taskId signal now ev s s' HI Hstep)
    as [i s1 [Hp Hs Hsig Hid Hst Hw Hc] Hdom|uid|e|Hp|Hp Hna|i Hi].
  - apply (clean_same_sched s s1); [done..|].
    intros He. apply map_eq. intros j. rewrite lookup_empty.
    destruct (decide (j = i)) as [->|Hne].
    + apply eq_None_not_Some. rewrite Hdom, He, lookup_empty. by intros [? ?].
    + by rewrite Hw, He, lookup_empty.
  - by apply clean_cancel.
  - destruct (finish_processing_frame taskId now e s) as (_ & _ & F3 & _ & F5 & _).
    apply (clean_same_sched s); [done..|by rewrite F3].
  - by apply (clean_same_sched s).
  - destruct (start_scheduler_lnch now s HI Hp Hna (lnch_of_clean s HC))
      as [M1 M2 M3].
    by apply (clean_intro s).
  - destruct (wrapper_finally_lnch now i s HI Hi (lnch_of_clean s HC))
      as [M1 M2 M3].
    by apply (clean_intro s).
Qed.

Lemma run_clean es s s' :
  Inv taskId signal s → Clean s →
  run taskId signal es s = Some s' → Clean s'.
Proof.
  revert s. induction es as [|[now ev] es IH]; intros s HI HC Hrun;
    simpl in Hrun.
  - by injection Hrun as <-.
  - destruct (step taskId signal now ev s) as [s1|] eqn:E; [|done].
    eapply IH; [| |exact Hrun]; [by eapply step_inv|by eapply step_clean].
Qed.

(** When the scheduler's promise is resolved and the signal is not aborted,
    every sub-task has been started and none is still running. *)
Lemma resolved_done s :
  Inv taskId signal s → Clean s →
  totalSubTasks (sched s) = length (subs s) →
  is_aborted signal s = false → allTasksCompleted (sched s) = Resolved →
  ∀ j x, sts s !! j = Some x → x = SubTask.completed ∨ x = SubTask.failed.
Proof.
  intros HI [C1 C2 C3 C4 C5 C6] Hlen Ha Hres j x Hx.
  destruct (C6 Ha Hres) as [Hidx Hw].
  assert (Hj : j < currentSubTaskIndex (sched s)).
  { rewrite Hidx, Hlen. apply lookup_lt_Some in Hx.
    unfold statuses in Hx. by rewrite length_fmap in Hx. }
  pose proof (C3 Ha j x Hx) as Hc. pose proof (C4 Ha j x Hj Hx) as Hq.
  pose proof (inv_live _ _ _ HI j x Hx) as Hl.
  destruct x; auto; try done;
    destruct (Hl eq_refl) as (ph & Hph & _);
    by rewrite Hw, lookup_empty in Hph.
Qed.

(** The status [finish_processing] computes when the scheduler's promise
    was resolved. *)
Lemma finish_resolved_status now s task :
  transferTasks (svc s) !! taskId = Some task →
  status_of (svc (finish_processing taskId now None s)) taskId
  = Some (Task.status (rollup_task now task)).
Proof.
  intros Ht. unfold finish_processing, status_of. cbv zeta.
  destruct (sourceSshClient s); frame_simpl;
    unfold finalizeOverallTaskStatus, updateOverallTaskStatusBasedOnSubTasks;
    rewrite Ht; simpl; by rewrite lookup_delete_ne || rewrite lookup_insert_eq.
Qed.

End Completion.

(** [Clean] holds when [initiateNewTransfer] returns. *)
Lemma initiate_clean uuid now payload userId v :
  Clean (uuid 0) (length (signals v))
        (initiateNewTransfer uuid now payload userId v).2.
Proof.
  destruct (initiate_state uuid now payload userId v)
    as (Hsubs & _ & _ & Hctl & Hsig & Hp & Hw & Hc & _).
  destruct (new_subTasks_spec uuid now payload) as (_ & _ & Hq).
  pose proof (initiate_sched uuid now payload userId v) as Hs.
  set (s0 := (initiateNewTransfer uuid now payload userId v).2) in *.
  constructor.
  - intros j e. by rewrite Hw, lookup_empty.
  - intros sig. rewrite Hctl. intros [= <-]. split; [done|].
    rewrite Hsig, length_app. simpl. lia.
  - intros _ j x. unfold statuses. rewrite Hsubs, list_lookup_fmap.
    destruct (new_subTasks uuid now payload !! j) as [st|] eqn:E; [|done].
    intros [= <-]. rewrite Forall_lookup in Hq.
    destruct (Hq j st E) as [-> _]. done.
  - intros _ j x. rewrite Hs. simpl. lia.
  - rewrite Hs. simpl. lia.
  - rewrite Hs. simpl. intros; discriminate.
Qed.

Lemma count_status_absent y l :
  (∀ x, x ∈ SubTask.status <$> l → x ≠ y) → count_status y l = 0.
Proof.
  induction l as [|st l IH]; intros H; [done|].
  rewrite count_status_cons, IH.
  - case_decide as E; [|done]. destruct (H (SubTask.status st)); [|done].
    rewrite fmap_cons. apply list_elem_of_here.
  - intros x Hx. apply H. rewrite fmap_cons. by apply list_elem_of_further.
Qed.

(** A task that was not cancelled and whose scheduler has let go of every
    sub-task ends, when [processTransferTask] returns, with each of its
    sub-tasks completed or failed, and with the status failed when all
    failed, completed when all completed, and partially-completed
    otherwise. *)
Theorem uncancelled_task_outcome uuid now payload userId v es t s s' :
  NoDup (uuid <$> seq 1 (length (connectionIds payload)
                         * length (sourceItems payload))) →
  run (uuid 0) (length (signals v)) es
      (initiateNewTransfer uuid now payload userId v).2 = Some s →
  is_aborted (length (signals v)) s = false →
  allTasksCompleted (sched s) = Resolved →
  step (uuid 0) (length (signals v)) t EvSchedulerSettled s = Some s' →
  phase s' = PFinished
  ∧ length (statuses (svc s') (uuid 0))
    = length (connectionIds payload) * length (sourceItems payload)
  ∧ (∀ x, x ∈ statuses (svc s') (uuid 0) →
          x = SubTask.completed ∨ x = SubTask.failed)
  ∧ (0 < length (connectionIds payload) * length (sourceItems payload) →
     status_of (svc s') (uuid 0)
     = Some (if decide (count_status SubTask.failed
                          (subTasks_of (svc s') (uuid 0))
                        = length (subTasks_of (svc s') (uuid 0)))
             then Task.failed
             else if decide (count_status SubTask.completed
                               (subTasks_of (svc s') (uuid 0))
                             = length (subTasks_of (svc s') (uuid 0)))
             then Task.completed
             else Task.partially_completed)).
Proof.
  intros Hnd Hrun Ha Hres Hstep.
  pose proof (initiate_inv uuid now payload userId v Hnd) as HI0.
  pose proof (run_inv _ _ _ _ _ HI0 Hrun) as HI.
  pose proof (run_clean _ _ _ _ _ HI0
                (initiate_clean uuid now payload userId v) Hrun) as HC.
  destruct (initiate_state uuid now payload userId v)
    as (Hsubs & _ & _ & _ & _ & Hp0 & _).
  destruct (new_subTasks_spec uuid now payload) as (Hpairs & _ & _).
  simpl in Hstep. case_decide as Hp; [|done]. rewrite Hres in Hstep.
  apply (inj Some) in Hstep. subst s'.
  destruct (run_busy (uuid 0) (length (signals v)) es _ s HI0) as [B1 B2];
    [intros; congruence|exact Hrun|exact Hp|].
  pose proof (resolved_done _ _ s HI HC B1 Ha Hres) as Hdone.
  destruct (finish_processing_frame (uuid 0) t None s)
    as (F1 & _ & _ & _ & _ & F6).
  assert (Hlen : length (subTasks_of (svc s) (uuid 0))
                 = length (connectionIds payload) * length (sourceItems payload)).
  { rewrite (evolves_length _ _
               (reach_evolves _ _ (uuid 0)
                  (run_reach _ _ _ _ _ _ Hrun (rtc_refl _ _)))).
    rewrite Hsubs.
    by rewrite <- (length_fmap target_and_item), Hpairs, length_pairs_of. }
  assert (Hall : ∀ x, x ∈ statuses (svc s) (uuid 0) →
                      x = SubTask.completed ∨ x = SubTask.failed).
  { intros x Hx. apply list_elem_of_lookup in Hx as [j Hj]. by eapply Hdone. }
  split; [done|]. unfold statuses. rewrite F1.
  split; [by rewrite length_fmap|]. split; [exact Hall|].
  intros Hpos.
  destruct (transferTasks (svc s) !! uuid 0) as [task|] eqn:Ht;
    [|unfold subTasks_of in Hlen; rewrite Ht in Hlen; simpl in Hlen; lia].
  assert (Hst : subTasks_of (svc s) (uuid 0) = Task.subTasks task)
    by (unfold subTasks_of; by rewrite Ht).
  rewrite (finish_resolved_status (uuid 0) t s task Ht). f_equal.
  rewrite rollup_task_status
    by (intros E; rewrite Hst, E in Hlen; simpl in Hlen; lia).
  rewrite <- Hst.
  pose proof (count_subTasks_counts (subTasks_of (svc s) (uuid 0)))
    as (Hc & Hf & Hi & Hq).
  pose proof (count_status_total (subTasks_of (svc s) (uuid 0))) as Htot.
  assert (Habs : ∀ y, y ≠ SubTask.completed → y ≠ SubTask.failed →
                      count_status y (subTasks_of (svc s) (uuid 0)) = 0).
  { intros y Hy1 Hy2. apply count_status_absent. intros x Hx.
    destruct (Hall x Hx) as [-> | ->]; congruence. }
  rewrite (Habs SubTask.queued), (Habs SubTask.connecting),
    (Habs SubTask.transferring), (Habs SubTask.cancelled) in * by done.
  unfold newOverallStatus. rewrite Hc, Hf, Hi, Hq.
  repeat case_decide; try reflexivity; lia.
Qed.

(** The state of the successful transfer when its scheduler has settled. *)
Definition transfer_settling : Proc :=
  default (demo_start demo_payload)
          (demo_run (take 14 successful_transfer) demo_payload).

Lemma uncancelled_task_outcome_witness :
  phase transfer_done = PFinished
  ∧ length (statuses (svc transfer_done) "task-0") = 1 * 1
  ∧ (∀ x, x ∈ statuses (svc transfer_done) "task-0" →
          x = SubTask.completed ∨ x = SubTask.failed)
  ∧ (0 < 1 * 1 →
     status_of (svc transfer_done) "task-0"
     = Some (if decide (count_status SubTask.failed
                          (subTasks_of (svc transfer_done) "task-0")
                        = length (subTasks_of (svc transfer_done) "task-0"))
             then Task.failed
             else if decide (count_status SubTask.completed
                               (subTasks_of (svc transfer_done) "task-0")
                             = length (subTasks_of (svc transfer_done) "task-0"))
             then Task.completed
             else Task.partially_completed)).
Proof.
  assert (Hrun : demo_run (take 14 successful_transfer) demo_payload
                 = Some transfer_settling) by (vm_compute; reflexivity).
  assert (Hnd : NoDup (demo_uuid <$> seq 1 (length (connectionIds demo_payload)
                                            * length (sourceItems demo_payload)))).
  { apply (bool_decide_unpack _). vm_compute. exact I. }
  assert (Ha : is_aborted 0 transfer_settling = false)
    by (vm_compute; reflexivity).
  assert (Hres : allTasksCompleted (sched transfer_settling) = Resolved)
    by (vm_compute; reflexivity).
  assert (Hstep : step "task-0" 0 13 EvSchedulerSettled transfer_settling
                  = Some transfer_done) by (vm_compute; reflexivity).
  exact (uncancelled_task_outcome demo_uuid 0 demo_payload (UserNum 1)
           empty_service _ 13 transfer_settling transfer_done
           Hnd Hrun Ha Hres Hstep).
Defined.
